(** * pwncheck: breach lookup with a prefix cache, batch loop and CSV export

    A shallow embedding of [src/pwncheck.js] (and of the lookup it shares
    word for word with [src/check-pwned-passwords.js]).

    - JavaScript strings are sequences of code units; they are embedded as
      [string], one [ascii] per code unit, which covers the code units
      below 256.
    - JavaScript numbers that the program handles are integers or [NaN];
      they are embedded as [Js.number] with exact integers. Up to 2^53 in
      absolute value every integer is a JavaScript number; beyond,
      [parseInt] rounds and [String] shortens, which is outside the
      embedding, so what is stated of numerals read or written is stated
      up to 2^53.
    - [hashCache] is a [Map] keyed by strings: a [gmap string _].
    - The asynchronous lookup is embedded as a state transformer over the
      cache and the chronological list of externally visible events
      (requests sent, delays slept); a promise is embedded by the way it
      settles. The lookup and the loops come twice: for requests that
      end, and ([Pending]) for a service that may leave a request without
      the event that would settle the promise. *)

From Stdlib Require Import ZArith NArith Ascii String List Lia.
From stdpp Require Import base gmap strings list.

(** ** JavaScript primitives used by the program *)

Module Js.

Definition DQUOTE : ascii := "034"%char.
Definition COMMA : ascii := ","%char.
Definition COLON : ascii := ":"%char.
Definition LF : ascii := "010"%char.
Definition CR : ascii := "013"%char.

(** [WhiteSpace] and [LineTerminator] code units below 256: tab, line
    feed, vertical tab, form feed, carriage return, space, no-break
    space. *)
Definition isWhiteSpace (c : ascii) : bool :=
  let n := N_of_ascii c in
  ((9 <=? n) && (n <=? 13) || (n =? 32) || (n =? 160))%N.

Fixpoint trimStart (s : string) : string :=
  match s with
  | String c s' => if isWhiteSpace c then trimStart s' else s
  | EmptyString => EmptyString
  end.

Fixpoint trimEnd (s : string) : string :=
  match s with
  | String c s' =>
      match trimEnd s' with
      | EmptyString => if isWhiteSpace c then EmptyString else String c EmptyString
      | t => String c t
      end
  | EmptyString => EmptyString
  end.

(** [s.trim()] *)
Definition trim (s : string) : string := trimEnd (trimStart s).

(** Truthiness of a string: the empty string is the only falsy one. *)
Definition truthy (s : string) : bool :=
  match s with
  | EmptyString => false
  | String _ _ => true
  end.

(** [s.substring(0, n)] *)
Fixpoint substring_to (n : nat) (s : string) : string :=
  match n, s with
  | S n', String c s' => String c (substring_to n' s')
  | _, _ => EmptyString
  end.

(** [s.substring(n)] *)
Fixpoint substring_from (n : nat) (s : string) : string :=
  match n, s with
  | S n', String _ s' => substring_from n' s'
  | _, _ => s
  end.

(** [s.split(sep)] for a separator of one code unit. *)
Fixpoint split_on (sep : ascii) (s : string) : list string :=
  match s with
  | EmptyString => [EmptyString]
  | String c s' =>
      if Ascii.eqb c sep then EmptyString :: split_on sep s'
      else
        match split_on sep s' with
        | piece :: pieces => String c piece :: pieces
        | [] => [String c EmptyString]
        end
  end.

(** [s.split('\r\n')] *)
Fixpoint split_crlf (s : string) : list string :=
  match s with
  | EmptyString => [EmptyString]
  | String c s' =>
      let keep :=
        match split_crlf s' with
        | piece :: pieces => String c piece :: pieces
        | [] => [String c EmptyString]
        end in
      match s' with
      | String c' s'' =>
          if Ascii.eqb c CR && Ascii.eqb c' LF
          then EmptyString :: split_crlf s''
          else keep
      | EmptyString => keep
      end
  end.

(** [pieces.join(sep)] on an array of strings. *)
Fixpoint join (sep : string) (pieces : list string) : string :=
  match pieces with
  | [] => EmptyString
  | [p] => p
  | p :: ps => p +:+ sep +:+ join sep ps
  end.

(** [str.replace] of every double quote (global flag) by two of them. *)
Fixpoint doubleQuotes (s : string) : string :=
  match s with
  | EmptyString => EmptyString
  | String c s' =>
      if Ascii.eqb c DQUOTE
      then String DQUOTE (String DQUOTE (doubleQuotes s'))
      else String c (doubleQuotes s')
  end.

(** The regular-expression test of [escapeCsv]: some code unit of [s] is
    a double quote, a comma, a line feed or a carriage return. *)
Fixpoint needsQuoting (s : string) : bool :=
  match s with
  | EmptyString => false
  | String c s' =>
      Ascii.eqb c DQUOTE || Ascii.eqb c COMMA || Ascii.eqb c LF
      || Ascii.eqb c CR || needsQuoting s'
  end.

(** Numbers: an integer or [NaN]. [Num z] is the JavaScript number of
    value [z], which exists for every [z] up to 2^53 in absolute value. *)
Inductive number : Type :=
| Num (z : Z)
| NaN.

(** [n === 0], [n > 0], [n >= 0]: every comparison with [NaN] is false. *)
Definition isZero (n : number) : bool :=
  match n with Num z => (z =? 0)%Z | NaN => false end.
Definition isPositive (n : number) : bool :=
  match n with Num z => (0 <? z)%Z | NaN => false end.
Definition isNonNegative (n : number) : bool :=
  match n with Num z => (0 <=? z)%Z | NaN => false end.

Definition digitValue (c : ascii) : option Z :=
  let n := N_of_ascii c in
  if ((48 <=? n) && (n <=? 57))%N then Some (Z.of_N n - 48)%Z else None.

(** Value of the longest prefix of decimal digits, continuing from [acc]. *)
Fixpoint digitsValue (acc : Z) (s : string) : Z :=
  match s with
  | String c s' =>
      match digitValue c with
      | Some d => digitsValue (10 * acc + d) s'
      | None => acc
      end
  | EmptyString => acc
  end.

Definition startsWithDigit (s : string) : bool :=
  match s with
  | String c _ => match digitValue c with Some _ => true | None => false end
  | EmptyString => false
  end.

Definition parseDigits (sign : Z) (s : string) : number :=
  if startsWithDigit s then Num (sign * digitsValue 0 s) else NaN.

(** [parseInt(x, 10)] where [x] is a string or [undefined] ([None]):
    leading white space is skipped, one sign is accepted, the longest
    prefix of decimal digits is read, and [NaN] is returned when there is
    none ([undefined] reads as the text "undefined", which has none). The
    value read is the number itself as long as it does not exceed 2^53. *)
Definition parseInt10 (x : option string) : number :=
  match x with
  | None => NaN
  | Some s =>
      match trimStart s with
      | String c s' =>
          if Ascii.eqb c "-"%char then parseDigits (-1) s'
          else if Ascii.eqb c "+"%char then parseDigits 1 s'
          else parseDigits 1 (String c s')
      | EmptyString => NaN
      end
  end.

Definition digitChar (d : N) : ascii := ascii_of_N (48 + d).

(** Decimal digits of [p], most significant first, in front of [acc];
    [fuel] bounds the number of digits. *)
Fixpoint digitsOf (fuel : nat) (n : N) (acc : string) : string :=
  match fuel with
  | O => acc
  | S fuel' =>
      let acc' := String (digitChar (n mod 10)) acc in
      if (n / 10 =? 0)%N then acc' else digitsOf fuel' (n / 10)%N acc'
  end.

Definition decimal (n : N) : string :=
  digitsOf (S (N.to_nat (N.log2 n))) n EmptyString.

(** [String(n)] for a number: the decimal digits of an integer up to 2^53
    in absolute value. *)
Definition numberToString (n : number) : string :=
  match n with
  | NaN => "NaN"
  | Num (Zneg p) => String "-" (decimal (Npos p))
  | Num z => decimal (Z.to_N z)
  end.

(** The values that reach [escapeCsv]. *)
Inductive value : Type :=
| Null
| Undefined
| Number (n : number)
| Str (s : string).

(** [String(v)] *)
Definition toString (v : value) : string :=
  match v with
  | Null => "null"
  | Undefined => "undefined"
  | Number n => numberToString n
  | Str s => s
  end.

(** [n === -1] *)
Definition isMinusOne (n : number) : bool :=
  match n with Num z => (z =? -1)%Z | NaN => false end.

(** [s.startsWith(p)] *)
Fixpoint startsWith (p s : string) : bool :=
  match p, s with
  | EmptyString, _ => true
  | String a p', String b s' => Ascii.eqb a b && startsWith p' s'
  | String _ _, EmptyString => false
  end.

(** [s.endsWith(p)] *)
Definition endsWith (p s : string) : bool :=
  (String.length p <=? String.length s)%nat
  && String.eqb (substring_from (String.length s - String.length p) s) p.

(** [s.indexOf(c, from)] for a search string of one code unit; [None]
    stands for -1. *)
Fixpoint indexOf (c : ascii) (s : string) (from : nat) : option nat :=
  match s with
  | EmptyString => None
  | String x s' =>
      match from with
      | O => if Ascii.eqb x c then Some O else option_map S (indexOf c s' O)
      | S from' => option_map S (indexOf c s' from')
      end
  end.

(** [s[i]]; [None] stands for [undefined]. *)
Fixpoint charAt (i : nat) (s : string) : option ascii :=
  match s, i with
  | EmptyString, _ => None
  | String c _, O => Some c
  | String _ s', S i' => charAt i' s'
  end.

(** [s.substring(a, b)]: the code units from the smaller to the larger of
    the two indices. *)
Definition substring (a b : nat) (s : string) : string :=
  substring_to (Nat.max a b - Nat.min a b) (substring_from (Nat.min a b) s).

(** [s.replace] of every pair of double quotes (global flag, matches
    taken from left to right without overlap) by one double quote. *)
Fixpoint undoubleQuotes (s : string) : string :=
  match s with
  | EmptyString => EmptyString
  | String c s' =>
      match s' with
      | String c' s'' =>
          if Ascii.eqb c DQUOTE && Ascii.eqb c' DQUOTE
          then String DQUOTE (undoubleQuotes s'')
          else String c (undoubleQuotes s')
      | EmptyString => String c EmptyString
      end
  end.

(** [toLowerCase] on code units below 256: the letters A to Z and the
    capital letters of Latin-1 (all of 192 to 222 but the multiplication
    sign) move up by 32. *)
Definition lowerChar (c : ascii) : ascii :=
  let n := N_of_ascii c in
  if ((65 <=? n) && (n <=? 90)
      || (192 <=? n) && (n <=? 222) && negb (n =? 215))%N
  then ascii_of_N (n + 32) else c.

Fixpoint toLowerCase (s : string) : string :=
  match s with
  | EmptyString => EmptyString
  | String c s' => String (lowerChar c) (toLowerCase s')
  end.

(** [array.indexOf(x)] on an array of strings; [None] stands for -1. *)
Fixpoint indexOfArray (xs : list string) (x : string) : option nat :=
  match xs with
  | [] => None
  | y :: ys => if String.eqb y x then Some O else option_map S (indexOfArray ys x)
  end.

End Js.

(** ** SHA-1 (FIPS 180-4), the digest behind [crypto.createHash('sha1')]

    The program is verified for an arbitrary digest function; this
    concrete one gives the digests of actual passwords in the examples. *)

Module Sha1.

Local Open Scope N_scope.

Definition mask32 : N := 4294967295.

Definition add32 (a b : N) : N := N.land (a + b) mask32.

Definition rotl (n x : N) : N :=
  N.lor (N.land (N.shiftl x n) mask32) (N.shiftr x (32 - n)).

Definition not32 (x : N) : N := N.lxor x mask32.

(** UTF-8 bytes of a string of code units below 256. *)
Fixpoint utf8 (s : string) : list N :=
  match s with
  | EmptyString => []
  | String c s' =>
      let n := N_of_ascii c in
      if n <? 128 then n :: utf8 s'
      else N.lor 192 (N.shiftr n 6) :: N.lor 128 (N.land n 63) :: utf8 s'
  end.

(** Big-endian bytes of [x], [k] of them. *)
Fixpoint bigEndian (k : nat) (x : N) : list N :=
  match k with
  | O => []
  | S k' => bigEndian k' (N.shiftr x 8) ++ [N.land x 255]
  end.

(** Message, a 1 bit, zeros up to 56 mod 64, and the bit length on 64 bits. *)
Definition pad (msg : list N) : list N :=
  let len := N.of_nat (length msg) in
  let zeros := N.to_nat ((119 - len mod 64) mod 64) in
  msg ++ [128] ++ repeat 0 zeros ++ bigEndian 8 (8 * len).

Fixpoint words (fuel : nat) (bytes : list N) : list N :=
  match fuel, bytes with
  | S fuel', b0 :: b1 :: b2 :: b3 :: rest =>
      N.lor (N.shiftl b0 24) (N.lor (N.shiftl b1 16) (N.lor (N.shiftl b2 8) b3))
      :: words fuel' rest
  | _, _ => []
  end.

(** Message schedule, most recent word first. *)
Fixpoint expand (n : nat) (ws : list N) : list N :=
  match n with
  | O => ws
  | S n' =>
      let w := N.lxor (N.lxor (nth 2 ws 0) (nth 7 ws 0))
                      (N.lxor (nth 13 ws 0) (nth 15 ws 0)) in
      expand n' (rotl 1 w :: ws)
  end.

Definition f (t b c d : N) : N :=
  if t <? 20 then N.lor (N.land b c) (N.land (not32 b) d)
  else if t <? 40 then N.lxor b (N.lxor c d)
  else if t <? 60 then N.lor (N.land b c) (N.lor (N.land b d) (N.land c d))
  else N.lxor b (N.lxor c d).

Definition k (t : N) : N :=
  if t <? 20 then 1518500249
  else if t <? 40 then 1859775393
  else if t <? 60 then 2400959708
  else 3395469782.

Definition regs : Type := N * N * N * N * N.

Fixpoint rounds (t : N) (ws : list N) (r : regs) : regs :=
  match ws with
  | [] => r
  | w :: ws' =>
      let '(a, b, c, d, e) := r in
      let temp := add32 (add32 (add32 (add32 (rotl 5 a) (f t b c d)) e) (k t)) w in
      rounds (t + 1) ws' (temp, a, rotl 30 b, c, d)
  end.

Definition compress (h : regs) (block : list N) : regs :=
  let '(h0, h1, h2, h3, h4) := h in
  let '(a, b, c, d, e) := rounds 0 (rev (expand 64 (rev block))) h in
  (add32 h0 a, add32 h1 b, add32 h2 c, add32 h3 d, add32 h4 e).

Fixpoint blocks (fuel : nat) (ws : list N) (h : regs) : regs :=
  match fuel, ws with
  | S fuel', _ :: _ => blocks fuel' (skipn 16 ws) (compress h (firstn 16 ws))
  | _, _ => h
  end.

Definition initial : regs :=
  (1732584193, 4023233417, 2562383102, 271733878, 3285377520).

Definition hexDigit (d : N) : ascii :=
  if d <? 10 then ascii_of_N (48 + d) else ascii_of_N (87 + d).

(** [k] hexadecimal digits of [x], lower case, most significant first. *)
Fixpoint hex (k : nat) (x : N) (acc : string) : string :=
  match k with
  | O => acc
  | S k' => hex k' (N.shiftr x 4) (String (hexDigit (N.land x 15)) acc)
  end.

(** [createHash('sha1').update(s).digest('hex')] *)
Definition digestHex (s : string) : string :=
  let bytes := pad (utf8 s) in
  let ws := words (length bytes) bytes in
  let '(h0, h1, h2, h3, h4) := blocks (length ws) ws initial in
  hex 8 h0 (hex 8 h1 (hex 8 h2 (hex 8 h3 (hex 8 h4 EmptyString)))).

(** [toUpperCase] on the letters a to z (a digest has no other letters). *)
Definition upperChar (c : ascii) : ascii :=
  let n := N_of_ascii c in
  if (97 <=? n) && (n <=? 122) then ascii_of_N (n - 32) else c.

Fixpoint toUpperCase (s : string) : string :=
  match s with
  | EmptyString => EmptyString
  | String c s' => String (upperChar c) (toUpperCase s')
  end.

(** [sha1(password)] of the source. *)
Definition sha1 (password : string) : string :=
  toUpperCase (digestHex password).

End Sha1.

(** ** The program: [src/pwncheck.js] *)

Definition API_RATE_LIMIT_DELAY_MS : Z := 100.
Definition HASH_PREFIX_LENGTH : nat := 5.

(** An element of a cached array: [{ suffix, count }]. *)
Module CacheEntry.
Record t : Type := make { suffix : string; count : Js.number }.
End CacheEntry.

(** An element of [passwordEntries]: [{ password, originalLineNumber }]. *)
Module PasswordEntry.
Record t : Type := make { password : string; originalLineNumber : Z }.
End PasswordEntry.

(** The rendered status of a result, without its colours. *)
Inductive Status : Type :=
| Safe
| Pwned (count : Js.number)
| Error (message : string).

(** An element of [results]: [{ password, count, originalLineNumber, status }]. *)
Module Result.
Record t : Type :=
  make { password : string; count : Js.number; originalLineNumber : Z;
         status : Status }.
End Result.

(** The [options] object handed to [https.get]. *)
Record RequestOptions : Type :=
  { hostname : string; path : string; method : string;
    headers : list (string * string) }.

(** How a request ends: its ['error'] event with the error's message, or the
    response's ['end'] event with the accumulated [data]. The program sets
    no timeout; a request that emits neither event leaves the loop
    waiting, which is what [Pending] below is about. *)
Inductive Response : Type :=
| OnError (message : string)
| OnEnd (data : string).

(** What the run does to the outside, in the order it happens. *)
Inductive Event : Type :=
| HttpsGet (options : RequestOptions)
| Delay (ms : Z).

(** How the promise of [checkPassword] settles. *)
Inductive Settled : Type :=
| Resolved (count : Js.number)
| Rejected (message : string).

(** The module-level [hashCache] and the events so far. *)
Record World : Type :=
  { hashCache : gmap string (list CacheEntry.t); events : list Event }.

(** The variables of [main] that its loop updates. *)
Record Run : Type :=
  { world : World; results : list Result.t;
    checkedCount : nat; cachedCount : nat; pwnedCount : nat }.

(** The requests sent so far. *)
Definition requests (es : list Event) : list RequestOptions :=
  omap (fun e => match e with HttpsGet o => Some o | Delay _ => None end) es.

(** The delays slept so far. *)
Definition delays (es : list Event) : list Z :=
  omap (fun e => match e with Delay ms => Some ms | HttpsGet _ => None end) es.

(** [entries.find((entry) => entry.suffix === suffix)] and then
    [match ? match.count : 0]. *)
Definition matchCount (entries : list CacheEntry.t) (suffix : string) : Js.number :=
  match List.find (fun entry => String.eqb (CacheEntry.suffix entry) suffix) entries with
  | Some m => CacheEntry.count m
  | None => Js.Num 0
  end.

(** The callback of [map] in [checkPassword]. *)
Definition parseLine (line : string) : CacheEntry.t :=
  let parts := Js.split_on Js.COLON line in
  let suffix := nth 0 parts EmptyString in
  let count := parts !! 1%nat in
  CacheEntry.make (Js.trim suffix) (Js.parseInt10 count).

(** [data.split('\r\n').filter((line) => line.trim()).map(...)] *)
Definition parseResponse (data : string) : list CacheEntry.t :=
  map parseLine (List.filter (fun line => Js.truthy (Js.trim line)) (Js.split_crlf data)).

(** The [options] literal of [checkPassword], whose only variable part is
    the prefix in the path. *)
Definition requestFor (prefix : string) : RequestOptions :=
  {| hostname := "api.pwnedpasswords.com";
     path := "/range/" +:+ prefix;
     method := "GET";
     headers := [("User-Agent", "Password-Checker-Script"); ("Add-Padding", "true")] |}.

(** [delay(ms)] *)
Definition delay (ms : Z) (w : World) : World :=
  {| hashCache := hashCache w; events := events w ++ [Delay ms] |}.

(** [escapeCsv(value)] *)
Definition escapeCsv (v : Js.value) : string :=
  match v with
  | Js.Null | Js.Undefined => EmptyString
  | _ =>
      let str := Js.toString v in
      if Js.needsQuoting str
      then String Js.DQUOTE (Js.doubleQuotes str +:+ String Js.DQUOTE EmptyString)
      else str
  end.

(** The [row] built for one result in the export. *)
Definition csvRow (includePasswords : bool) (result : Result.t) : list Js.value :=
  [Js.Number (Js.Num (Result.originalLineNumber result));
   if Js.isNonNegative (Result.count result)
   then Js.Number (Result.count result) else Js.Str EmptyString]
  ++ (if includePasswords
      then [Js.Str (if Js.isPositive (Result.count result)
                    then (if Js.truthy (Result.password result)
                          then Result.password result else EmptyString)
                    else EmptyString)]
      else []).

Definition csvHeaders (includePasswords : bool) : list string :=
  ["line_number"; "pwned_count"] ++ (if includePasswords then ["password"] else []).

(** The [lines] of the export. *)
Definition csvLines (includePasswords : bool) (rs : list Result.t) : list string :=
  Js.join "," (csvHeaders includePasswords)
  :: map (fun result => Js.join "," (map escapeCsv (csvRow includePasswords result))) rs.

(** The text written to the export file: [lines.join('\n')]. *)
Definition csvExport (includePasswords : bool) (rs : list Result.t) : string :=
  Js.join (String Js.LF EmptyString) (csvLines includePasswords rs).

Section Program.

(** The digest function, and the remote service: the way the [n]-th
    request of the run (counting from 0) ends, given its options. *)
Variable sha1 : string -> string.
Variable remote : nat -> RequestOptions -> Response.

Definition prefixOf (password : string) : string :=
  Js.substring_to HASH_PREFIX_LENGTH (sha1 password).

Definition suffixOf (password : string) : string :=
  Js.substring_from HASH_PREFIX_LENGTH (sha1 password).

(** [checkPassword(password)] *)
Definition checkPassword (password : string) (w : World) : Settled * World :=
  let hash := sha1 password in
  let prefix := Js.substring_to HASH_PREFIX_LENGTH hash in
  let suffix := Js.substring_from HASH_PREFIX_LENGTH hash in
  match hashCache w !! prefix with
  | Some cachedData => (Resolved (matchCount cachedData suffix), w)
  | None =>
      let options := requestFor prefix in
      let sent := events w ++ [HttpsGet options] in
      match remote (length (requests (events w))) options with
      | OnEnd data =>
          let entries := parseResponse data in
          (Resolved (matchCount entries suffix),
           {| hashCache := <[prefix := entries]> (hashCache w); events := sent |})
      | OnError message =>
          (Rejected message, {| hashCache := hashCache w; events := sent |})
      end
  end.

(** One iteration of the loop of [main]. *)
Definition processEntry (r : Run) (entry : PasswordEntry.t) : Run :=
  let password := PasswordEntry.password entry in
  let hash := sha1 password in
  let prefix := Js.substring_to HASH_PREFIX_LENGTH hash in
  let wasCached := bool_decide (is_Some (hashCache (world r) !! prefix)) in
  match checkPassword password (world r) with
  | (Resolved count, w) =>
      {| world := if negb wasCached then delay API_RATE_LIMIT_DELAY_MS w else w;
         checkedCount := if negb wasCached then S (checkedCount r) else checkedCount r;
         cachedCount := if negb wasCached then cachedCount r else S (cachedCount r);
         results :=
           results r
           ++ [Result.make password count (PasswordEntry.originalLineNumber entry)
                 (if Js.isZero count then Safe else Pwned count)];
         pwnedCount := if Js.isPositive count then S (pwnedCount r) else pwnedCount r |}
  | (Rejected message, w) =>
      {| world := w;
         checkedCount := checkedCount r;
         cachedCount := cachedCount r;
         results :=
           results r
           ++ [Result.make password (Js.Num (-1)) (PasswordEntry.originalLineNumber entry)
                 (Error message)];
         pwnedCount := pwnedCount r |}
  end.

(** The loop of [main] over [passwordEntries]. *)
Definition processEntries (r : Run) (passwordEntries : list PasswordEntry.t) : Run :=
  foldl processEntry r passwordEntries.

(** The state in which [main] enters its loop: an empty cache, no
    results, all counters at 0. *)
Definition start : Run :=
  {| world := {| hashCache := ∅; events := [] |}; results := [];
     checkedCount := 0; cachedCount := 0; pwnedCount := 0 |}.

(** [main], up to the end of its loop. *)
Definition main (passwordEntries : list PasswordEntry.t) : Run :=
  processEntries start passwordEntries.

End Program.

(** ** The loop of [src/check-pwned-passwords.js]

    This script has the same [checkPassword]; its loop runs over bare
    passwords and its results carry no line number. *)

Module CheckPwnedPasswords.

Record result : Type :=
  { password : string; count : Js.number; status : Status }.

Record Run : Type :=
  { world : World; results : list result;
    checkedCount : nat; cachedCount : nat }.

Section Program.

Variable sha1 : string -> string.
Variable remote : nat -> RequestOptions -> Response.

(** One iteration of the loop of [main]. *)
Definition processPassword (r : Run) (password : string) : Run :=
  let hash := sha1 password in
  let prefix := Js.substring_to HASH_PREFIX_LENGTH hash in
  let wasCached := bool_decide (is_Some (hashCache (world r) !! prefix)) in
  match checkPassword sha1 remote password (world r) with
  | (Resolved count, w) =>
      {| world := if negb wasCached then delay API_RATE_LIMIT_DELAY_MS w else w;
         checkedCount := if negb wasCached then S (checkedCount r) else checkedCount r;
         cachedCount := if negb wasCached then cachedCount r else S (cachedCount r);
         results :=
           results r
           ++ [{| password := password; count := count;
                  status := if Js.isZero count then Safe else Pwned count |}] |}
  | (Rejected message, w) =>
      {| world := w;
         checkedCount := checkedCount r;
         cachedCount := cachedCount r;
         results :=
           results r
           ++ [{| password := password; count := Js.Num (-1);
                  status := Error message |}] |}
  end.

Definition start : Run :=
  {| world := {| hashCache := ∅; events := [] |}; results := [];
     checkedCount := 0; cachedCount := 0 |}.

(** [main], up to the end of its loop. *)
Definition main (passwords : list string) : Run :=
  foldl processPassword start passwords.

End Program.

End CheckPwnedPasswords.

(** What a run of [src/pwncheck.js] leaves when the line numbers and the
    count of pwned entries are forgotten. *)
Definition forgetResult (x : Result.t) : CheckPwnedPasswords.result :=
  {| CheckPwnedPasswords.password := Result.password x; CheckPwnedPasswords.count := Result.count x;
     CheckPwnedPasswords.status := Result.status x |}.

Definition forgetRun (r : Run) : CheckPwnedPasswords.Run :=
  {| CheckPwnedPasswords.world := world r; CheckPwnedPasswords.results := map forgetResult (results r);
     CheckPwnedPasswords.checkedCount := checkedCount r; CheckPwnedPasswords.cachedCount := cachedCount r |}.


(** ** Requests that never end

    The promise of [checkPassword] is settled in two places only: in the
    handler of the response's ['end'] and in the handler of the request's
    ['error']. The program sets no timeout and listens to no other event,
    so a request that emits neither of the two (a response that stalls, or
    one that is cut off after its headers) leaves the promise pending: the
    [await] of the loop does not return, and nothing of what follows the
    loop runs. [checkPassword] and the loops above are the code for
    requests that end; here is the same code for a service that may leave
    a request without either event. *)

Module Pending.

(** Where the loop stands when nothing more happens: past its last
    iteration, or in the iteration whose lookup stays pending; [run] holds
    the variables of [main] as they are then. *)
Inductive Loop (R : Type) : Type :=
| Done (run : R)
| Waiting (run : R).

Arguments Done {R} run.
Arguments Waiting {R} run.

Definition run {R : Type} (l : Loop R) : R :=
  match l with Done r | Waiting r => r end.

(** What the code after the loop gets to work on: the results it prints,
    counts and exports. *)
Definition reported {R : Type} (l : Loop R) : option R :=
  match l with Done r => Some r | Waiting _ => None end.

Section Program.

(** The digest function, and the remote service: the event that ends the
    [n]-th request of the run, or [None] when the request emits neither
    ['error'] nor ['end']. *)
Variable sha1 : string -> string.
Variable service : nat -> RequestOptions -> option Response.

(** [await checkPassword(password)]; [None] when the promise stays
    pending. *)
Definition checkPassword (password : string) (w : World) : option Settled * World :=
  let hash := sha1 password in
  let prefix := Js.substring_to HASH_PREFIX_LENGTH hash in
  let suffix := Js.substring_from HASH_PREFIX_LENGTH hash in
  match hashCache w !! prefix with
  | Some cachedData => (Some (Resolved (matchCount cachedData suffix)), w)
  | None =>
      let options := requestFor prefix in
      let sent := events w ++ [HttpsGet options] in
      match service (length (requests (events w))) options with
      | Some (OnEnd data) =>
          let entries := parseResponse data in
          (Some (Resolved (matchCount entries suffix)),
           {| hashCache := <[prefix := entries]> (hashCache w); events := sent |})
      | Some (OnError message) =>
          (Some (Rejected message), {| hashCache := hashCache w; events := sent |})
      | None =>
          (None, {| hashCache := hashCache w; events := sent |})
      end
  end.

(** One iteration of the loop of [main]. *)
Definition processEntry (r : Run) (entry : PasswordEntry.t) : Loop Run :=
  let password := PasswordEntry.password entry in
  let hash := sha1 password in
  let prefix := Js.substring_to HASH_PREFIX_LENGTH hash in
  let wasCached := bool_decide (is_Some (hashCache (world r) !! prefix)) in
  match checkPassword password (world r) with
  | (Some (Resolved count), w) =>
      Done
        {| world := if negb wasCached then delay API_RATE_LIMIT_DELAY_MS w else w;
           checkedCount := if negb wasCached then S (checkedCount r) else checkedCount r;
           cachedCount := if negb wasCached then cachedCount r else S (cachedCount r);
           results :=
             results r
             ++ [Result.make password count (PasswordEntry.originalLineNumber entry)
                   (if Js.isZero count then Safe else Pwned count)];
           pwnedCount := if Js.isPositive count then S (pwnedCount r) else pwnedCount r |}
  | (Some (Rejected message), w) =>
      Done
        {| world := w;
           checkedCount := checkedCount r;
           cachedCount := cachedCount r;
           results :=
             results r
             ++ [Result.make password (Js.Num (-1)) (PasswordEntry.originalLineNumber entry)
                   (Error message)];
           pwnedCount := pwnedCount r |}
  | (None, w) =>
      Waiting
        {| world := w;
           checkedCount := checkedCount r;
           cachedCount := cachedCount r;
           results := results r;
           pwnedCount := pwnedCount r |}
  end.

(** The loop of [main] over [passwordEntries]. *)
Fixpoint processEntries (r : Run) (passwordEntries : list PasswordEntry.t) : Loop Run :=
  match passwordEntries with
  | [] => Done r
  | entry :: rest =>
      match processEntry r entry with
      | Done r' => processEntries r' rest
      | Waiting r' => Waiting r'
      end
  end.

(** [main], as far as its loop gets. *)
Definition main (passwordEntries : list PasswordEntry.t) : Loop Run :=
  processEntries start passwordEntries.

(** One iteration of the loop of [src/check-pwned-passwords.js]. *)
Definition processPassword (r : CheckPwnedPasswords.Run) (password : string)
  : Loop CheckPwnedPasswords.Run :=
  let hash := sha1 password in
  let prefix := Js.substring_to HASH_PREFIX_LENGTH hash in
  let wasCached :=
    bool_decide (is_Some (hashCache (CheckPwnedPasswords.world r) !! prefix)) in
  match checkPassword password (CheckPwnedPasswords.world r) with
  | (Some (Resolved count), w) =>
      Done
        {| CheckPwnedPasswords.world :=
             if negb wasCached then delay API_RATE_LIMIT_DELAY_MS w else w;
           CheckPwnedPasswords.checkedCount :=
             if negb wasCached then S (CheckPwnedPasswords.checkedCount r)
             else CheckPwnedPasswords.checkedCount r;
           CheckPwnedPasswords.cachedCount :=
             if negb wasCached then CheckPwnedPasswords.cachedCount r
             else S (CheckPwnedPasswords.cachedCount r);
           CheckPwnedPasswords.results :=
             CheckPwnedPasswords.results r
             ++ [{| CheckPwnedPasswords.password := password;
                    CheckPwnedPasswords.count := count;
                    CheckPwnedPasswords.status :=
                      if Js.isZero count then Safe else Pwned count |}] |}
  | (Some (Rejected message), w) =>
      Done
        {| CheckPwnedPasswords.world := w;
           CheckPwnedPasswords.checkedCount := CheckPwnedPasswords.checkedCount r;
           CheckPwnedPasswords.cachedCount := CheckPwnedPasswords.cachedCount r;
           CheckPwnedPasswords.results :=
             CheckPwnedPasswords.results r
             ++ [{| CheckPwnedPasswords.password := password;
                    CheckPwnedPasswords.count := Js.Num (-1);
                    CheckPwnedPasswords.status := Error message |}] |}
  | (None, w) =>
      Waiting
        {| CheckPwnedPasswords.world := w;
           CheckPwnedPasswords.checkedCount := CheckPwnedPasswords.checkedCount r;
           CheckPwnedPasswords.cachedCount := CheckPwnedPasswords.cachedCount r;
           CheckPwnedPasswords.results := CheckPwnedPasswords.results r |}
  end.



End Program.

End Pending.

(** ** The rest of [src/pwncheck.js] *)

(** How the [while] loop of [parseInputFile] over a quoted line ends:
    [password] as it stands when the loop is left ([None] while it is
    still [undefined]). [OutOfFuel] is no outcome of the program; the loop
    below never returns it when started with the length of the line. *)
Inductive LoopEnd : Type :=
| OutOfFuel
| Left (password : option string).

(** The [while] loop, from [endQuoteIndex] on. *)
Fixpoint closingQuoteLoop (fuel : nat) (trimmedLine : string) (endQuoteIndex : nat)
  : LoopEnd :=
  match fuel with
  | O => OutOfFuel
  | S fuel' =>
      if (endQuoteIndex <? String.length trimmedLine)%nat
      then
        match Js.indexOf Js.DQUOTE trimmedLine endQuoteIndex with
        | None => Left (Some (Js.substring_from 1 trimmedLine))
        | Some found =>
            match Js.charAt (found + 1) trimmedLine with
            | Some c =>
                if Ascii.eqb c Js.DQUOTE
                then closingQuoteLoop fuel' trimmedLine (found + 2)
                else Left (Some (Js.undoubleQuotes (Js.substring 1 found trimmedLine)))
            | None => Left (Some (Js.undoubleQuotes (Js.substring 1 found trimmedLine)))
            end
        end
      else Left None
  end.

(** The branch of [parseInputFile] for a line that starts with a double
    quote: the loop, then the fallback for a [password] that is still
    [undefined] or empty. *)
Definition quotedPassword (trimmedLine : string) : string :=
  match closingQuoteLoop (String.length trimmedLine) trimmedLine 1 with
  | Left (Some password) =>
      if Js.truthy password then password else Js.substring_from 1 trimmedLine
  | Left None | OutOfFuel => Js.substring_from 1 trimmedLine
  end.

(** The [password] that the callback of [parseInputFile] takes from a line
    that is not blank. *)
Definition passwordOfLine (isCSV : bool) (trimmedLine : string) : string :=
  if isCSV
  then
    if Js.startsWith (String Js.DQUOTE EmptyString) trimmedLine
    then quotedPassword trimmedLine
    else nth 0 (Js.split_on Js.COMMA trimmedLine) EmptyString
  else trimmedLine.

(** [lines.forEach((line, index) => ...)] from [index] on, as the entries
    it pushes. *)
Fixpoint forEachLine (isCSV : bool) (index : nat) (lines : list string)
  : list PasswordEntry.t :=
  match lines with
  | [] => []
  | line :: rest =>
      let trimmedLine := Js.trim line in
      (if Js.truthy trimmedLine
       then
         let password := passwordOfLine isCSV trimmedLine in
         if Js.truthy password
         then [PasswordEntry.make password (Z.of_nat index + 1)]
         else []
       else [])
      ++ forEachLine isCSV (S index) rest
  end.

(** [filePath.toLowerCase().endsWith('.csv')] *)
Definition isCsvPath (filePath : string) : bool :=
  Js.endsWith ".csv" (Js.toLowerCase filePath).

(** [parseInputFile(filePath)], given the text [content] that
    [fs.readFileSync] returns for the file. *)
Definition parseInputFile (filePath content : string) : list PasswordEntry.t :=
  let lines := Js.split_on Js.LF content in
  forEachLine (isCsvPath filePath) 0 lines.

(** *** Arguments of [main] *)

(** [hasFlag(name)], over [args]. *)
Definition hasFlag (args : list string) (name : string) : bool :=
  existsb (fun a => String.eqb a name) args.

(** [getFlagValue(name)], over [args]; [None] stands for [null]. *)
Definition getFlagValue (args : list string) (name : string) : option string :=
  let prefix := name +:+ "=" in
  match List.find (fun a => String.eqb a name || Js.startsWith prefix a) args with
  | None => None
  | Some direct =>
      if negb (Js.truthy direct) then None
      else if Js.startsWith prefix direct
      then Some (Js.substring_from (String.length prefix) direct)
      else
        match Js.indexOfArray args direct with
        | Some index =>
            match args !! (index + 1)%nat with
            | Some next =>
                if Js.truthy next && negb (Js.startsWith "--" next)
                then Some next else None
            | None => None
            end
        | None => None
        end
  end.

(** [nonFlagArgs] *)
Definition nonFlagArgs (args : list string) : list string :=
  List.filter (fun arg => negb (Js.startsWith "--" arg)) args.

(** Where the export goes: nowhere without [--export-csv]; else to the
    value of [--export-file], or to the file named after the time of the
    run when that value is [null] or empty. *)
Inductive ExportTarget : Type :=
| NoExport
| TimestampedFile
| ExportFile (path : string).

(** What [main] has settled when it starts to read its input. *)
Record Options : Type :=
  { fileArg : string; exportCsv : bool; includePasswords : bool;
    exportTarget : ExportTarget }.

(** How [main] starts: the usage text and exit when there is no argument;
    the [TypeError] of [path.resolve(undefined)] when every argument is a
    flag; else the options. *)
Inductive Startup : Type :=
| Usage
| NoFileArgument
| Ready (options : Options).

Definition startup (args : list string) : Startup :=
  match args with
  | [] => Usage
  | _ =>
      match nonFlagArgs args with
      | [] => NoFileArgument
      | fileArg :: _ =>
          let exportCsv := hasFlag args "--export-csv" in
          let includePasswords := hasFlag args "--include-passwords" in
          let exportFile := getFlagValue args "--export-file" in
          Ready
            {| fileArg := fileArg;
               exportCsv := exportCsv;
               includePasswords := includePasswords;
               exportTarget :=
                 if exportCsv
                 then match exportFile with
                      | Some path => if Js.truthy path then ExportFile path
                                     else TimestampedFile
                      | None => TimestampedFile
                      end
                 else NoExport |}
      end
  end.

(** *** Summary of [main] *)

(** [results.filter((r) => r.count === 0).length] *)
Definition safePasswords (rs : list Result.t) : nat :=
  length (List.filter (fun r => Js.isZero (Result.count r)) rs).

(** [results.filter((r) => r.count > 0).length] *)
Definition pwnedPasswords (rs : list Result.t) : nat :=
  length (List.filter (fun r => Js.isPositive (Result.count r)) rs).

(** [results.filter((r) => r.count === -1).length] *)
Definition errors (rs : list Result.t) : nat :=
  length (List.filter (fun r => Js.isMinusOne (Result.count r)) rs).

(** The results whose lookup was rejected. *)
Definition isRejected (r : Result.t) : bool :=
  match Result.status r with Error _ => true | _ => false end.

(** ** The rest of [src/check-pwned-passwords.js] *)

Module CheckPwnedPasswordsInput.

(** The callback of [lines.map] for a CSV file: the same loop, left by
    [return]. *)
Definition fieldOfLine (line : string) : string :=
  if Js.startsWith (String Js.DQUOTE EmptyString) line
  then
    match closingQuoteLoop (String.length line) line 1 with
    | Left (Some field) => field
    | Left None | OutOfFuel => Js.substring_from 1 line
    end
  else nth 0 (Js.split_on Js.COMMA line) EmptyString.

(** [parseInputFile(filePath)], given the text [content] of the file. *)
Definition parseInputFile (filePath content : string) : list string :=
  let lines :=
    List.filter Js.truthy (map Js.trim (Js.split_on Js.LF content)) in
  if isCsvPath filePath
  then List.filter Js.truthy (map fieldOfLine lines)
  else lines.

End CheckPwnedPasswordsInput.

(** ** Vocabulary of the statements *)

Definition CRLF : string := String Js.CR (String Js.LF EmptyString).

(** [needle] occurs in [hay] as a contiguous run of code units. *)
Definition occursIn (needle hay : string) : Prop :=
  exists before after, hay = before +:+ needle +:+ after.

(** Every string a request carries: host, path, method, header names and
    header values (a GET request has no body). *)
Definition requestStrings (o : RequestOptions) : list string :=
  hostname o :: path o :: method o
  :: flat_map (fun h => [fst h; snd h]) (headers o).

(** The number of requests for the range of [prefix] among [es]. *)
Definition queriesFor (prefix : string) (es : list Event) : nat :=
  length (List.filter (fun o => String.eqb (path o) ("/range/" +:+ prefix)) (requests es)).

(** A line made of white space only (the empty line included). *)
Definition isBlank (line : string) : bool :=
  forallb Js.isWhiteSpace (list_ascii_of_string line).

(** Strings of decimal digits. *)
Definition allDigits (s : string) : Prop :=
  Forall (fun c => is_Some (Js.digitValue c)) (list_ascii_of_string s).

(** Every code unit of [part] is a code unit of [whole]. *)
Definition charsWithin (part whole : string) : Prop :=
  forall c, In c (list_ascii_of_string part) -> In c (list_ascii_of_string whole).

(** The first, the last code unit of [s] is white space. *)
Definition startsWithSpace (s : string) : bool :=
  match s with
  | String c _ => Js.isWhiteSpace c
  | EmptyString => false
  end.

Fixpoint endsWithSpace (s : string) : bool :=
  match s with
  | EmptyString => false
  | String c EmptyString => Js.isWhiteSpace c
  | String _ s' => endsWithSpace s'
  end.

(** A field that a CSV line carries in its first column as [escapeCsv]
    writes it: any field that gets quoted, and an unquoted one when it is
    not empty and has no white space at either end. *)
Definition readableField (field : string) : Prop :=
  field <> EmptyString
  /\ ~ In Js.LF (list_ascii_of_string field)
  /\ (Js.needsQuoting field = true
      \/ (startsWithSpace field = false /\ endsWithSpace field = false)).

(** What follows the first column on a line: nothing, or a comma and the
    other columns. *)
Definition columnsAfter (tail : string) : Prop :=
  ~ In Js.LF (list_ascii_of_string tail)
  /\ (tail = EmptyString \/ Js.startsWith "," tail = true).

(** The line starts with an empty quoted field: two double quotes that no
    third one follows. *)
Definition startsWithEmptyQuotes (line : string) : bool :=
  match line with
  | String a (String b rest) =>
      Ascii.eqb a Js.DQUOTE && Ascii.eqb b Js.DQUOTE
      && negb (Js.startsWith (String Js.DQUOTE EmptyString) rest)
  | _ => false
  end.

(** [arg] is not what [getFlagValue] looks for under [name]: neither the
    name itself nor the name followed by an equals sign. *)
Definition notFlag (name arg : string) : Prop :=
  arg <> name /\ Js.startsWith (name +:+ "=") arg = false.

(** The strings of a request that do not depend on the password: all
    but the path. *)
Definition requestConstants : list string :=
  ["api.pwnedpasswords.com"; "GET"; "User-Agent"; "Password-Checker-Script";
   "Add-Padding"; "true"].

(** A service whose every request ends seen as one that may not: the
    [n]-th request emits what [remote] says. *)
Definition alwaysEnding (remote : nat -> RequestOptions -> Response)
  : nat -> RequestOptions -> option Response :=
  fun n o => Some (remote n o).

(** The service as a loop meets it while its requests end; what it is on
    the other requests is never looked at by a loop that goes on. *)
Definition ending (service : nat -> RequestOptions -> option Response)
  : nat -> RequestOptions -> Response :=
  fun n o =>
    match service n o with
    | Some response => response
    | None => OnError EmptyString
    end.


(** The variables of [main] in the iteration of [entry] from [r], once
    the request is sent and while its lookup is pending. *)
Definition waitingFor (sha1 : string -> string) (r : Run) (entry : PasswordEntry.t) : Run :=
  {| world :=
       {| hashCache := hashCache (world r);
          events := events (world r)
                    ++ [HttpsGet (requestFor (prefixOf sha1 (PasswordEntry.password entry)))] |};
     checkedCount := checkedCount r;
     cachedCount := cachedCount r;
     results := results r;
     pwnedCount := pwnedCount r |}.

(** *** CSV escaping, from the words of the specification *)

Definition isCsvSpecial (c : ascii) : Prop :=
  c = Js.COMMA \/ c = Js.DQUOTE \/ c = Js.LF \/ c = Js.CR.

(** The field contains a comma, a quote or a line break. *)
Definition containsCsvSpecial (field : string) : Prop :=
  exists c, In c (list_ascii_of_string field) /\ isCsvSpecial c.

(** The field wrapped in double quotes, each internal double quote doubled. *)
Definition csvQuoted (field : string) : string :=
  string_of_list_ascii
    ([Js.DQUOTE]
     ++ flat_map (fun c => if Ascii.ascii_dec c Js.DQUOTE then [c; c] else [c])
          (list_ascii_of_string field)
     ++ [Js.DQUOTE]).

(** *** Data of the examples *)

Module Examples.

Definition entry := PasswordEntry.make.

(** The field of the scenario: a, comma, double quote, b, double quote. *)
Definition quotedField : string :=
  "a," +:+ String Js.DQUOTE ("b" +:+ String Js.DQUOTE EmptyString).

(** Its escaped form: double quote, a, comma, two double quotes, b,
    three double quotes. *)
Definition quotedFieldEscaped : string :=
  String Js.DQUOTE
    ("a," +:+ String Js.DQUOTE (String Js.DQUOTE
       ("b" +:+ String Js.DQUOTE (String Js.DQUOTE (String Js.DQUOTE EmptyString))))).

(** A service whose every request ends in an error. *)
Definition unreachable : nat -> RequestOptions -> Response :=
  fun _ _ => OnError "connect ETIMEDOUT".

(** A service that answers every request with [data]. *)
Definition answering (data : string) : nat -> RequestOptions -> Response :=
  fun _ _ => OnEnd data.

(** A range in which the digest of [password] is listed, and one other
    line. SHA-1 of [password] is 5BAA6 1E4C9B93F3F0682250B6CF8331B7EE68FD8. *)
Definition rangeOfPassword : string :=
  "0018A45C4D1DEF81644B54AB7F969B88D65:10" +:+ CRLF
  +:+ "1E4C9B93F3F0682250B6CF8331B7EE68FD8:3730471" +:+ CRLF.

(** The same range with its suffixes in lower case. *)
Definition rangeOfPasswordLower : string :=
  "0018a45c4d1def81644b54ab7f969b88d65:10" +:+ CRLF
  +:+ "1e4c9b93f3f0682250b6cf8331b7ee68fd8:3730471" +:+ CRLF.

(** A body that is no range at all. *)
Definition notARange : string := "<html>503 Service Unavailable</html>".

(** A service that fails on its first request and answers afterwards. *)
Definition failingOnce (data : string) : nat -> RequestOptions -> Response :=
  fun n _ => match n with O => OnError "socket hang up" | S _ => OnEnd data end.

(** A range whose counts are no counts of breaches: a negative number
    for the digest of [password], no number at all for the digest of
    [hunter2], which is F3BBB D66A63D4BF1747940578EC3D0103530E21D. *)
Definition rangeWithOddCounts : string :=
  "1E4C9B93F3F0682250B6CF8331B7EE68FD8:-5" +:+ CRLF
  +:+ "D66A63D4BF1747940578EC3D0103530E21D:n/a" +:+ CRLF.

(** A service whose requests end as [remote] says up to the [n]-th, and
    emit neither event from the [n]-th on. *)
Definition silentFrom (n : nat) (remote : nat -> RequestOptions -> Response)
  : nat -> RequestOptions -> option Response :=
  fun k o => if (k <? n)%nat then Some (remote k o) else None.

End Examples.

(** ** Strings *)

#[local] Arguments String.append !s1 s2 : simpl nomatch.

Lemma string_app_assoc (a b c : string) : (a +:+ b) +:+ c = a +:+ (b +:+ c).
Proof. induction a as [|x a IH]; simpl; [reflexivity | now rewrite IH]. Qed.

Lemma string_app_length (a b : string) :
  String.length (a +:+ b) = (String.length a + String.length b)%nat.
Proof. induction a as [|x a IH]; simpl; [reflexivity | now rewrite IH]. Qed.

Lemma string_of_list_app (l1 l2 : list ascii) :
  string_of_list_ascii (l1 ++ l2) = string_of_list_ascii l1 +:+ string_of_list_ascii l2.
Proof. induction l1 as [|x l1 IH]; simpl; [reflexivity | now rewrite IH]. Qed.

Lemma ascii_eqb_true (a b : ascii) : Ascii.eqb a b = true <-> a = b.
Proof. apply Ascii.eqb_eq. Qed.

Lemma ascii_eqb_false (a b : ascii) : Ascii.eqb a b = false <-> a <> b.
Proof. apply Ascii.eqb_neq. Qed.

(** ** [escapeCsv] *)

Lemma needsQuoting_iff (s : string) :
  Js.needsQuoting s = true <-> containsCsvSpecial s.
Proof.
  unfold containsCsvSpecial, isCsvSpecial.
  induction s as [|c s IH]; simpl.
  - split; [discriminate | intros (c & [] & _)].
  - rewrite !orb_true_iff, !ascii_eqb_true, IH. split.
    + intros [[[[H | H] | H] | H] | (c' & Hin & H)]; eauto 7.
    + intros (c' & [<- | Hin] & H); [tauto | eauto 7].
Qed.

Lemma doubleQuotes_flat_map (s : string) :
  Js.doubleQuotes s
  = string_of_list_ascii
      (flat_map (fun c => if Ascii.ascii_dec c Js.DQUOTE then [c; c] else [c])
         (list_ascii_of_string s)).
Proof.
  induction s as [|c s IH]; simpl; [reflexivity |].
  destruct (Ascii.ascii_dec c Js.DQUOTE) as [-> | Hne]; simpl.
  - now rewrite IH.
  - apply ascii_eqb_false in Hne. now rewrite Hne, IH.
Qed.

Lemma quoted_csvQuoted (s : string) :
  String Js.DQUOTE (Js.doubleQuotes s +:+ String Js.DQUOTE EmptyString) = csvQuoted s.
Proof.
  unfold csvQuoted. simpl. f_equal.
  now rewrite string_of_list_app, doubleQuotes_flat_map.
Qed.

(** C9. A value written to a CSV field (anything but [null] and
    [undefined], which the export never writes) whose string form contains
    a comma, a double quote, a line feed or a carriage return is emitted
    between double quotes with every internal double quote doubled; any
    other value is emitted as its string form, unchanged. The field of
    the scenario ([Examples.quotedField]) is emitted as
    [Examples.quotedFieldEscaped]. *)
Theorem escapeCsv_follows_csv_rules (v : Js.value) (str : string) :
  v <> Js.Null -> v <> Js.Undefined -> Js.toString v = str ->
  (containsCsvSpecial str -> escapeCsv v = csvQuoted str)
  /\ (~ containsCsvSpecial str -> escapeCsv v = str)
  /\ escapeCsv (Js.Str Examples.quotedField) = Examples.quotedFieldEscaped.
Proof.
  intros Hnull Hundef <-.
  assert (Hescape : escapeCsv v
                    = if Js.needsQuoting (Js.toString v)
                      then csvQuoted (Js.toString v) else Js.toString v).
  { destruct v; try congruence; unfold escapeCsv; now rewrite quoted_csvQuoted. }
  split; [| split].
  - intros H%needsQuoting_iff. now rewrite Hescape, H.
  - intros H. rewrite Hescape.
    destruct (Js.needsQuoting (Js.toString v)) eqn:E; [| reflexivity].
    now apply needsQuoting_iff in E.
  - reflexivity.
Qed.

Lemma escapeCsv_follows_csv_rules_witness :
  containsCsvSpecial Examples.quotedField
  /\ escapeCsv (Js.Str Examples.quotedField) = csvQuoted Examples.quotedField.
Proof.
  assert (H : containsCsvSpecial Examples.quotedField).
  { exists Js.COMMA. split; [simpl; tauto | left; reflexivity]. }
  split; [exact H |].
  destruct (escapeCsv_follows_csv_rules (Js.Str Examples.quotedField)
              Examples.quotedField) as (Hquoted & _ & _);
    [discriminate | discriminate | reflexivity |].
  exact (Hquoted H).
Defined.

(** ** Decimal numerals *)

Lemma digitValue_digitChar (d : N) :
  (d < 10)%N -> Js.digitValue (Js.digitChar d) = Some (Z.of_N d).
Proof.
  intros Hd.
  assert (Hcases : (d = 0 \/ d = 1 \/ d = 2 \/ d = 3 \/ d = 4 \/ d = 5 \/ d = 6
                    \/ d = 7 \/ d = 8 \/ d = 9)%N) by lia.
  repeat (destruct Hcases as [-> | Hcases]; [reflexivity |]).
  now subst.
Qed.

Lemma digit_not_special (c : ascii) :
  is_Some (Js.digitValue c) -> ~ isCsvSpecial c.
Proof.
  intros [d Hd] [-> | [-> | [-> | ->]]]; vm_compute in Hd; discriminate.
Qed.

Lemma allDigits_digitsOf (fuel : nat) (n : N) (acc : string) :
  allDigits acc -> allDigits (Js.digitsOf fuel n acc).
Proof.
  revert n acc. induction fuel as [|fuel IH]; intros n acc Hacc; simpl; [exact Hacc |].
  assert (Hacc' : allDigits (String (Js.digitChar (n mod 10)) acc)).
  { constructor; [| exact Hacc].
    rewrite digitValue_digitChar; [eauto |]. apply N.mod_lt. lia. }
  destruct (n / 10 =? 0)%N; [exact Hacc' | now apply IH].
Qed.

Lemma allDigits_decimal (n : N) : allDigits (Js.decimal n).
Proof. apply allDigits_digitsOf. constructor. Qed.

Lemma allDigits_no_special (s : string) :
  allDigits s -> Js.needsQuoting s = false.
Proof.
  intros Hs. destruct (Js.needsQuoting s) eqn:E; [| reflexivity].
  apply needsQuoting_iff in E as (c & Hin & Hc).
  unfold allDigits in Hs. rewrite Forall_forall in Hs.
  apply list_elem_of_In in Hin. now apply Hs, digit_not_special in Hin.
Qed.

Lemma numberToString_no_special (n : Js.number) :
  Js.needsQuoting (Js.numberToString n) = false.
Proof.
  destruct n as [[| p | p] |]; unfold Js.numberToString.
  - reflexivity.
  - now apply allDigits_no_special, allDigits_decimal.
  - change (Js.needsQuoting (Js.decimal (N.pos p)) = false).
    now apply allDigits_no_special, allDigits_decimal.
  - reflexivity.
Qed.

Lemma escapeCsv_number (n : Js.number) :
  escapeCsv (Js.Number n) = Js.numberToString n.
Proof. unfold escapeCsv. simpl. now rewrite numberToString_no_special. Qed.

Lemma escapeCsv_nonempty (s : string) :
  s <> EmptyString -> escapeCsv (Js.Str s) <> EmptyString.
Proof.
  intros Hs. unfold escapeCsv. simpl.
  destruct (Js.needsQuoting s); [discriminate | exact Hs].
Qed.

(** ** The export *)

(** Whatever the count of a result is, its row never holds [null] or
    [undefined]. *)
Lemma csvRow_defined (includePasswords : bool) (result : Result.t) (v : Js.value) :
  In v (csvRow includePasswords result) -> v <> Js.Null /\ v <> Js.Undefined.
Proof.
  unfold csvRow. intros Hin. apply in_app_or in Hin.
  destruct Hin as [[<- | [<- | []]] | Hin].
  - split; discriminate.
  - destruct (Js.isNonNegative _); split; discriminate.
  - destruct includePasswords; [| contradiction].
    destruct Hin as [<- | []]. split; discriminate.
Qed.

(** The row of any result: the second field is the count when the
    comparison [count >= 0] holds and empty otherwise, which covers [NaN]
    and every negative count. *)
Lemma csvRow_escaped (includePasswords : bool) (result : Result.t) :
  map escapeCsv (csvRow includePasswords result)
  = [Js.numberToString (Js.Num (Result.originalLineNumber result));
     if Js.isNonNegative (Result.count result)
     then Js.numberToString (Result.count result) else EmptyString]
    ++ (if includePasswords
        then [if Js.isPositive (Result.count result)
              then escapeCsv (Js.Str (Result.password result)) else EmptyString]
        else []).
Proof.
  unfold csvRow. rewrite map_app. cbn [map]. rewrite escapeCsv_number.
  f_equal; [f_equal; f_equal |].
  - destruct (Js.isNonNegative _); [apply escapeCsv_number | reflexivity].
  - destruct includePasswords; [| reflexivity]. cbn [map].
    destruct (Js.isPositive _); [| reflexivity].
    destruct (Result.password result); reflexivity.
Qed.

(** ** Parsing numerals *)

Lemma digit_not_space_nor_sign (c : ascii) :
  is_Some (Js.digitValue c) ->
  Js.isWhiteSpace c = false /\ Ascii.eqb c "-" = false /\ Ascii.eqb c "+" = false.
Proof.
  intros [d Hd]. split; [| split].
  - unfold Js.digitValue in Hd. unfold Js.isWhiteSpace.
    destruct (48 <=? N_of_ascii c)%N eqn:Hlo; [| discriminate].
    destruct (N_of_ascii c <=? 57)%N eqn:Hhi; [| discriminate].
    apply N.leb_le in Hlo, Hhi.
    destruct (N.leb_spec 9 (N_of_ascii c)); [| lia].
    destruct (N.leb_spec (N_of_ascii c) 13); [lia |].
    destruct (N.eqb_spec (N_of_ascii c) 32); [lia |].
    destruct (N.eqb_spec (N_of_ascii c) 160); [lia | reflexivity].
  - apply ascii_eqb_false. intros ->. vm_compute in Hd. discriminate.
  - apply ascii_eqb_false. intros ->. vm_compute in Hd. discriminate.
Qed.

Lemma allDigits_empty : allDigits EmptyString.
Proof. constructor. Qed.

Lemma digitsValue_snoc (acc : Z) (s : string) (c : ascii) (d : Z) :
  allDigits s -> Js.digitValue c = Some d ->
  Js.digitsValue acc (s +:+ String c EmptyString) = (10 * Js.digitsValue acc s + d)%Z.
Proof.
  intros Hs Hc. revert acc. unfold allDigits in Hs.
  induction s as [| x s IH]; intros acc; simpl.
  - now rewrite Hc.
  - simpl in Hs. apply Forall_cons in Hs as [[dx Hx] Hs].
    rewrite Hx. now apply IH.
Qed.

Lemma digitsOf_acc (fuel : nat) (n : N) (acc : string) :
  Js.digitsOf fuel n acc = Js.digitsOf fuel n EmptyString +:+ acc.
Proof.
  revert n acc. induction fuel as [| fuel IH]; intros n acc; simpl; [reflexivity |].
  destruct (n / 10 =? 0)%N; [reflexivity |].
  rewrite IH, (IH _ (String _ EmptyString)), string_app_assoc. reflexivity.
Qed.

Lemma digitsOf_value (fuel : nat) (n : N) :
  (0 < n < 2 ^ N.of_nat fuel)%N ->
  Js.digitsValue 0 (Js.digitsOf fuel n EmptyString) = Z.of_N n.
Proof.
  revert n. induction fuel as [| fuel IH]; intros n Hn.
  - simpl in Hn. lia.
  - simpl Js.digitsOf.
    assert (Hdigit : Js.digitValue (Js.digitChar (n mod 10)) = Some (Z.of_N (n mod 10))).
    { apply digitValue_digitChar, N.mod_lt. lia. }
    assert (Hdivmod : (n = 10 * (n / 10) + n mod 10)%N) by (apply N.div_mod; lia).
    destruct (N.eqb_spec (n / 10) 0) as [Hsmall | Hbig].
    + simpl. rewrite Hdigit. rewrite Hsmall in Hdivmod. lia.
    + rewrite digitsOf_acc.
      rewrite (digitsValue_snoc _ _ _ _ (allDigits_digitsOf _ _ _ allDigits_empty) Hdigit).
      rewrite IH; [lia |].
      split; [now apply N.neq_0_lt_0 |].
      rewrite Nat2N.inj_succ, N.pow_succ_r' in Hn.
      apply N.Div0.div_lt_upper_bound.
      destruct Hn as [_ Hn]. revert Hn. generalize (2 ^ N.of_nat fuel)%N. lia.
Qed.

Lemma decimal_value (n : N) : Js.digitsValue 0 (Js.decimal n) = Z.of_N n.
Proof.
  destruct (N.eq_dec n 0%N) as [-> | Hpos]; [reflexivity |].
  unfold Js.decimal. apply digitsOf_value. split; [lia |].
  rewrite Nat2N.inj_succ, N2Nat.id. apply N.log2_spec. lia.
Qed.

Lemma decimal_nonempty (n : N) :
  exists c rest, Js.decimal n = String c rest /\ is_Some (Js.digitValue c).
Proof.
  pose proof (allDigits_decimal n) as Hdigits.
  unfold Js.decimal in *. simpl Js.digitsOf in *.
  destruct (n / 10 =? 0)%N.
  - eexists _, _. split; [reflexivity |]. now apply Forall_cons in Hdigits as [? _].
  - rewrite digitsOf_acc in *.
    destruct (Js.digitsOf _ _ EmptyString) as [| c rest]; simpl in *.
    + eexists _, _. split; [reflexivity |]. now apply Forall_cons in Hdigits as [? _].
    + eexists _, _. split; [reflexivity |]. now apply Forall_cons in Hdigits as [? _].
Qed.

(** [parseInt] reads back the decimal numeral of any natural number. *)
Lemma parseInt10_decimal (n : N) :
  Js.parseInt10 (Some (Js.decimal n)) = Js.Num (Z.of_N n).
Proof.
  pose proof (decimal_value n) as Hvalue.
  destruct (decimal_nonempty n) as (c & rest & Heq & Hc).
  rewrite Heq in *. unfold Js.parseInt10.
  destruct (digit_not_space_nor_sign c Hc) as (Hspace & Hminus & Hplus).
  simpl Js.trimStart. rewrite Hspace, Hminus, Hplus.
  unfold Js.parseDigits, Js.startsWithDigit.
  destruct Hc as [d Hd]. rewrite Hd. f_equal. lia.
Qed.

(** ** The rows of the export *)

(** C4, as the code has it. The export is the header and one row per
    result, in the order of the results, joined by line feeds. A row is
    the line number, then the count field, then, only when
    [includePasswords] is set, the password field. The count field is
    empty exactly when the comparison [count >= 0] fails, which is so for
    the failure sentinel -1 and also for [NaN] and for any other negative
    count; otherwise it is the count as [String] writes it, for a count
    up to 2^53 its decimal digits (0 for a safe result). The password
    field is
    filled exactly when the count is positive and the password is not
    empty. *)
Theorem export_rows_of_results (includePasswords : bool) (rs : list Result.t) :
  let countField := fun result =>
    if Js.isNonNegative (Result.count result)
    then Js.numberToString (Result.count result) else EmptyString in
  let passwordField := fun result =>
    if Js.isPositive (Result.count result)
    then escapeCsv (Js.Str (Result.password result)) else EmptyString in
  let row := fun result =>
    [Js.numberToString (Js.Num (Result.originalLineNumber result)); countField result]
    ++ (if includePasswords then [passwordField result] else []) in
  csvExport includePasswords rs
  = Js.join (String Js.LF EmptyString)
      (Js.join "," (["line_number"; "pwned_count"]
                    ++ (if includePasswords then ["password"] else []))
       :: map (fun result => Js.join "," (row result)) rs)
  /\ (forall result,
        (countField result = EmptyString
         <-> Result.count result = Js.NaN
             \/ exists z, Result.count result = Js.Num z /\ (z < 0)%Z)
        /\ (forall z, Result.count result = Js.Num z -> (0 <= z <= 2 ^ 53)%Z ->
                      countField result = Js.decimal (Z.to_N z))
        /\ (passwordField result <> EmptyString
            <-> Js.isPositive (Result.count result) = true
                /\ Result.password result <> EmptyString)).
Proof.
  intros countField passwordField row. split.
  - unfold csvExport, csvLines, csvHeaders. do 2 f_equal.
    apply map_ext. intros result. now rewrite csvRow_escaped.
  - intros result. subst countField passwordField. cbv beta.
    destruct (Result.count result) as [z |]; cbn [Js.isNonNegative Js.isPositive].
    + split; [| split].
      * destruct (Z.leb_spec 0 z) as [Hz | Hz].
        -- split.
           ++ intros Hempty. exfalso.
              assert (Hdec : Js.numberToString (Js.Num z) = Js.decimal (Z.to_N z))
                by (destruct z; [reflexivity | reflexivity | lia]).
              rewrite Hdec in Hempty.
              destruct (decimal_nonempty (Z.to_N z)) as (c & rest & Hc & _).
              congruence.
           ++ intros [Hnan | (z' & Heq & Hneg)]; [discriminate |].
              injection Heq as ->. lia.
        -- split; [intros _; right; exists z; split; [reflexivity | lia] | reflexivity].
      * intros z' Heq Hz'. injection Heq as ->.
        destruct (Z.leb_spec 0 z') as [_ | Hneg]; [| lia].
        destruct z'; [reflexivity | reflexivity | lia].
      * destruct (Z.ltb_spec 0 z) as [Hpos | Hneg].
        -- split.
           ++ intros Hfield. split; [reflexivity |]. intros Hpw.
              apply Hfield. now rewrite Hpw.
           ++ intros [_ Hpw]. now apply escapeCsv_nonempty.
        -- split; [congruence | intros [Hfalse _]; discriminate].
    + split; [| split].
      * split; [intros _; now left | reflexivity].
      * intros z Heq. discriminate.
      * split; [congruence | intros [Hfalse _]; discriminate].
Qed.

(** ** Trimming, blank lines *)

Lemma trimEnd_nonempty (c : ascii) (s : string) :
  Js.isWhiteSpace c = false -> Js.trimEnd (String c s) <> EmptyString.
Proof.
  intros Hc. simpl. destruct (Js.trimEnd s); [rewrite Hc |]; discriminate.
Qed.

Lemma truthy_trim (line : string) :
  Js.truthy (Js.trim line) = negb (isBlank line).
Proof.
  unfold Js.trim, isBlank. induction line as [| c line IH]; [reflexivity |].
  simpl Js.trimStart. simpl forallb.
  destruct (Js.isWhiteSpace c) eqn:Hc; [exact IH |].
  pose proof (trimEnd_nonempty c line Hc) as Hne.
  destruct (Js.trimEnd (String c line)); [contradiction | reflexivity].
Qed.

Lemma trim_no_whitespace (s : string) :
  Forall (fun c => Js.isWhiteSpace c = false) (list_ascii_of_string s) ->
  Js.trim s = s.
Proof.
  intros Hs. unfold Js.trim.
  assert (Hstart : Js.trimStart s = s).
  { destruct s as [| c s]; [reflexivity |]. simpl in *.
    apply Forall_cons in Hs as [-> _]. reflexivity. }
  rewrite Hstart. clear Hstart.
  induction s as [| c s IH]; [reflexivity |].
  simpl in Hs. apply Forall_cons in Hs as [Hc Hs].
  simpl. rewrite (IH Hs), Hc. now destruct s.
Qed.

(** ** Splitting *)

Lemma occursIn_tail (needle : string) (c : ascii) (s : string) :
  occursIn needle s -> occursIn needle (String c s).
Proof. intros (before & after & ->). now exists (String c before), after. Qed.

Lemma crlf_head (c c' : ascii) (s : string) :
  ~ occursIn CRLF (String c (String c' s)) ->
  Ascii.eqb c Js.CR && Ascii.eqb c' Js.LF = false.
Proof.
  intros Hfree. apply andb_false_iff.
  destruct (Ascii.eqb_spec c Js.CR) as [-> |]; [| now left].
  destruct (Ascii.eqb_spec c' Js.LF) as [-> |]; [| now right].
  exfalso. apply Hfree. now exists EmptyString, s.
Qed.

Lemma split_crlf_line (line : string) :
  ~ occursIn CRLF line -> Js.split_crlf line = [line].
Proof.
  induction line as [| c line IH]; intros Hfree; [reflexivity |].
  cbn [Js.split_crlf]. rewrite IH by (intros H; apply Hfree; now apply occursIn_tail).
  destruct line as [| c' line]; [reflexivity |]. now rewrite (crlf_head c c' line Hfree).
Qed.

Lemma split_crlf_cons (line rest : string) :
  ~ occursIn CRLF line ->
  Js.split_crlf (line +:+ CRLF +:+ rest) = line :: Js.split_crlf rest.
Proof.
  induction line as [| c line IH]; intros Hfree.
  - simpl. destruct (Js.split_crlf rest); reflexivity.
  - change (String c line +:+ CRLF +:+ rest) with (String c (line +:+ CRLF +:+ rest)).
    cbn [Js.split_crlf].
    rewrite IH by (intros H; apply Hfree; now apply occursIn_tail).
    destruct line as [| c' line].
    { change (EmptyString +:+ CRLF +:+ rest) with (String Js.CR (String Js.LF rest)).
      cbv iota. change (Ascii.eqb Js.CR Js.LF) with false. now rewrite andb_false_r. }
    change (String c' line +:+ CRLF +:+ rest) with (String c' (line +:+ CRLF +:+ rest)).
    cbv iota. now rewrite (crlf_head c c' line Hfree).
Qed.

Lemma split_crlf_join (lines : list string) :
  lines <> [] -> Forall (fun line => ~ occursIn CRLF line) lines ->
  Js.split_crlf (Js.join CRLF lines) = lines.
Proof.
  intros Hne Hfree. induction Hfree as [| line lines Hline Hlines IH]; [contradiction |].
  destruct lines as [| line' lines].
  - now apply split_crlf_line.
  - change (Js.join CRLF (line :: line' :: lines))
      with (line +:+ CRLF +:+ Js.join CRLF (line' :: lines)).
    rewrite split_crlf_cons by exact Hline. f_equal. now apply IH.
Qed.

Lemma split_on_free (sep : ascii) (s : string) :
  ~ In sep (list_ascii_of_string s) -> Js.split_on sep s = [s].
Proof.
  induction s as [| c s IH]; intros Hfree; [reflexivity |]. simpl in *.
  destruct (Ascii.eqb_spec c sep) as [-> |]; [tauto |].
  rewrite IH by tauto. reflexivity.
Qed.

Lemma split_on_cons (sep : ascii) (s t : string) :
  ~ In sep (list_ascii_of_string s) ->
  Js.split_on sep (s +:+ String sep t) = s :: Js.split_on sep t.
Proof.
  induction s as [| c s IH]; intros Hfree; simpl in *.
  - now rewrite Ascii.eqb_refl.
  - destruct (Ascii.eqb_spec c sep) as [-> |]; [tauto |].
    rewrite IH by tauto. reflexivity.
Qed.

(** ** Parsing a response *)

Lemma parseLine_suffix_count (suffix count : string) :
  ~ In Js.COLON (list_ascii_of_string suffix) ->
  ~ In Js.COLON (list_ascii_of_string count) ->
  parseLine (suffix +:+ String Js.COLON count)
  = CacheEntry.make (Js.trim suffix) (Js.parseInt10 (Some count)).
Proof.
  intros Hsuffix Hcount. unfold parseLine.
  now rewrite split_on_cons, (split_on_free _ count) by assumption.
Qed.

Lemma parseResponse_lines (lines : list string) :
  Forall (fun line => ~ occursIn CRLF line) lines ->
  parseResponse (Js.join CRLF lines)
  = map parseLine (List.filter (fun line => negb (isBlank line)) lines).
Proof.
  intros Hfree. unfold parseResponse. f_equal.
  destruct lines as [| line lines]; [reflexivity |].
  rewrite split_crlf_join by (assumption || discriminate).
  apply List.filter_ext. intros l. apply truthy_trim.
Qed.

(** C7, as the code has it. A body made of lines joined by CR LF is
    split back into these lines; the blank ones are discarded; a line
    SUFFIX:COUNT gives the entry of the trimmed suffix and of the count
    read by [parseInt] in base 10, which reads back any decimal numeral
    up to 2^53, the range in which a JavaScript number holds every integer
    exactly; and a suffix free of white space is kept exactly as received,
    so that its letters keep their case and [matchCount] compares them as
    they are. *)
Theorem response_parsed_line_by_line (lines : list string) :
  Forall (fun line => ~ occursIn CRLF line) lines ->
  parseResponse (Js.join CRLF lines)
  = map parseLine (List.filter (fun line => negb (isBlank line)) lines)
  /\ (forall suffix count,
        ~ In Js.COLON (list_ascii_of_string suffix) ->
        ~ In Js.COLON (list_ascii_of_string count) ->
        parseLine (suffix +:+ String Js.COLON count)
        = CacheEntry.make (Js.trim suffix) (Js.parseInt10 (Some count)))
  /\ (forall n, (Z.of_N n <= 2 ^ 53)%Z ->
                Js.parseInt10 (Some (Js.decimal n)) = Js.Num (Z.of_N n))
  /\ (forall suffix,
        Forall (fun c => Js.isWhiteSpace c = false) (list_ascii_of_string suffix) ->
        Js.trim suffix = suffix)
  /\ (forall entry entries suffix,
        matchCount (entry :: entries) suffix
        = if String.eqb (CacheEntry.suffix entry) suffix
          then CacheEntry.count entry else matchCount entries suffix).
Proof.
  intros Hfree. split; [now apply parseResponse_lines |].
  split; [apply parseLine_suffix_count |].
  split; [intros n _; apply parseInt10_decimal |].
  split; [apply trim_no_whitespace |].
  intros entry entries suffix. unfold matchCount. simpl.
  now destruct (String.eqb _ _).
Qed.

(** ** Prefix and suffix of a digest *)

Lemma substring_to_length (n : nat) (s : string) :
  String.length (Js.substring_to n s) = Nat.min n (String.length s).
Proof.
  revert s. induction n as [|n IH]; intros [|c s]; try reflexivity.
  simpl. now rewrite IH.
Qed.

Lemma substring_from_length (n : nat) (s : string) :
  String.length (Js.substring_from n s) = (String.length s - n)%nat.
Proof.
  revert s. induction n as [|n IH]; intros [|c s]; try reflexivity.
  simpl. now rewrite IH.
Qed.

Lemma substring_to_from (n : nat) (s : string) :
  Js.substring_to n s +:+ Js.substring_from n s = s.
Proof.
  revert s. induction n as [|n IH]; intros [|c s]; try reflexivity.
  simpl. now rewrite IH.
Qed.

(** The invariant of the data model: prefix and suffix make the digest. *)
Lemma prefix_suffix_digest (sha1 : string -> string) (password : string) :
  prefixOf sha1 password +:+ suffixOf sha1 password = sha1 password.
Proof. apply substring_to_from. Qed.

Lemma prefixOf_length (sha1 : string -> string) (password : string) :
  (String.length (prefixOf sha1 password) <= 5)%nat.
Proof.
  unfold prefixOf. rewrite substring_to_length. unfold HASH_PREFIX_LENGTH. lia.
Qed.

Lemma suffixOf_length (sha1 : string -> string) (password : string) :
  String.length (suffixOf sha1 password) = (String.length (sha1 password) - 5)%nat.
Proof. unfold suffixOf. now rewrite substring_from_length. Qed.

(** ** The lookup *)

#[local] Arguments Js.substring_to : simpl never.
#[local] Arguments Js.substring_from : simpl never.
#[local] Arguments prefixOf : simpl never.
#[local] Arguments suffixOf : simpl never.
#[local] Arguments requestFor : simpl never.

Section Correctness.

Context (sha1 : string -> string) (remote : nat -> RequestOptions -> Response).

(** *** The three ways a lookup goes *)

Lemma checkPassword_hit (password : string) (w : World) (cachedData : list CacheEntry.t) :
  hashCache w !! prefixOf sha1 password = Some cachedData ->
  checkPassword sha1 remote password w
  = (Resolved (matchCount cachedData (suffixOf sha1 password)), w).
Proof. intros H. unfold checkPassword, prefixOf in *. now rewrite H. Qed.

Lemma checkPassword_fetched (password : string) (w : World) (data : string) :
  hashCache w !! prefixOf sha1 password = None ->
  remote (length (requests (events w))) (requestFor (prefixOf sha1 password)) = OnEnd data ->
  checkPassword sha1 remote password w
  = (Resolved (matchCount (parseResponse data) (suffixOf sha1 password)),
     {| hashCache := <[prefixOf sha1 password := parseResponse data]> (hashCache w);
        events := events w ++ [HttpsGet (requestFor (prefixOf sha1 password))] |}).
Proof. intros H Hremote. unfold checkPassword, prefixOf in *. now rewrite H, Hremote. Qed.

Lemma checkPassword_failed (password : string) (w : World) (message : string) :
  hashCache w !! prefixOf sha1 password = None ->
  remote (length (requests (events w))) (requestFor (prefixOf sha1 password))
  = OnError message ->
  checkPassword sha1 remote password w
  = (Rejected message,
     {| hashCache := hashCache w;
        events := events w ++ [HttpsGet (requestFor (prefixOf sha1 password))] |}).
Proof. intros H Hremote. unfold checkPassword, prefixOf in *. now rewrite H, Hremote. Qed.

(** *** The three ways an iteration of the loop goes *)

Lemma processEntry_hit (r : Run) (entry : PasswordEntry.t)
      (cachedData : list CacheEntry.t) :
  hashCache (world r) !! prefixOf sha1 (PasswordEntry.password entry) = Some cachedData ->
  let count := matchCount cachedData (suffixOf sha1 (PasswordEntry.password entry)) in
  processEntry sha1 remote r entry
  = {| world := world r;
       results :=
         results r
         ++ [Result.make (PasswordEntry.password entry) count
               (PasswordEntry.originalLineNumber entry)
               (if Js.isZero count then Safe else Pwned count)];
       checkedCount := checkedCount r;
       cachedCount := S (cachedCount r);
       pwnedCount := if Js.isPositive count then S (pwnedCount r) else pwnedCount r |}.
Proof.
  intros H count. unfold processEntry. rewrite (checkPassword_hit _ _ _ H).
  unfold prefixOf in H. rewrite H. reflexivity.
Qed.

Lemma processEntry_fetched (r : Run) (entry : PasswordEntry.t) (data : string) :
  let prefix := prefixOf sha1 (PasswordEntry.password entry) in
  hashCache (world r) !! prefix = None ->
  remote (length (requests (events (world r)))) (requestFor prefix) = OnEnd data ->
  let count := matchCount (parseResponse data) (suffixOf sha1 (PasswordEntry.password entry)) in
  processEntry sha1 remote r entry
  = {| world :=
         {| hashCache := <[prefix := parseResponse data]> (hashCache (world r));
            events := events (world r)
                      ++ [HttpsGet (requestFor prefix); Delay API_RATE_LIMIT_DELAY_MS] |};
       results :=
         results r
         ++ [Result.make (PasswordEntry.password entry) count
               (PasswordEntry.originalLineNumber entry)
               (if Js.isZero count then Safe else Pwned count)];
       checkedCount := S (checkedCount r);
       cachedCount := cachedCount r;
       pwnedCount := if Js.isPositive count then S (pwnedCount r) else pwnedCount r |}.
Proof.
  intros prefix H Hremote count. unfold processEntry.
  rewrite (checkPassword_fetched _ _ _ H Hremote).
  subst prefix. unfold prefixOf in H. rewrite H. unfold delay. simpl.
  now rewrite <- app_assoc.
Qed.

Lemma processEntry_failed (r : Run) (entry : PasswordEntry.t) (message : string) :
  let prefix := prefixOf sha1 (PasswordEntry.password entry) in
  hashCache (world r) !! prefix = None ->
  remote (length (requests (events (world r)))) (requestFor prefix) = OnError message ->
  processEntry sha1 remote r entry
  = {| world :=
         {| hashCache := hashCache (world r);
            events := events (world r) ++ [HttpsGet (requestFor prefix)] |};
       results :=
         results r
         ++ [Result.make (PasswordEntry.password entry) (Js.Num (-1))
               (PasswordEntry.originalLineNumber entry) (Error message)];
       checkedCount := checkedCount r;
       cachedCount := cachedCount r;
       pwnedCount := pwnedCount r |}.
Proof.
  intros prefix H Hremote. unfold processEntry.
  now rewrite (checkPassword_failed _ _ _ H Hremote).
Qed.


Lemma processEntries_cons (r : Run) (entry : PasswordEntry.t)
      (after : list PasswordEntry.t) :
  processEntries sha1 remote r (entry :: after)
  = processEntries sha1 remote (processEntry sha1 remote r entry) after.
Proof. reflexivity. Qed.

Lemma main_eq (entries : list PasswordEntry.t) :
  main sha1 remote entries = processEntries sha1 remote start entries.
Proof. reflexivity. Qed.

Abbreviation prefixOf := (prefixOf sha1).
Abbreviation suffixOf := (suffixOf sha1).
Abbreviation checkPassword := (checkPassword sha1 remote).
Abbreviation processEntry := (processEntry sha1 remote).
Abbreviation processEntries := (processEntries sha1 remote).
Abbreviation main := (main sha1 remote).

(** Case analysis on the lookup of [password] in [w]: served from the
    cache, failed request, fetched range. *)
Ltac lookup_cases password w :=
  let Hcache := fresh "Hcache" in
  let Hremote := fresh "Hremote" in
  destruct (hashCache w !! prefixOf password) as [?cachedData |] eqn:Hcache;
  [ rewrite (checkPassword_hit _ _ _ Hcache) in *
  | destruct (remote (length (requests (events w))) (requestFor (prefixOf password)))
      as [?message | ?data] eqn:Hremote;
    [ rewrite (checkPassword_failed _ _ _ Hcache Hremote) in *
    | rewrite (checkPassword_fetched _ _ _ Hcache Hremote) in * ] ].

Lemma matchCount_absent (entries : list CacheEntry.t) (suffix : string) :
  Forall (fun entry => CacheEntry.suffix entry <> suffix) entries ->
  matchCount entries suffix = Js.Num 0.
Proof.
  intros Habsent. unfold matchCount.
  destruct (find _ entries) as [m |] eqn:Hfind; [| reflexivity].
  apply find_some in Hfind as [Hin Heq]. apply String.eqb_eq in Heq.
  rewrite Forall_forall in Habsent. apply list_elem_of_In in Hin.
  now apply Habsent in Hin.
Qed.

Lemma matchCount_first (before after : list CacheEntry.t) (m : CacheEntry.t) :
  Forall (fun entry => CacheEntry.suffix entry <> CacheEntry.suffix m) before ->
  matchCount (before ++ m :: after) (CacheEntry.suffix m) = CacheEntry.count m.
Proof.
  intros Hbefore. unfold matchCount.
  induction Hbefore as [| x before Hx _ IH]; simpl.
  - now rewrite String.eqb_refl.
  - apply String.eqb_neq in Hx. now rewrite Hx.
Qed.

(** C6. When the range held for the prefix of a password after its
    lookup, whether it was cached before or has just been fetched, has no
    entry equal to the suffix of the digest, the lookup resolves with
    count 0, and looking the password up again resolves with 0 from the
    cache: the world, and with it the list of requests, stays as it is. *)
Theorem absent_suffix_is_safe (password : string) (w : World) (set : list CacheEntry.t) :
  hashCache (checkPassword password w).2 !! prefixOf password = Some set ->
  Forall (fun entry => CacheEntry.suffix entry <> suffixOf password) set ->
  (checkPassword password w).1 = Resolved (Js.Num 0)
  /\ checkPassword password (checkPassword password w).2
     = (Resolved (Js.Num 0), (checkPassword password w).2).
Proof.
  intros Hset Habsent.
  assert (Hagain : checkPassword password (checkPassword password w).2
                   = (Resolved (Js.Num 0), (checkPassword password w).2)).
  { rewrite (checkPassword_hit _ _ set Hset). now rewrite matchCount_absent. }
  split; [| exact Hagain].
  clear Hagain. lookup_cases password w; simpl in *.
  - assert (cachedData = set) as -> by congruence.
    now rewrite matchCount_absent.
  - congruence.
  - rewrite lookup_insert_eq in Hset.
    assert (parseResponse data = set) as -> by congruence.
    now rewrite matchCount_absent.
Qed.

(** *** What a request carries *)

Lemma occursIn_length (needle hay : string) :
  occursIn needle hay -> (String.length needle <= String.length hay)%nat.
Proof.
  intros (before & after & ->). rewrite !string_app_length. lia.
Qed.

Lemma requestStrings_short (prefix field : string) :
  (String.length prefix <= 5)%nat ->
  In field (requestStrings (requestFor prefix)) ->
  (String.length field <= 23)%nat.
Proof.
  intros Hprefix Hin. unfold requestStrings, requestFor in Hin. simpl in Hin.
  destruct Hin as [<- | [<- | [<- | [<- | [<- | [<- | [<- | []]]]]]]];
    try (vm_compute; lia).
  simpl. lia.
Qed.

(** The only event of a lookup is the request for the prefix. *)
Lemma checkPassword_events (password : string) (w : World) :
  events (checkPassword password w).2
  = events w
    ++ match hashCache w !! prefixOf password with
       | Some _ => []
       | None => [HttpsGet (requestFor (prefixOf password))]
       end.
Proof.
  lookup_cases password w; simpl; [now rewrite app_nil_r | reflexivity | reflexivity].
Qed.

(** C2, as the code has it. Two passwords whose digests share the
    5-character prefix make the lookup send the same thing from the same
    state: nothing when the prefix is cached, else the one request built
    from the prefix alone. With a digest of 40 characters, the
    35-character suffix occurs in no string of that request: host, path,
    method, header names and values (a GET request has no body). The
    password is not put into the request either: each of its strings is
    the path, /range/ followed by the prefix, or one of the constants of
    the program. So a password occurs in a string of the request only
    where one of these happens to contain it, and a password of more than
    23 characters occurs in none. *)
Theorem request_depends_on_prefix_only (p1 p2 : string) (w : World) :
  prefixOf p1 = prefixOf p2 ->
  String.length (sha1 p1) = 40%nat ->
  events (checkPassword p1 w).2 = events (checkPassword p2 w).2
  /\ (events (checkPassword p1 w).2 = events w
      \/ events (checkPassword p1 w).2
         = events w ++ [HttpsGet (requestFor (prefixOf p1))])
  /\ (forall field, In field (requestStrings (requestFor (prefixOf p1))) ->
                    ~ occursIn (suffixOf p1) field)
  /\ (forall field, In field (requestStrings (requestFor (prefixOf p1))) ->
                    field = "/range/" +:+ prefixOf p1 \/ In field requestConstants)
  /\ ((23 < String.length p1)%nat ->
      forall field, In field (requestStrings (requestFor (prefixOf p1))) ->
                    ~ occursIn p1 field).
Proof.
  intros Hprefix Hlen. split; [| split; [| split; [| split]]].
  - now rewrite !checkPassword_events, Hprefix.
  - rewrite checkPassword_events.
    destruct (hashCache w !! prefixOf p1); [left; apply app_nil_r | right; reflexivity].
  - intros field Hin Hocc%occursIn_length.
    apply requestStrings_short in Hin.
    + rewrite suffixOf_length, Hlen in Hocc. lia.
    + apply prefixOf_length.
  - intros field Hin. unfold requestStrings, requestFor, requestConstants in *.
    cbn [hostname path method headers flat_map app fst snd In] in *.
    destruct Hin as [<- | [<- | [<- | [<- | [<- | [<- | [<- | []]]]]]]]; tauto.
  - intros Hlong field Hin Hocc%occursIn_length.
    apply requestStrings_short in Hin; [lia | apply prefixOf_length].
Qed.

(** Case analysis on the iteration for [entry] from [r]. *)
Ltac entry_cases r entry :=
  let Hcache := fresh "Hcache" in
  let Hremote := fresh "Hremote" in
  destruct (hashCache (world r) !! prefixOf (PasswordEntry.password entry))
    as [?cachedData |] eqn:Hcache;
  [ rewrite (processEntry_hit _ _ _ Hcache) in *
  | destruct (remote (length (requests (events (world r))))
                (requestFor (prefixOf (PasswordEntry.password entry))))
      as [?message | ?data] eqn:Hremote;
    [ rewrite (processEntry_failed _ _ _ Hcache Hremote) in *
    | rewrite (processEntry_fetched _ _ _ Hcache Hremote) in * ] ].

(** *** Events of an iteration *)

Lemma processEntry_events (r : Run) (entry : PasswordEntry.t) :
  events (world (processEntry r entry))
  = events (world r)
    ++ match hashCache (world r) !! prefixOf (PasswordEntry.password entry) with
       | Some _ => []
       | None =>
           match remote (length (requests (events (world r))))
                   (requestFor (prefixOf (PasswordEntry.password entry))) with
           | OnEnd _ =>
               [HttpsGet (requestFor (prefixOf (PasswordEntry.password entry)));
                Delay API_RATE_LIMIT_DELAY_MS]
           | OnError _ =>
               [HttpsGet (requestFor (prefixOf (PasswordEntry.password entry)))]
           end
       end.
Proof.
  entry_cases r entry; simpl; [symmetry; apply app_nil_r | reflexivity | reflexivity].
Qed.

Lemma processEntry_events_extend (r : Run) (entry : PasswordEntry.t) :
  exists new, events (world (processEntry r entry)) = events (world r) ++ new.
Proof. eexists. apply processEntry_events. Qed.

Lemma processEntries_events_extend (r : Run) (entries : list PasswordEntry.t) :
  exists new, events (world (processEntries r entries)) = events (world r) ++ new.
Proof.
  revert r. induction entries as [| entry entries IH]; intros r.
  - exists []. simpl. now rewrite app_nil_r.
  - rewrite processEntries_cons.
    destruct (IH (processEntry r entry)) as [new2 ->].
    destruct (processEntry_events_extend r entry) as [new1 ->].
    exists (new1 ++ new2). now rewrite app_assoc.
Qed.

Lemma delays_app (es1 es2 : list Event) :
  delays (es1 ++ es2) = delays es1 ++ delays es2.
Proof. apply omap_app. Qed.

(** One delay has been slept per counted API call, each of 100 ms. *)
Lemma processEntry_delays (r : Run) (entry : PasswordEntry.t) :
  delays (events (world r)) = repeat API_RATE_LIMIT_DELAY_MS (checkedCount r) ->
  delays (events (world (processEntry r entry)))
  = repeat API_RATE_LIMIT_DELAY_MS (checkedCount (processEntry r entry)).
Proof.
  intros Hinv. entry_cases r entry; simpl; rewrite ?delays_app, ?Hinv; simpl.
  - reflexivity.
  - apply app_nil_r.
  - symmetry. apply repeat_cons.
Qed.

Lemma processEntries_delays (r : Run) (entries : list PasswordEntry.t) :
  delays (events (world r)) = repeat API_RATE_LIMIT_DELAY_MS (checkedCount r) ->
  delays (events (world (processEntries r entries)))
  = repeat API_RATE_LIMIT_DELAY_MS (checkedCount (processEntries r entries)).
Proof.
  revert r. induction entries as [| entry entries IH]; intros r Hinv; [exact Hinv |].
  rewrite processEntries_cons. now apply IH, processEntry_delays.
Qed.

(** C8, as the loop has it. What one iteration adds to the events is
    decided by the cache as it is before the lookup and by the way the
    request ends: nothing on a cache hit; the request followed by the
    delay of 100 ms, as the last event of the iteration, when the prefix
    was absent and the lookup succeeded; the request alone, without any
    delay, when the request failed. Over a whole run, as many delays of
    100 ms have been slept as [checkedCount] counts. *)
Theorem delay_follows_successful_new_query (r : Run) (entry : PasswordEntry.t) :
  let prefix := prefixOf (PasswordEntry.password entry) in
  API_RATE_LIMIT_DELAY_MS = 100%Z
  /\ events (world (processEntry r entry))
     = events (world r)
       ++ match hashCache (world r) !! prefix with
          | Some _ => []
          | None =>
              match remote (length (requests (events (world r)))) (requestFor prefix) with
              | OnEnd _ => [HttpsGet (requestFor prefix); Delay API_RATE_LIMIT_DELAY_MS]
              | OnError _ => [HttpsGet (requestFor prefix)]
              end
          end
  /\ forall entries,
      delays (events (world (main entries)))
      = repeat API_RATE_LIMIT_DELAY_MS (checkedCount (main entries)).
Proof.
  intros prefix. split; [reflexivity |]. split; [apply processEntry_events |].
  intros entries. rewrite main_eq. now apply processEntries_delays.
Qed.

(** *** The cache and the counter of API calls *)

Lemma processEntry_cache_count (r : Run) (entry : PasswordEntry.t) :
  size (hashCache (world r)) = checkedCount r ->
  size (hashCache (world (processEntry r entry))) = checkedCount (processEntry r entry).
Proof.
  intros Hinv. entry_cases r entry; simpl; try exact Hinv.
  rewrite map_size_insert_None by exact Hcache. now rewrite Hinv.
Qed.

Lemma processEntries_cache_count (r : Run) (entries : list PasswordEntry.t) :
  size (hashCache (world r)) = checkedCount r ->
  size (hashCache (world (processEntries r entries)))
  = checkedCount (processEntries r entries).
Proof.
  revert r. induction entries as [| entry entries IH]; intros r Hinv; [exact Hinv |].
  rewrite processEntries_cons. apply IH. now apply processEntry_cache_count.
Qed.



(** *** Results *)

Lemma processEntry_results (r : Run) (entry : PasswordEntry.t) :
  exists count status,
    results (processEntry r entry)
    = results r
      ++ [Result.make (PasswordEntry.password entry) count
            (PasswordEntry.originalLineNumber entry) status].
Proof. entry_cases r entry; simpl; eauto. Qed.


(** Line number and password of a result, of an entry. *)
Lemma processEntries_results (r : Run) (entries : list PasswordEntry.t) :
  map (fun x => (Result.originalLineNumber x, Result.password x))
    (results (processEntries r entries))
  = map (fun x => (Result.originalLineNumber x, Result.password x)) (results r)
    ++ map (fun e => (PasswordEntry.originalLineNumber e, PasswordEntry.password e)) entries.
Proof.
  revert r. induction entries as [| entry entries IH]; intros r.
  - simpl. now rewrite app_nil_r.
  - rewrite processEntries_cons, IH.
    destruct (processEntry_results r entry) as (count & status & ->).
    rewrite map_app. simpl. now rewrite <- app_assoc.
Qed.



(** *** Requests per prefix *)

Lemma requests_app (es1 es2 : list Event) :
  requests (es1 ++ es2) = requests es1 ++ requests es2.
Proof. apply omap_app. Qed.

Lemma queriesFor_app (p : string) (es1 es2 : list Event) :
  queriesFor p (es1 ++ es2) = (queriesFor p es1 + queriesFor p es2)%nat.
Proof.
  unfold queriesFor. now rewrite requests_app, List.filter_app, length_app.
Qed.

Lemma queriesFor_request (p q : string) :
  queriesFor p [HttpsGet (requestFor q)] = if decide (q = p) then 1%nat else 0%nat.
Proof.
  unfold queriesFor, requestFor. simpl.
  destruct (decide (q = p)) as [-> | Hne].
  - now rewrite String.eqb_refl.
  - apply String.eqb_neq in Hne. now rewrite Hne.
Qed.

Lemma processEntry_queries (r : Run) (entry : PasswordEntry.t) (p : string) :
  queriesFor p (events (world (processEntry r entry)))
  = (queriesFor p (events (world r))
     + match hashCache (world r) !! prefixOf (PasswordEntry.password entry) with
       | Some _ => 0
       | None => if decide (prefixOf (PasswordEntry.password entry) = p) then 1 else 0
       end)%nat.
Proof.
  rewrite processEntry_events, queriesFor_app. f_equal.
  destruct (hashCache (world r) !! _); [reflexivity |].
  destruct (remote _ _).
  - apply queriesFor_request.
  - change [HttpsGet ?o; ?d] with ([HttpsGet o] ++ [d]).
    rewrite queriesFor_app, queriesFor_request. unfold queriesFor. simpl. lia.
Qed.

(** The cache only grows, and never replaces a range. *)
Lemma processEntry_cache_kept (r : Run) (entry : PasswordEntry.t) (p : string)
      (set : list CacheEntry.t) :
  hashCache (world r) !! p = Some set ->
  hashCache (world (processEntry r entry)) !! p = Some set.
Proof.
  intros Hp. entry_cases r entry; simpl; try exact Hp.
  rewrite lookup_insert_ne; [exact Hp |]. intros Heq. subst p. congruence.
Qed.

Lemma processEntries_cache_kept (r : Run) (entries : list PasswordEntry.t) (p : string)
      (set : list CacheEntry.t) :
  hashCache (world r) !! p = Some set ->
  hashCache (world (processEntries r entries)) !! p = Some set.
Proof.
  revert r. induction entries as [| entry entries IH]; intros r Hp; [exact Hp |].
  rewrite processEntries_cons. now apply IH, processEntry_cache_kept.
Qed.

(** Entries with other prefixes leave the place of a prefix as it is. *)
Lemma processEntry_cache_other (r : Run) (entry : PasswordEntry.t) (p : string) :
  prefixOf (PasswordEntry.password entry) <> p ->
  hashCache (world (processEntry r entry)) !! p = hashCache (world r) !! p.
Proof.
  intros Hne. entry_cases r entry; simpl; try reflexivity.
  now rewrite lookup_insert_ne.
Qed.

Lemma processEntries_cache_other (r : Run) (entries : list PasswordEntry.t) (p : string) :
  Forall (fun e => prefixOf (PasswordEntry.password e) <> p) entries ->
  hashCache (world (processEntries r entries)) !! p = hashCache (world r) !! p.
Proof.
  intros Hothers. revert r.
  induction Hothers as [| entry entries Hne _ IH]; intros r; [reflexivity |].
  rewrite processEntries_cons, IH. now apply processEntry_cache_other.
Qed.

(** Once a prefix is cached, no iteration asks for it again. *)
Lemma processEntry_queries_cached (r : Run) (entry : PasswordEntry.t) (p : string) :
  is_Some (hashCache (world r) !! p) ->
  queriesFor p (events (world (processEntry r entry))) = queriesFor p (events (world r)).
Proof.
  intros [set Hp]. rewrite processEntry_queries.
  destruct (hashCache (world r) !! prefixOf _) eqn:Hc; [lia |].
  destruct (decide _) as [Heq |]; [| lia]. rewrite Heq in Hc. congruence.
Qed.

Lemma processEntries_queries_cached (r : Run) (entries : list PasswordEntry.t)
      (p : string) :
  is_Some (hashCache (world r) !! p) ->
  queriesFor p (events (world (processEntries r entries)))
  = queriesFor p (events (world r)).
Proof.
  revert r. induction entries as [| entry entries IH]; intros r Hp; [reflexivity |].
  rewrite processEntries_cons, IH.
  - now apply processEntry_queries_cached.
  - destruct Hp as [set Hp]. exists set. now apply processEntry_cache_kept.
Qed.

(** A lookup that resolves leaves the prefix cached. *)
Lemma resolved_then_cached (r : Run) (entry : PasswordEntry.t) (count : Js.number) :
  (checkPassword (PasswordEntry.password entry) (world r)).1 = Resolved count ->
  is_Some (hashCache (world (processEntry r entry))
             !! prefixOf (PasswordEntry.password entry)).
Proof.
  intros Hresolved. entry_cases r entry; simpl.
  - eauto.
  - rewrite (checkPassword_failed _ _ _ Hcache Hremote) in Hresolved. discriminate.
  - rewrite lookup_insert_eq. eauto.
Qed.


(** C1, as the code has it. Two entries with the same prefix, the
    second processed after the first and after any entries in between;
    they stand for either order. When the lookup of the first does not
    fail, the second is answered from the cache: its iteration adds no
    event, so no request, and counts as a cache hit; and from before the
    first to after the second at most one request for the prefix is sent.
    When the lookup of the first is rejected, it leaves the prefix out of
    the cache, where it stays as long as the entries in between have other
    prefixes; the second then sends one more request for the prefix if the
    prefix is still absent when its turn comes, and none if an entry in
    between has fetched it meanwhile. *)
Theorem second_lookup_served_from_cache
        (r : Run) (first second : PasswordEntry.t) (between : list PasswordEntry.t) :
  prefixOf (PasswordEntry.password first) = prefixOf (PasswordEntry.password second) ->
  let prefix := prefixOf (PasswordEntry.password first) in
  let r1 := processEntries r (first :: between) in
  let r2 := processEntry r1 second in
  (forall count,
     (checkPassword (PasswordEntry.password first) (world r)).1 = Resolved count ->
     events (world r2) = events (world r1)
     /\ cachedCount r2 = S (cachedCount r1)
     /\ checkedCount r2 = checkedCount r1
     /\ (queriesFor prefix (events (world r2))
         <= S (queriesFor prefix (events (world r))))%nat)
  /\ (forall message,
        (checkPassword (PasswordEntry.password first) (world r)).1 = Rejected message ->
        hashCache (world (processEntry r first)) !! prefix = None
        /\ (Forall (fun e => prefixOf (PasswordEntry.password e) <> prefix) between ->
            hashCache (world r1) !! prefix = None)
        /\ (hashCache (world r1) !! prefix = None ->
            queriesFor prefix (events (world r2))
            = S (queriesFor prefix (events (world r1))))
        /\ (is_Some (hashCache (world r1) !! prefix) ->
            events (world r2) = events (world r1))).
Proof.
  intros Hsame prefix r1 r2. split.
  - intros count Hresolved.
    assert (Hcached1 : is_Some (hashCache (world (processEntry r first)) !! prefix)).
    { now apply resolved_then_cached with count. }
    assert (Hcached : is_Some (hashCache (world r1) !! prefix)).
    { destruct Hcached1 as [set Hset]. exists set.
      subst r1. rewrite processEntries_cons. now apply processEntries_cache_kept. }
    assert (Hqueries : (queriesFor prefix (events (world r1))
                        <= S (queriesFor prefix (events (world r))))%nat).
    { subst r1. rewrite processEntries_cons, processEntries_queries_cached by exact Hcached1.
      rewrite processEntry_queries.
      destruct (hashCache (world r) !! _); [lia |]. destruct (decide _); lia. }
    subst r2. destruct Hcached as [set Hset].
    assert (Hset' : hashCache (world r1) !! prefixOf (PasswordEntry.password second)
                    = Some set) by now rewrite <- Hsame.
    rewrite (processEntry_hit _ _ _ Hset'). simpl. auto.
  - intros message Hrejected.
    assert (Hfirst : hashCache (world (processEntry r first)) !! prefix = None).
    { subst prefix. entry_cases r first.
      - rewrite (checkPassword_hit _ _ _ Hcache) in Hrejected. discriminate.
      - exact Hcache.
      - rewrite (checkPassword_fetched _ _ _ Hcache Hremote) in Hrejected. discriminate. }
    split; [exact Hfirst |]. split; [| split].
    + intros Hothers. subst r1.
      rewrite processEntries_cons, processEntries_cache_other by exact Hothers.
      exact Hfirst.
    + intros Habsent. subst r2. rewrite processEntry_queries, <- Hsame.
      fold prefix. rewrite Habsent. destruct (decide (prefix = prefix)); [lia | contradiction].
    + intros [set Hset]. subst r2.
      assert (Hset' : hashCache (world r1) !! prefixOf (PasswordEntry.password second)
                      = Some set) by now rewrite <- Hsame.
      now rewrite (processEntry_hit _ _ _ Hset').
Qed.

End Correctness.

(** ** The loop of [src/check-pwned-passwords.js]

    It is the loop above with the line numbers and the count of pwned
    entries forgotten, so what holds of the cache, the counter and the
    order of the results holds of it too. *)

Section OtherScript.

Context (sha1 : string -> string) (remote : nat -> RequestOptions -> Response).

Lemma processPassword_forget (r : Run) (entry : PasswordEntry.t) :
  CheckPwnedPasswords.processPassword sha1 remote (forgetRun r) (PasswordEntry.password entry)
  = forgetRun (processEntry sha1 remote r entry).
Proof.
  unfold CheckPwnedPasswords.processPassword, processEntry, forgetRun. simpl.
  destruct (checkPassword sha1 remote (PasswordEntry.password entry) (world r))
    as [[count | message] w]; simpl; now rewrite map_app.
Qed.

Lemma check_pwned_passwords_main (entries : list PasswordEntry.t) :
  CheckPwnedPasswords.main sha1 remote (map PasswordEntry.password entries)
  = forgetRun (main sha1 remote entries).
Proof.
  unfold CheckPwnedPasswords.main, main, processEntries.
  change (CheckPwnedPasswords.start) with (forgetRun start).
  generalize start. induction entries as [| entry entries IH]; intros r; [reflexivity |].
  simpl. now rewrite processPassword_forget, IH.
Qed.

Lemma check_pwned_passwords_results (passwords : list string) :
  map CheckPwnedPasswords.password (CheckPwnedPasswords.results (CheckPwnedPasswords.main sha1 remote passwords)) = passwords.
Proof.
  pose (entries := map (fun p => PasswordEntry.make p 0) passwords).
  assert (Hpasswords : map PasswordEntry.password entries = passwords).
  { subst entries. rewrite map_map. simpl. apply map_id. }
  rewrite <- Hpasswords at 1. rewrite check_pwned_passwords_main. simpl.
  rewrite map_map. simpl.
  pose proof (processEntries_results sha1 remote start entries) as H.
  apply (f_equal (map snd)) in H. rewrite map_app, !map_map in H. simpl in H.
  rewrite main_eq, H. exact Hpasswords.
Qed.

Lemma check_pwned_passwords_cache_size (passwords : list string) :
  size (hashCache (CheckPwnedPasswords.world (CheckPwnedPasswords.main sha1 remote passwords)))
  = CheckPwnedPasswords.checkedCount (CheckPwnedPasswords.main sha1 remote passwords).
Proof.
  pose (entries := map (fun p => PasswordEntry.make p 0) passwords).
  assert (Hpasswords : map PasswordEntry.password entries = passwords).
  { subst entries. rewrite map_map. simpl. apply map_id. }
  rewrite <- Hpasswords, check_pwned_passwords_main. simpl.
  rewrite main_eq. now apply processEntries_cache_count.
Qed.

End OtherScript.

(** ** Requests that never end *)

Section PendingRequests.

Context (sha1 : string -> string) (service : nat -> RequestOptions -> option Response).

(** *** One iteration: answered from the cache, ended, left waiting *)


Lemma pending_entry_hit (remote : nat -> RequestOptions -> Response)
      (r : Run) (entry : PasswordEntry.t) (cachedData : list CacheEntry.t) :
  hashCache (world r) !! prefixOf sha1 (PasswordEntry.password entry) = Some cachedData ->
  Pending.processEntry sha1 service r entry
  = Pending.Done (processEntry sha1 remote r entry).
Proof.
  intros H.
  unfold Pending.processEntry, Pending.checkPassword, processEntry, checkPassword,
    prefixOf in *.
  now rewrite H.
Qed.

Lemma pending_entry_ended (remote : nat -> RequestOptions -> Response)
      (r : Run) (entry : PasswordEntry.t) :
  let prefix := prefixOf sha1 (PasswordEntry.password entry) in
  hashCache (world r) !! prefix = None ->
  service (length (requests (events (world r)))) (requestFor prefix)
  = Some (remote (length (requests (events (world r)))) (requestFor prefix)) ->
  Pending.processEntry sha1 service r entry
  = Pending.Done (processEntry sha1 remote r entry).
Proof.
  intros prefix H Hends. subst prefix.
  unfold Pending.processEntry, Pending.checkPassword, processEntry, checkPassword,
    prefixOf in *.
  rewrite H, Hends. now destruct (remote _ _).
Qed.

Lemma pending_entry_waiting (r : Run) (entry : PasswordEntry.t) :
  let prefix := prefixOf sha1 (PasswordEntry.password entry) in
  hashCache (world r) !! prefix = None ->
  service (length (requests (events (world r)))) (requestFor prefix) = None ->
  Pending.processEntry sha1 service r entry = Pending.Waiting (waitingFor sha1 r entry).
Proof.
  intros prefix H Hnone. subst prefix.
  unfold Pending.processEntry, Pending.checkPassword, waitingFor, prefixOf in *.
  now rewrite H, Hnone.
Qed.

Lemma ending_agrees (n : nat) (o : RequestOptions) (response : Response) :
  service n o = Some response -> service n o = Some (ending service n o).
Proof. intros H. unfold ending. now rewrite H. Qed.

(** An iteration that is left behind is the iteration of the loop whose
    requests end. *)
Lemma pending_entry_done (r r' : Run) (entry : PasswordEntry.t) :
  Pending.processEntry sha1 service r entry = Pending.Done r' ->
  r' = processEntry sha1 (ending service) r entry.
Proof.
  intros Hdone.
  destruct (hashCache (world r) !! prefixOf sha1 (PasswordEntry.password entry))
    as [cachedData |] eqn:Hcache.
  - rewrite (pending_entry_hit (ending service) _ _ _ Hcache) in Hdone. congruence.
  - destruct (service (length (requests (events (world r))))
                (requestFor (prefixOf sha1 (PasswordEntry.password entry))))
      as [response |] eqn:Hservice.
    + rewrite (pending_entry_ended (ending service) _ _ Hcache
                 (ending_agrees _ _ _ Hservice)) in Hdone.
      congruence.
    + rewrite (pending_entry_waiting _ _ Hcache Hservice) in Hdone. discriminate.
Qed.


(** *** The loop *)

Lemma pending_loop_cons (r : Run) (entry : PasswordEntry.t) (rest : list PasswordEntry.t) :
  Pending.processEntries sha1 service r (entry :: rest)
  = match Pending.processEntry sha1 service r entry with
    | Pending.Done r' => Pending.processEntries sha1 service r' rest
    | Pending.Waiting r' => Pending.Waiting r'
    end.
Proof. reflexivity. Qed.


Lemma pending_loop_done (r r' : Run) (entries : list PasswordEntry.t) :
  Pending.processEntries sha1 service r entries = Pending.Done r' ->
  r' = processEntries sha1 (ending service) r entries.
Proof.
  revert r. induction entries as [| entry entries IH]; intros r Hdone.
  - injection Hdone as <-. reflexivity.
  - rewrite pending_loop_cons in Hdone. rewrite processEntries_cons.
    destruct (Pending.processEntry sha1 service r entry) as [r1 | r1] eqn:Hentry;
      [| discriminate].
    apply pending_entry_done in Hentry as <-. now apply IH.
Qed.


(** *** The loop of [src/check-pwned-passwords.js] *)




(** *** How the end of a request decides the lookup *)

(** C3, as the code has it. A lookup that finds its prefix absent sends a
    request, and what becomes of it depends on the event that ends the
    request. On the request's ['error'] the lookup is rejected, the loop
    records the failure sentinel for that entry and nothing else, and the
    cache is left as it was, without the prefix; after any entries with
    other prefixes, the next entry with the same prefix sends a request of
    its own. On the response's ['end'] the body is parsed as it is,
    whatever it is, and stored under the prefix; the lookup resolves with
    the count that the parsed lines give for the suffix, 0 when none
    matches, and later entries with the prefix are answered from the
    cache. When neither event comes, the lookup stays pending: no result
    is recorded, not even the sentinel, the cache is left as it was, and
    the loop goes no further, so that no entry after it is looked up. *)
Theorem request_end_decides_lookup (r : Run) (entry : PasswordEntry.t) :
  let password := PasswordEntry.password entry in
  let prefix := prefixOf sha1 password in
  let ended := service (length (requests (events (world r)))) (requestFor prefix) in
  hashCache (world r) !! prefix = None ->
  (forall message, ended = Some (OnError message) ->
     exists r1,
       Pending.processEntry sha1 service r entry = Pending.Done r1
       /\ (Pending.checkPassword sha1 service password (world r)).1
          = Some (Rejected message)
       /\ results r1
          = results r
            ++ [Result.make password (Js.Num (-1))
                  (PasswordEntry.originalLineNumber entry) (Error message)]
       /\ hashCache (world r1) = hashCache (world r)
       /\ forall between r2 later,
            Forall (fun e => prefixOf sha1 (PasswordEntry.password e) <> prefix) between ->
            Pending.processEntries sha1 service r1 between = Pending.Done r2 ->
            prefixOf sha1 (PasswordEntry.password later) = prefix ->
            hashCache (world r2) !! prefix = None
            /\ exists rest,
                events (world (Pending.run (Pending.processEntry sha1 service r2 later)))
                = events (world r2) ++ HttpsGet (requestFor prefix) :: rest)
  /\ (forall data, ended = Some (OnEnd data) ->
       let count := matchCount (parseResponse data) (suffixOf sha1 password) in
       exists r1,
         Pending.processEntry sha1 service r entry = Pending.Done r1
         /\ (Pending.checkPassword sha1 service password (world r)).1
            = Some (Resolved count)
         /\ results r1
            = results r
              ++ [Result.make password count (PasswordEntry.originalLineNumber entry)
                    (if Js.isZero count then Safe else Pwned count)]
         /\ hashCache (world r1) = <[prefix := parseResponse data]> (hashCache (world r))
         /\ forall between r2 later,
              Pending.processEntries sha1 service r1 between = Pending.Done r2 ->
              prefixOf sha1 (PasswordEntry.password later) = prefix ->
              hashCache (world r2) !! prefix = Some (parseResponse data)
              /\ events (world (Pending.run (Pending.processEntry sha1 service r2 later)))
                 = events (world r2))
  /\ (ended = None ->
      (Pending.checkPassword sha1 service password (world r)).1 = None
      /\ forall after,
          exists r',
            Pending.processEntries sha1 service r (entry :: after) = Pending.Waiting r'
            /\ results r' = results r
            /\ hashCache (world r') = hashCache (world r)
            /\ events (world r') = events (world r) ++ [HttpsGet (requestFor prefix)]).
Proof.
  intros password prefix ended Hcache.
  assert (Hlookup : (Pending.checkPassword sha1 service password (world r)).1
                    = match ended with
                      | Some (OnEnd data) =>
                          Some (Resolved (matchCount (parseResponse data)
                                            (suffixOf sha1 password)))
                      | Some (OnError message) => Some (Rejected message)
                      | None => None
                      end).
  { subst ended prefix. unfold Pending.checkPassword, prefixOf, suffixOf in *.
    rewrite Hcache. now destruct (service _ _) as [[message | data] |]. }
  split; [| split].
  - intros message Hended.
    pose proof (ending_agrees _ _ _ Hended) as Hagree.
    assert (Hremote : ending service (length (requests (events (world r))))
                        (requestFor prefix) = OnError message).
    { unfold ending. subst ended. now rewrite Hended. }
    exists (processEntry sha1 (ending service) r entry).
    split; [exact (pending_entry_ended (ending service) r entry Hcache Hagree) |].
    split; [now rewrite Hlookup, Hended |].
    rewrite (processEntry_failed sha1 (ending service) r entry message Hcache Hremote).
    cbn [results world hashCache].
    split; [reflexivity |]. split; [reflexivity |].
    intros between r2 later Hothers Hdone Hlater.
    apply pending_loop_done in Hdone.
    assert (Habsent : hashCache (world r2) !! prefix = None).
    { subst r2. now rewrite processEntries_cache_other by exact Hothers. }
    split; [exact Habsent |].
    rewrite <- Hlater in Habsent |- *.
    destruct (service (length (requests (events (world r2))))
                (requestFor (prefixOf sha1 (PasswordEntry.password later))))
      as [response |] eqn:Hservice.
    + rewrite (pending_entry_ended (ending service) r2 later Habsent
                 (ending_agrees _ _ _ Hservice)).
      cbn [Pending.run]. rewrite processEntry_events, Habsent.
      destruct (ending service (length (requests (events (world r2)))) _);
        eexists; reflexivity.
    + rewrite (pending_entry_waiting r2 later Habsent Hservice).
      exists []. reflexivity.
  - intros data Hended count.
    pose proof (ending_agrees _ _ _ Hended) as Hagree.
    assert (Hremote : ending service (length (requests (events (world r))))
                        (requestFor prefix) = OnEnd data).
    { unfold ending. subst ended. now rewrite Hended. }
    exists (processEntry sha1 (ending service) r entry).
    split; [exact (pending_entry_ended (ending service) r entry Hcache Hagree) |].
    split; [now rewrite Hlookup, Hended |].
    rewrite (processEntry_fetched sha1 (ending service) r entry data Hcache Hremote).
    cbn [results world hashCache].
    split; [reflexivity |]. split; [reflexivity |].
    intros between r2 later Hdone Hlater.
    apply pending_loop_done in Hdone.
    assert (Hkept : hashCache (world r2) !! prefix = Some (parseResponse data)).
    { subst r2. apply processEntries_cache_kept. cbn [world hashCache].
      apply lookup_insert_eq. }
    split; [exact Hkept |].
    rewrite <- Hlater in Hkept.
    rewrite (pending_entry_hit (ending service) r2 later _ Hkept).
    cbn [Pending.run]. rewrite processEntry_events, Hkept. apply app_nil_r.
  - intros Hended. split; [now rewrite Hlookup, Hended |].
    intros after. exists (waitingFor sha1 r entry).
    rewrite pending_loop_cons, (pending_entry_waiting r entry Hcache Hended).
    repeat split.
Qed.

(** *** One result per entry *)


End PendingRequests.

(** ** Runs on actual digests *)

Example sha1_of_password :
  Sha1.sha1 "password" = "5BAA61E4C9B93F3F0682250B6CF8331B7EE68FD8"
  /\ Sha1.sha1 "abc" = "A9993E364706816ABA3E25717850C26C9CD0D89D"
  /\ Sha1.sha1 "" = "DA39A3EE5E6B4B0D3255BFEF95601890AFD80709".
Proof. vm_compute. auto. Qed.

Example shared_prefix :
  Sha1.sha1 "password136" = "BD30B559BD9A84C988F99A2B3B05F4980E6D06CD"
  /\ Sha1.sha1 "password1818" = "BD30B4E206823991DE29A0C764E7F6CA6D98A890".
Proof. vm_compute. auto. Qed.

(** C6 at work: [hunter2] is not in the range served. *)
Lemma absent_suffix_is_safe_witness :
  let w := {| hashCache := ∅; events := [] |} in
  let lookup := checkPassword Sha1.sha1 (Examples.answering Examples.rangeOfPassword) in
  (lookup "hunter2" w).1 = Resolved (Js.Num 0)
  /\ lookup "hunter2" (lookup "hunter2" w).2 = (Resolved (Js.Num 0), (lookup "hunter2" w).2).
Proof.
  intros w lookup.
  apply (absent_suffix_is_safe Sha1.sha1 (Examples.answering Examples.rangeOfPassword)
           "hunter2" w (parseResponse Examples.rangeOfPassword)).
  - vm_compute. reflexivity.
  - repeat constructor; vm_compute; discriminate.
Defined.

(** C1 as stated fails: the first request for BD30B fails, so the second
    entry with that prefix sends the request again. *)
Lemma same_prefix_queried_twice_after_failure :
  let entries := [Examples.entry "password136" 1; Examples.entry "password1818" 2] in
  let run := main Sha1.sha1 (Examples.failingOnce Examples.rangeOfPassword) entries in
  prefixOf Sha1.sha1 "password136" = "BD30B"
  /\ prefixOf Sha1.sha1 "password1818" = "BD30B"
  /\ queriesFor "BD30B" (events (world run)) = 2%nat
  /\ requests (events (world run)) = [requestFor "BD30B"; requestFor "BD30B"].
Proof. vm_compute. auto. Qed.

(** C1 at work: after a lookup that resolves, and after one that is
    rejected. *)
Lemma second_lookup_served_from_cache_witness :
  let first := Examples.entry "password136" 1 in
  let second := Examples.entry "password1818" 3 in
  let between := [Examples.entry "password" 2] in
  (let remote := Examples.answering Examples.rangeOfPassword in
   let r1 := processEntries Sha1.sha1 remote start (first :: between) in
   let r2 := processEntry Sha1.sha1 remote r1 second in
   events (world r2) = events (world r1)
   /\ cachedCount r2 = S (cachedCount r1)
   /\ checkedCount r2 = checkedCount r1
   /\ (queriesFor "BD30B" (events (world r2))
       <= S (queriesFor "BD30B" (events (world start))))%nat)
  /\ (let remote := Examples.failingOnce Examples.rangeOfPassword in
      let r1 := processEntries Sha1.sha1 remote start (first :: between) in
      let r2 := processEntry Sha1.sha1 remote r1 second in
      hashCache (world (processEntry Sha1.sha1 remote start first)) !! "BD30B" = None
      /\ hashCache (world r1) !! "BD30B" = None
      /\ queriesFor "BD30B" (events (world r2))
         = S (queriesFor "BD30B" (events (world r1)))).
Proof.
  intros first second between. split.
  - exact (proj1 (second_lookup_served_from_cache Sha1.sha1
                    (Examples.answering Examples.rangeOfPassword) start
                    first second between ltac:(vm_compute; reflexivity))
             (Js.Num 0) ltac:(vm_compute; reflexivity)).
  - destruct (proj2 (second_lookup_served_from_cache Sha1.sha1
                       (Examples.failingOnce Examples.rangeOfPassword) start
                       first second between ltac:(vm_compute; reflexivity))
                "socket hang up" ltac:(vm_compute; reflexivity))
      as (Hfirst & Hothers & Hagain & _).
    assert (Habsent : hashCache
                        (world (processEntries Sha1.sha1
                                  (Examples.failingOnce Examples.rangeOfPassword) start
                                  (first :: between))) !! "BD30B" = None).
    { apply Hothers. repeat constructor. vm_compute. discriminate. }
    split; [exact Hfirst |]. split; [exact Habsent | exact (Hagain Habsent)].
Defined.

(** C2 as stated fails: the text of a password can occur in the request
    all the same. The password GET is the method of every request, and
    the digest of the password F1025 starts with these five characters,
    so that it stands in the path of its own request. *)
Lemma password_occurs_in_its_request :
  In "GET" (requestStrings (requestFor (prefixOf Sha1.sha1 "GET")))
  /\ occursIn "GET" (method (requestFor (prefixOf Sha1.sha1 "GET")))
  /\ prefixOf Sha1.sha1 "F1025" = "F1025"
  /\ path (requestFor (prefixOf Sha1.sha1 "F1025")) = "/range/F1025"
  /\ occursIn "F1025" (path (requestFor (prefixOf Sha1.sha1 "F1025"))).
Proof.
  split; [vm_compute; auto |].
  split; [exists EmptyString, EmptyString; reflexivity |].
  split; [vm_compute; reflexivity |].
  split; [vm_compute; reflexivity |].
  exists "/range/", EmptyString. vm_compute. reflexivity.
Qed.

(** C2 at work: two passwords with the prefix BD30B, and a pass phrase of
    28 characters. *)
Lemma request_depends_on_prefix_only_witness :
  (let w := world start in
   let lookup := checkPassword Sha1.sha1 Examples.unreachable in
   let request := requestFor (prefixOf Sha1.sha1 "password136") in
   events (lookup "password136" w).2 = events (lookup "password1818" w).2
   /\ (events (lookup "password136" w).2 = events w
       \/ events (lookup "password136" w).2 = events w ++ [HttpsGet request])
   /\ (forall field, In field (requestStrings request) ->
                     ~ occursIn (suffixOf Sha1.sha1 "password136") field)
   /\ (forall field, In field (requestStrings request) ->
                     field = "/range/" +:+ prefixOf Sha1.sha1 "password136"
                     \/ In field requestConstants)
   /\ ((23 < String.length "password136")%nat ->
       forall field, In field (requestStrings request) -> ~ occursIn "password136" field))
  /\ (forall field,
        In field (requestStrings
                    (requestFor (prefixOf Sha1.sha1 "correct horse battery staple"))) ->
        ~ occursIn "correct horse battery staple" field).
Proof.
  split.
  - exact (request_depends_on_prefix_only Sha1.sha1 Examples.unreachable
             "password136" "password1818" (world start)
             ltac:(vm_compute; reflexivity) ltac:(vm_compute; reflexivity)).
  - destruct (request_depends_on_prefix_only Sha1.sha1 Examples.unreachable
                "correct horse battery staple" "correct horse battery staple"
                (world start) ltac:(reflexivity) ltac:(vm_compute; reflexivity))
      as (_ & _ & _ & _ & Hlong).
    apply Hlong. simpl. lia.
Defined.

(** C3 as stated fails, for a malformed body and for a request that does
    not end. The only request that ends brings a body that is no range: it
    is parsed all the same and cached under the prefix, the lookup
    resolves with 0 and the second entry with the prefix is answered from
    that cache entry, without a fresh request. The request for the third
    entry emits neither event: the loop waits in that iteration with the
    two results it has, none of them for the third entry, no sentinel,
    and nothing is reported. *)
Lemma no_sentinel_for_malformed_or_unfinished_response :
  let service := Examples.silentFrom 1 (Examples.answering Examples.notARange) in
  let loop := Pending.main Sha1.sha1 service
                [Examples.entry "password" 1; Examples.entry "password" 2;
                 Examples.entry "hunter2" 3; Examples.entry "hunter2" 4] in
  (Pending.checkPassword Sha1.sha1 service "password" (world start)).1
  = Some (Resolved (Js.Num 0))
  /\ hashCache (world (Pending.run loop)) !! "5BAA6"
     = Some [CacheEntry.make Examples.notARange Js.NaN]
  /\ (exists run,
        loop = Pending.Waiting run
        /\ results run = [Result.make "password" (Js.Num 0) 1 Safe;
                          Result.make "password" (Js.Num 0) 2 Safe]
        /\ requests (events (world run)) = [requestFor "5BAA6"; requestFor "F3BBB"]
        /\ hashCache (world run) !! "F3BBB" = None)
  /\ Pending.reported loop = None.
Proof.
  split; [vm_compute; reflexivity |].
  split; [vm_compute; reflexivity |].
  split; [| vm_compute; reflexivity].
  eexists. split; [vm_compute; reflexivity |]. vm_compute. auto.
Qed.

(** C3 at work, once for each way the request for the prefix of
    [password] can go. *)
Lemma request_end_decides_lookup_witness :
  let entry := Examples.entry "password" 1 in
  (let service := alwaysEnding Examples.unreachable in
   exists r1,
     Pending.processEntry Sha1.sha1 service start entry = Pending.Done r1
     /\ results r1
        = [Result.make "password" (Js.Num (-1)) 1 (Error "connect ETIMEDOUT")]
     /\ hashCache (world r1) = hashCache (world start))
  /\ (let service := alwaysEnding (Examples.answering Examples.notARange) in
      exists r1,
        Pending.processEntry Sha1.sha1 service start entry = Pending.Done r1
        /\ results r1 = [Result.make "password" (Js.Num 0) 1 Safe]
        /\ hashCache (world r1)
           = <["5BAA6" := parseResponse Examples.notARange]> (hashCache (world start)))
  /\ (let service := Examples.silentFrom 0 Examples.unreachable in
      exists r',
        Pending.processEntries Sha1.sha1 service start [entry; Examples.entry "hunter2" 2]
        = Pending.Waiting r'
        /\ results r' = []
        /\ hashCache (world r') = hashCache (world start)
        /\ events (world r') = [HttpsGet (requestFor "5BAA6")]).
Proof.
  intros entry. split; [| split].
  - destruct (proj1 (request_end_decides_lookup Sha1.sha1
                       (alwaysEnding Examples.unreachable) start entry
                       ltac:(vm_compute; reflexivity))
                "connect ETIMEDOUT" ltac:(reflexivity))
      as (r1 & Hdone & _ & Hresults & Hcache & _).
    exists r1. split; [exact Hdone |]. split; [exact Hresults | exact Hcache].
  - destruct (proj1 (proj2 (request_end_decides_lookup Sha1.sha1
                              (alwaysEnding (Examples.answering Examples.notARange))
                              start entry ltac:(vm_compute; reflexivity)))
                Examples.notARange ltac:(reflexivity))
      as (r1 & Hdone & _ & Hresults & Hcache & _).
    exists r1. split; [exact Hdone |]. split; [| exact Hcache].
    rewrite Hresults. vm_compute. reflexivity.
  - destruct (proj2 (proj2 (request_end_decides_lookup Sha1.sha1
                              (Examples.silentFrom 0 Examples.unreachable)
                              start entry ltac:(vm_compute; reflexivity)))
                ltac:(reflexivity))
      as (_ & Hwaits).
    destruct (Hwaits [Examples.entry "hunter2" 2])
      as (r' & Hloop & Hresults & Hcache & Hevents).
    exists r'. split; [exact Hloop |]. split; [exact Hresults |].
    split; [exact Hcache | exact Hevents].
Defined.

(** C4 as stated fails: the service lists the digests of the two
    passwords with counts that are no counts, both lookups resolve, and
    both rows are exported with an empty count field although neither
    result is the failure sentinel. *)
Lemma count_field_empty_without_failure :
  let remote := Examples.answering Examples.rangeWithOddCounts in
  let run := main Sha1.sha1 remote
               [Examples.entry "password" 1; Examples.entry "hunter2" 2] in
  results run
  = [Result.make "password" (Js.Num (-5)) 1 (Pwned (Js.Num (-5)));
     Result.make "hunter2" Js.NaN 2 (Pwned Js.NaN)]
  /\ csvLines true (results run) = ["line_number,pwned_count,password"; "1,,"; "2,,"]
  /\ csvExport false (results run)
     = "line_number,pwned_count" +:+ String Js.LF ("1," +:+ String Js.LF "2,").
Proof. vm_compute. auto. Qed.



(** C7 as stated fails: the suffixes of a lower-case body are kept in
    lower case, and the digest of [password], listed in that body, is
    reported as not found. *)
Lemma lower_case_suffix_does_not_match :
  parseResponse Examples.rangeOfPasswordLower
  = [CacheEntry.make "0018a45c4d1def81644b54ab7f969b88d65" (Js.Num 10);
     CacheEntry.make "1e4c9b93f3f0682250b6cf8331b7ee68fd8" (Js.Num 3730471)]
  /\ suffixOf Sha1.sha1 "password" = "1E4C9B93F3F0682250B6CF8331B7EE68FD8"
  /\ (checkPassword Sha1.sha1 (Examples.answering Examples.rangeOfPasswordLower)
        "password" (world start)).1 = Resolved (Js.Num 0)
  /\ (checkPassword Sha1.sha1 (Examples.answering Examples.rangeOfPassword)
        "password" (world start)).1 = Resolved (Js.Num 3730471).
Proof. vm_compute. auto. Qed.

Lemma no_CR_no_crlf (line : string) :
  forallb (fun c => negb (Ascii.eqb c Js.CR)) (list_ascii_of_string line) = true ->
  ~ occursIn CRLF line.
Proof.
  intros Hfree (before & after & ->).
  induction before as [| c before IH]; simpl in Hfree.
  - discriminate.
  - apply andb_true_iff in Hfree as [_ Hfree]. now apply IH.
Qed.

Lemma response_parsed_line_by_line_witness :
  let lines := ["0018A45C4D1DEF81644B54AB7F969B88D65:10"; "  "; "";
                "1e4c9b93f3f0682250b6cf8331b7ee68fd8:3730471"; ""] in
  parseResponse (Js.join CRLF lines)
  = [CacheEntry.make "0018A45C4D1DEF81644B54AB7F969B88D65" (Js.Num 10);
     CacheEntry.make "1e4c9b93f3f0682250b6cf8331b7ee68fd8" (Js.Num 3730471)].
Proof.
  intros lines.
  destruct (response_parsed_line_by_line lines) as [Hparsed _].
  - subst lines. repeat constructor; apply no_CR_no_crlf; vm_compute; reflexivity.
  - rewrite Hparsed. vm_compute. reflexivity.
Defined.

(** C8 as stated fails: both entries find their prefix absent and send a
    request, both requests fail, and no delay follows either of them. *)
Lemma failed_query_is_not_followed_by_delay :
  let entries := [Examples.entry "password" 1; Examples.entry "hunter2" 2] in
  let run := main Sha1.sha1 Examples.unreachable entries in
  hashCache (world start) !! prefixOf Sha1.sha1 "password" = None
  /\ events (world run) = [HttpsGet (requestFor "5BAA6"); HttpsGet (requestFor "F3BBB")]
  /\ delays (events (world run)) = [].
Proof. vm_compute. auto. Qed.

(** A run with a hit, a miss and a failure. *)
Example mixed_run :
  let remote := Examples.failingOnce Examples.rangeOfPassword in
  let run := main Sha1.sha1 remote
               [Examples.entry "hunter2" 1; Examples.entry "password" 2;
                Examples.entry "password" 5] in
  results run
  = [Result.make "hunter2" (Js.Num (-1)) 1 (Error "socket hang up");
     Result.make "password" (Js.Num 3730471) 2 (Pwned (Js.Num 3730471));
     Result.make "password" (Js.Num 3730471) 5 (Pwned (Js.Num 3730471))]
  /\ events (world run)
     = [HttpsGet (requestFor "F3BBB"); HttpsGet (requestFor "5BAA6"); Delay 100]
  /\ (checkedCount run, cachedCount run, pwnedCount run) = (1%nat, 1%nat, 2%nat)
  /\ csvLines true (results run)
     = ["line_number,pwned_count,password"; "1,,"; "2,3730471,password";
        "5,3730471,password"].
Proof. vm_compute. auto. Qed.

(** ** Reading the input file *)

#[local] Arguments Js.substring_to : simpl nomatch.
#[local] Arguments Js.substring_from : simpl nomatch.

Lemma indexOf_bounds (c : ascii) (s : string) (from found : nat) :
  Js.indexOf c s from = Some found ->
  (from <= found < String.length s)%nat /\ Js.charAt found s = Some c.
Proof.
  revert from found. induction s as [| x s IH]; intros from found H; [discriminate |].
  simpl in H. destruct from as [| from].
  - destruct (Ascii.eqb_spec x c) as [-> |].
    + injection H as <-. simpl. split; [lia | reflexivity].
    + destruct (Js.indexOf c s 0) as [k |] eqn:Hk; [| discriminate].
      injection H as <-. apply IH in Hk as [Hk Hc]. simpl. split; [lia | exact Hc].
  - destruct (Js.indexOf c s from) as [k |] eqn:Hk; [| discriminate].
    injection H as <-. apply IH in Hk as [Hk Hc]. simpl. split; [lia | exact Hc].
Qed.

(** The loop never needs more iterations than the line has code units. *)
Lemma closingQuoteLoop_fuel (fuel : nat) (line : string) (e : nat) :
  (String.length line - e < fuel)%nat ->
  closingQuoteLoop fuel line e <> OutOfFuel.
Proof.
  revert e. induction fuel as [| fuel IH]; intros e Hfuel; [lia |].
  simpl. destruct (Nat.ltb_spec e (String.length line)); [| discriminate].
  destruct (Js.indexOf Js.DQUOTE line e) as [found |] eqn:Hfound; [| discriminate].
  apply indexOf_bounds in Hfound as [Hfound _].
  destruct (Js.charAt (found + 1) line) as [c |]; [| discriminate].
  destruct (Ascii.eqb c Js.DQUOTE); [| discriminate].
  apply IH. lia.
Qed.

Lemma quotedPassword_fuel (line : string) :
  line <> EmptyString ->
  closingQuoteLoop (String.length line) line 1 <> OutOfFuel.
Proof.
  intros Hline. apply closingQuoteLoop_fuel.
  destruct line; [contradiction | simpl; lia].
Qed.

(** *** Code units are taken from the line, never made up *)

Lemma charsWithin_refl (s : string) : charsWithin s s.
Proof. intros c H. exact H. Qed.

Lemma charsWithin_trans (a b c : string) :
  charsWithin a b -> charsWithin b c -> charsWithin a c.
Proof. intros Hab Hbc x H. apply Hbc, Hab, H. Qed.

Lemma charsWithin_cons (c : ascii) (a b : string) :
  charsWithin a b -> charsWithin (String c a) (String c b).
Proof. intros H x [<- | Hx]; simpl; [now left | right; now apply H]. Qed.

Lemma charsWithin_tail (c : ascii) (a b : string) :
  charsWithin a b -> charsWithin a (String c b).
Proof. intros H x Hx. right. now apply H. Qed.

Lemma trimStart_within (s : string) : charsWithin (Js.trimStart s) s.
Proof.
  induction s as [| c s IH]; simpl; [apply charsWithin_refl |].
  destruct (Js.isWhiteSpace c); [now apply charsWithin_tail | apply charsWithin_refl].
Qed.

Lemma trimEnd_within (s : string) : charsWithin (Js.trimEnd s) s.
Proof.
  induction s as [| c s IH]; simpl; [apply charsWithin_refl |].
  destruct (Js.trimEnd s) as [| c' t].
  - destruct (Js.isWhiteSpace c); intros x Hx; [contradiction |].
    destruct Hx as [<- | []]. now left.
  - now apply charsWithin_cons.
Qed.

Lemma trim_within (s : string) : charsWithin (Js.trim s) s.
Proof.
  unfold Js.trim. eapply charsWithin_trans; [apply trimEnd_within | apply trimStart_within].
Qed.

Lemma substring_from_within (n : nat) (s : string) : charsWithin (Js.substring_from n s) s.
Proof.
  revert s. induction n as [| n IH]; intros [| c s]; try apply charsWithin_refl.
  simpl. apply charsWithin_tail, IH.
Qed.

Lemma substring_to_within (n : nat) (s : string) : charsWithin (Js.substring_to n s) s.
Proof.
  revert s. induction n as [| n IH]; intros [| c s]; try solve [intros x []].
  simpl. apply charsWithin_cons, IH.
Qed.

Lemma substring_within (a b : nat) (s : string) : charsWithin (Js.substring a b s) s.
Proof.
  unfold Js.substring.
  eapply charsWithin_trans; [apply substring_to_within | apply substring_from_within].
Qed.

Lemma undoubleQuotes_step (c c' : ascii) (s : string) :
  Js.undoubleQuotes (String c (String c' s))
  = if Ascii.eqb c Js.DQUOTE && Ascii.eqb c' Js.DQUOTE
    then String Js.DQUOTE (Js.undoubleQuotes s)
    else String c (Js.undoubleQuotes (String c' s)).
Proof. reflexivity. Qed.

Lemma undoubleQuotes_within (s : string) : charsWithin (Js.undoubleQuotes s) s.
Proof.
  assert (H : forall n s, (String.length s <= n)%nat -> charsWithin (Js.undoubleQuotes s) s).
  { clear s. induction n as [| n IH]; intros [| c [| c' s]] Hlen;
      try apply charsWithin_refl; try (simpl in Hlen; lia).
    rewrite undoubleQuotes_step.
    destruct (Ascii.eqb_spec c Js.DQUOTE) as [-> |]; simpl andb.
    - destruct (Ascii.eqb_spec c' Js.DQUOTE) as [-> |].
      + apply charsWithin_cons, charsWithin_tail, IH. simpl in Hlen. lia.
      + apply charsWithin_cons, IH. simpl in *. lia.
    - apply charsWithin_cons, IH. simpl in *. lia. }
  now apply (H (String.length s)).
Qed.

Lemma split_on_pieces (sep : ascii) (s piece : string) :
  In piece (Js.split_on sep s) ->
  charsWithin piece s /\ ~ In sep (list_ascii_of_string piece).
Proof.
  revert piece. induction s as [| c s IH]; intros piece Hin; simpl in Hin.
  - destruct Hin as [<- | []]. split; [apply charsWithin_refl | intros []].
  - destruct (Ascii.eqb_spec c sep) as [-> | Hne].
    + destruct Hin as [<- | Hin]; [split; [intros x [] | intros []] |].
      apply IH in Hin as [Hw Hs]. split; [now apply charsWithin_tail | exact Hs].
    + destruct (Js.split_on sep s) as [| first others] eqn:Hsplit.
      * destruct Hin as [<- | []]. split.
        -- intros x [<- | []]. now left.
        -- intros [Heq | []]. congruence.
      * destruct Hin as [<- | Hin].
        -- destruct (IH first (or_introl eq_refl)) as [Hw Hs]. split.
           ++ now apply charsWithin_cons.
           ++ intros [Heq | Hin]; [congruence | contradiction].
        -- destruct (IH piece (or_intror Hin)) as [Hw Hs].
           split; [now apply charsWithin_tail | exact Hs].
Qed.

Lemma split_on_nonempty (sep : ascii) (s : string) : Js.split_on sep s <> [].
Proof.
  destruct s as [| c s]; simpl; [discriminate |].
  destruct (Ascii.eqb c sep); [discriminate |].
  destruct (Js.split_on sep s); discriminate.
Qed.

Lemma first_piece_within (sep : ascii) (s : string) :
  charsWithin (nth 0 (Js.split_on sep s) EmptyString) s
  /\ ~ In sep (list_ascii_of_string (nth 0 (Js.split_on sep s) EmptyString)).
Proof.
  apply split_on_pieces. pose proof (split_on_nonempty sep s) as Hne.
  destruct (Js.split_on sep s); [contradiction | now left].
Qed.

Lemma closingQuoteLoop_within (fuel : nat) (line : string) (e : nat) (password : string) :
  closingQuoteLoop fuel line e = Left (Some password) -> charsWithin password line.
Proof.
  revert e. induction fuel as [| fuel IH]; intros e H; [discriminate |].
  simpl in H. destruct (e <? String.length line)%nat; [| discriminate].
  destruct (Js.indexOf Js.DQUOTE line e) as [found |].
  - assert (Hclose : charsWithin (Js.undoubleQuotes (Js.substring 1 found line)) line).
    { eapply charsWithin_trans; [apply undoubleQuotes_within | apply substring_within]. }
    destruct (Js.charAt (found + 1) line) as [c |].
    + destruct (Ascii.eqb c Js.DQUOTE); [now apply IH in H |].
      injection H as <-. exact Hclose.
    + injection H as <-. exact Hclose.
  - injection H as <-. apply substring_from_within.
Qed.

Lemma quotedPassword_within (line : string) : charsWithin (quotedPassword line) line.
Proof.
  unfold quotedPassword.
  destruct (closingQuoteLoop _ line 1) as [| [password |]] eqn:Hloop;
    try apply substring_from_within.
  destruct (Js.truthy password); [| apply substring_from_within].
  now apply closingQuoteLoop_within in Hloop.
Qed.

(** Whatever the mode, the password is made of code units of its line. *)
Lemma passwordOfLine_within (isCSV : bool) (line : string) :
  charsWithin (passwordOfLine isCSV line) line.
Proof.
  unfold passwordOfLine. destruct isCSV; [| apply charsWithin_refl].
  destruct (Js.startsWith _ line); [apply quotedPassword_within | apply first_piece_within].
Qed.

Lemma truthy_nonempty (s : string) : Js.truthy s = true <-> s <> EmptyString.
Proof. destruct s; simpl; split; congruence. Qed.

(** *** The entries of a file *)

(** What [forEachLine] pushes, line by line. *)
Lemma forEachLine_entries (isCSV : bool) (index : nat) (lines : list string)
      (entry : PasswordEntry.t) :
  In entry (forEachLine isCSV index lines)
  <-> exists i line,
      lines !! i = Some line
      /\ Js.trim line <> EmptyString
      /\ PasswordEntry.password entry = passwordOfLine isCSV (Js.trim line)
      /\ PasswordEntry.password entry <> EmptyString
      /\ PasswordEntry.originalLineNumber entry = (Z.of_nat (index + i) + 1)%Z.
Proof.
  revert index. induction lines as [| line lines IH]; intros index; simpl.
  - split; [intros [] | intros (i & l & H & _)]. now rewrite lookup_nil in H.
  - rewrite in_app_iff, IH. split.
    + intros [Hhere | (i & l & Hl & Hrest)].
      * destruct (Js.truthy (Js.trim line)) eqn:Hline; [| contradiction].
        destruct (Js.truthy (passwordOfLine isCSV (Js.trim line))) eqn:Hpw; [| contradiction].
        destruct Hhere as [<- | []]. exists 0%nat, line. simpl.
        apply truthy_nonempty in Hline, Hpw. rewrite Nat.add_0_r. auto.
      * exists (S i), l. simpl. replace (index + S i)%nat with (S index + i)%nat by lia.
        auto.
    + intros (i & l & Hl & Hline & Hpw & Hne & Hnum). destruct i as [| i]; simpl in Hl.
      * injection Hl as <-. left.
        apply truthy_nonempty in Hline. rewrite Hline.
        rewrite Hpw in Hne. apply truthy_nonempty in Hne. rewrite Hne.
        left. destruct entry as [p k]. simpl in *. f_equal; [congruence |].
        rewrite Hnum. f_equal. lia.
      * right. exists i, l. replace (S index + i)%nat with (index + S i)%nat by lia. auto.
Qed.

(** The line numbers go up strictly, from above [index]. *)
Lemma forEachLine_numbers (isCSV : bool) (index : nat) (lines : list string) :
  Forall (fun entry => (Z.of_nat index < PasswordEntry.originalLineNumber entry)%Z)
    (forEachLine isCSV index lines)
  /\ forall i j first second,
      (i < j)%nat ->
      forEachLine isCSV index lines !! i = Some first ->
      forEachLine isCSV index lines !! j = Some second ->
      (PasswordEntry.originalLineNumber first < PasswordEntry.originalLineNumber second)%Z.
Proof.
  revert index. induction lines as [| line lines IH]; intros index.
  - split; [constructor | intros i j first second _ H]. simpl in H. now rewrite lookup_nil in H.
  - destruct (IH (S index)) as [Hlow Hsorted]. cbn [forEachLine].
    assert (Hlow' : Forall (fun entry =>
                       (Z.of_nat index < PasswordEntry.originalLineNumber entry)%Z)
                     (forEachLine isCSV (S index) lines)).
    { eapply Forall_impl; [exact Hlow |]. intros e He. simpl in He. lia. }
    destruct (Js.truthy (Js.trim line)); [| exact (conj Hlow' Hsorted)].
    destruct (Js.truthy (passwordOfLine isCSV (Js.trim line)));
      [| exact (conj Hlow' Hsorted)].
    split.
    + constructor; [simpl; lia | exact Hlow'].
    + intros i j first second Hij Hi Hj. destruct j as [| j]; [lia |].
      simpl in Hj. destruct i as [| i].
      * injection Hi as <-. simpl.
        rewrite Forall_forall in Hlow. apply list_elem_of_lookup_2 in Hj.
        apply Hlow in Hj. lia.
      * simpl in Hi. apply (Hsorted i j); [lia | assumption | assumption].
Qed.

Lemma parseInputFile_entry_facts (filePath content : string) (entry : PasswordEntry.t) :
  In entry (parseInputFile filePath content) ->
  PasswordEntry.password entry <> EmptyString
  /\ ~ In Js.LF (list_ascii_of_string (PasswordEntry.password entry))
  /\ (1 <= PasswordEntry.originalLineNumber entry
       <= Z.of_nat (length (Js.split_on Js.LF content)))%Z.
Proof.
  intros Hin.
  apply forEachLine_entries in Hin as (i & line & Hline & _ & Hpw & Hne & Hnum).
  split; [exact Hne |]. split.
  - intros Hlf. rewrite Hpw in Hlf.
    apply passwordOfLine_within, trim_within in Hlf.
    apply list_elem_of_lookup_2, list_elem_of_In, split_on_pieces in Hline as [_ Hfree].
    contradiction.
  - apply lookup_lt_Some in Hline. rewrite Hnum. simpl. lia.
Qed.

(** X1. Whatever the name and the text of the input file, every entry that
    [parseInputFile] returns has a password that is not empty and holds no
    line feed, and a line number between 1 and the number of lines of the
    text. The entries come in the order of the file, with strictly
    increasing line numbers, so no line yields two entries. *)
Theorem parseInputFile_entries_wellformed (filePath content : string) :
  let entries := parseInputFile filePath content in
  let lineCount := length (Js.split_on Js.LF content) in
  Forall (fun entry =>
            PasswordEntry.password entry <> EmptyString
            /\ ~ In Js.LF (list_ascii_of_string (PasswordEntry.password entry))
            /\ (1 <= PasswordEntry.originalLineNumber entry <= Z.of_nat lineCount)%Z)
    entries
  /\ forall i j first second,
      (i < j)%nat -> entries !! i = Some first -> entries !! j = Some second ->
      (PasswordEntry.originalLineNumber first < PasswordEntry.originalLineNumber second)%Z.
Proof.
  intros entries lineCount. split; [| apply forEachLine_numbers].
  apply Forall_forall. intros entry Hin. apply list_elem_of_In in Hin.
  now apply (parseInputFile_entry_facts filePath content).
Qed.

Lemma passwordOfLine_plain (line : string) : passwordOfLine false line = line.
Proof. reflexivity. Qed.

(** X2. For a file whose name does not end in .csv the entries are exactly
    the lines that are not blank: a password is read under a line number if
    and only if the text has a line at that place, the password is that
    line trimmed, and it is not empty. *)
Theorem plain_text_entries (filePath content password : string) (number : Z) :
  isCsvPath filePath = false ->
  In (PasswordEntry.make password number) (parseInputFile filePath content)
  <-> exists line,
      Js.split_on Js.LF content !! Z.to_nat (number - 1) = Some line
      /\ (1 <= number)%Z
      /\ password = Js.trim line
      /\ password <> EmptyString.
Proof.
  intros Hplain. unfold parseInputFile. rewrite Hplain, forEachLine_entries. simpl.
  split.
  - intros (i & line & Hline & Hne & Hpw & _ & Hnum). exists line.
    rewrite Hnum. replace (Z.to_nat (Z.of_nat i + 1 - 1)) with i by lia.
    repeat split; [exact Hline | lia | exact Hpw | now rewrite Hpw].
  - intros (line & Hline & Hnum & Hpw & Hne). exists (Z.to_nat (number - 1)), line.
    repeat split; [exact Hline | now rewrite <- Hpw | exact Hpw | exact Hne | lia].
Qed.

Lemma plain_text_entries_witness :
  let content := "  hunter2 " +:+ String Js.LF (String Js.LF "letmein") in
  In (PasswordEntry.make "letmein" 3) (parseInputFile "passwords.txt" content)
  <-> exists line,
      Js.split_on Js.LF content !! Z.to_nat (3 - 1) = Some line
      /\ (1 <= 3)%Z /\ "letmein" = Js.trim line /\ "letmein" <> EmptyString.
Proof.
  exact (plain_text_entries "passwords.txt" _ "letmein" 3 ltac:(vm_compute; reflexivity)).
Defined.

(** *** Indices in a line built from parts *)

Lemma indexOf_app_skip (c : ascii) (before s : string) (k : nat) :
  Js.indexOf c (before +:+ s) (String.length before + k)
  = option_map (fun i => (String.length before + i)%nat) (Js.indexOf c s k).
Proof.
  induction before as [| x before IH]; simpl.
  - now destruct (Js.indexOf c s k).
  - rewrite IH. now destruct (Js.indexOf c s k).
Qed.

Lemma indexOf_first (c : ascii) (run after : string) :
  ~ In c (list_ascii_of_string run) ->
  Js.indexOf c (run +:+ String c after) 0 = Some (String.length run).
Proof.
  induction run as [| x run IH]; intros Hfree; simpl.
  - now rewrite Ascii.eqb_refl.
  - simpl in Hfree. destruct (Ascii.eqb_spec x c) as [-> |]; [tauto |].
    rewrite IH by tauto. reflexivity.
Qed.

Lemma indexOf_none (c : ascii) (s : string) (from : nat) :
  ~ In c (list_ascii_of_string s) -> Js.indexOf c s from = None.
Proof.
  revert from. induction s as [| x s IH]; intros from Hfree; [reflexivity |].
  simpl in *. destruct from as [| from].
  - destruct (Ascii.eqb_spec x c) as [-> |]; [tauto |]. rewrite IH by tauto. reflexivity.
  - rewrite IH by tauto. reflexivity.
Qed.

Lemma charAt_app (before s : string) (k : nat) :
  Js.charAt (String.length before + k) (before +:+ s) = Js.charAt k s.
Proof.
  induction before as [| x before IH]; simpl; [| exact IH].
  destruct s, k; reflexivity.
Qed.

Lemma substring_from_app (before s : string) :
  Js.substring_from (String.length before) (before +:+ s) = s.
Proof. induction before as [| x before IH]; simpl; [now destruct s | exact IH]. Qed.

Lemma substring_to_app (s after : string) :
  Js.substring_to (String.length s) (s +:+ after) = s.
Proof. induction s as [| x s IH]; simpl; [now destruct after | now rewrite IH]. Qed.

(** The reader's [replace] undoes the writer's. *)
Lemma undoubleQuotes_doubleQuotes (s : string) :
  Js.undoubleQuotes (Js.doubleQuotes s) = s.
Proof.
  induction s as [| c s IH]; [reflexivity |]. simpl Js.doubleQuotes.
  destruct (Ascii.eqb_spec c Js.DQUOTE) as [-> | Hne].
  - rewrite undoubleQuotes_step. simpl. now rewrite IH.
  - destruct (Js.doubleQuotes s) as [| c' t] eqn:Ht.
    + simpl in *. now rewrite <- IH.
    + rewrite undoubleQuotes_step, IH.
      apply Ascii.eqb_neq in Hne. now rewrite Hne.
Qed.

Lemma doubleQuotes_app (a b : string) :
  Js.doubleQuotes (a +:+ b) = Js.doubleQuotes a +:+ Js.doubleQuotes b.
Proof.
  induction a as [| c a IH]; simpl; [reflexivity |].
  destruct (Ascii.eqb c Js.DQUOTE); simpl; now rewrite IH.
Qed.

Lemma doubleQuotes_free (a : string) :
  ~ In Js.DQUOTE (list_ascii_of_string a) -> Js.doubleQuotes a = a.
Proof.
  induction a as [| c a IH]; intros Hfree; simpl in *; [reflexivity |].
  destruct (Ascii.eqb_spec c Js.DQUOTE) as [-> |]; [tauto |]. now rewrite IH by tauto.
Qed.

Lemma indexOf_run (c : ascii) (before run after : string) :
  ~ In c (list_ascii_of_string run) ->
  Js.indexOf c (before +:+ run +:+ String c after) (String.length before)
  = Some (String.length before + String.length run)%nat.
Proof.
  intros Hrun. rewrite <- (Nat.add_0_r (String.length before)) at 1.
  now rewrite indexOf_app_skip, indexOf_first.
Qed.

Lemma charAt_after_run (c : ascii) (before run after : string) (k : nat) :
  Js.charAt (String.length before + String.length run + 1 + k)
    (before +:+ run +:+ String c after)
  = Js.charAt k after.
Proof.
  replace (String.length before + String.length run + 1 + k)%nat
    with (String.length before + (String.length run + (1 + k)))%nat by lia.
  rewrite !charAt_app. reflexivity.
Qed.

Lemma substring_between (before s after : string) :
  Js.substring (String.length before) (String.length before + String.length s)
    (before +:+ s +:+ after) = s.
Proof.
  unfold Js.substring.
  rewrite Nat.min_l, Nat.max_r by lia.
  rewrite substring_from_app.
  replace (String.length before + String.length s - String.length before)%nat
    with (String.length s) by lia.
  apply substring_to_app.
Qed.

Lemma closingQuoteLoop_step (fuel : nat) (line : string) (e : nat) :
  closingQuoteLoop (S fuel) line e
  = if (e <? String.length line)%nat
    then
      match Js.indexOf Js.DQUOTE line e with
      | None => Left (Some (Js.substring_from 1 line))
      | Some found =>
          match Js.charAt (found + 1) line with
          | Some c =>
              if Ascii.eqb c Js.DQUOTE
              then closingQuoteLoop fuel line (found + 2)
              else Left (Some (Js.undoubleQuotes (Js.substring 1 found line)))
          | None => Left (Some (Js.undoubleQuotes (Js.substring 1 found line)))
          end
      end
    else Left None.
Proof. reflexivity. Qed.

Lemma not_in_snoc (c x : ascii) (run : string) :
  ~ In c (list_ascii_of_string run) -> x <> c ->
  ~ In c (list_ascii_of_string (run +:+ String x EmptyString)).
Proof.
  intros Hrun Hne. induction run as [| y run IH]; simpl in *.
  - intros [H | []]. congruence.
  - intros [H | H]; [tauto | apply IH; tauto].
Qed.

(** The loop over a line made of a beginning, a field with its quotes
    doubled, a closing quote and a rest that does not start with a quote:
    started at the beginning of a stretch without quotes, it leaves with
    the text between index 1 and the closing quote, undoubled. *)
Lemma closingQuoteLoop_closes (field rest : string) :
  Js.startsWith (String Js.DQUOTE EmptyString) rest = false ->
  forall (fuel : nat) (before run : string),
    ~ In Js.DQUOTE (list_ascii_of_string run) ->
    (String.length
       (before +:+ run +:+ Js.doubleQuotes field +:+ String Js.DQUOTE rest)
     - String.length before < fuel)%nat ->
    closingQuoteLoop fuel
      (before +:+ run +:+ Js.doubleQuotes field +:+ String Js.DQUOTE rest)
      (String.length before)
    = Left (Some (Js.undoubleQuotes
                    (Js.substring 1
                       (String.length before + String.length run
                        + String.length (Js.doubleQuotes field))
                       (before +:+ run +:+ Js.doubleQuotes field
                        +:+ String Js.DQUOTE rest)))).
Proof.
  intros Hrest. induction field as [| c field IH]; intros fuel before run Hrun Hfuel.
  - (* the closing quote is the next quote *)
    destruct fuel as [| fuel]; [lia |].
    change (Js.doubleQuotes EmptyString +:+ String Js.DQUOTE rest)
      with (String Js.DQUOTE rest) in *.
    rewrite closingQuoteLoop_step, indexOf_run by exact Hrun.
    assert (Hlt : (String.length before
                   <? String.length (before +:+ run +:+ String Js.DQUOTE rest))%nat = true).
    { apply Nat.ltb_lt. rewrite !string_app_length. simpl. lia. }
    rewrite Hlt.
    rewrite <- (Nat.add_0_r (String.length before + String.length run + 1)).
    rewrite charAt_after_run. simpl String.length. rewrite Nat.add_0_r.
    destruct rest as [| r rest]; [reflexivity |].
    cbn [Js.charAt].
    destruct (Ascii.eqb_spec r Js.DQUOTE) as [-> |]; [discriminate | reflexivity].
  - destruct (Ascii.eqb_spec c Js.DQUOTE) as [-> | Hne].
    + (* a doubled quote: the loop steps over it *)
      destruct fuel as [| fuel]; [lia |].
      assert (Hdouble : Js.doubleQuotes (String Js.DQUOTE field)
                        = String Js.DQUOTE (String Js.DQUOTE (Js.doubleQuotes field))).
      { reflexivity. }
      rewrite Hdouble in *.
      change (String Js.DQUOTE (String Js.DQUOTE (Js.doubleQuotes field))
              +:+ String Js.DQUOTE rest)
        with (String Js.DQUOTE
                (String Js.DQUOTE (Js.doubleQuotes field +:+ String Js.DQUOTE rest))) in *.
      rewrite closingQuoteLoop_step, indexOf_run by exact Hrun.
      assert (Hlt : (String.length before
                     <? String.length
                          (before +:+ run
                           +:+ String Js.DQUOTE
                                 (String Js.DQUOTE
                                    (Js.doubleQuotes field +:+ String Js.DQUOTE rest))))%nat
                    = true).
      { apply Nat.ltb_lt. rewrite !string_app_length. simpl. lia. }
      rewrite Hlt.
      rewrite <- (Nat.add_0_r (String.length before + String.length run + 1)).
      rewrite charAt_after_run. cbn [Js.charAt].
      change (Ascii.eqb Js.DQUOTE Js.DQUOTE) with true. cbv iota.
      pose (before' := before +:+ run +:+ String Js.DQUOTE (String Js.DQUOTE EmptyString)).
      assert (Hline : before +:+ run
                      +:+ String Js.DQUOTE
                            (String Js.DQUOTE (Js.doubleQuotes field +:+ String Js.DQUOTE rest))
                      = before' +:+ EmptyString +:+ Js.doubleQuotes field
                        +:+ String Js.DQUOTE rest).
      { subst before'. now rewrite !string_app_assoc. }
      assert (Hlen : String.length before' = (String.length before + String.length run + 2)%nat).
      { subst before'. rewrite !string_app_length. simpl. lia. }
      rewrite Hline in *.
      replace (String.length before + String.length run + 2)%nat
        with (String.length before') by lia.
      rewrite (IH fuel before' EmptyString);
        [| intros [] | rewrite string_app_length in *; lia].
      do 3 f_equal. apply (f_equal (fun n => Js.substring 1 n _)).
      rewrite Hlen. simpl. lia.
    + (* any other code unit joins the stretch without quotes *)
      assert (Hsingle : Js.doubleQuotes (String c field) = String c (Js.doubleQuotes field)).
      { simpl. apply Ascii.eqb_neq in Hne. now rewrite Hne. }
      rewrite Hsingle in *.
      assert (Hline : before +:+ run
                      +:+ String c (Js.doubleQuotes field) +:+ String Js.DQUOTE rest
                      = before +:+ (run +:+ String c EmptyString)
                        +:+ Js.doubleQuotes field +:+ String Js.DQUOTE rest).
      { now rewrite !string_app_assoc. }
      rewrite Hline in *.
      rewrite (IH fuel before (run +:+ String c EmptyString));
        [| now apply not_in_snoc | exact Hfuel].
      do 3 f_equal. apply (f_equal (fun n => Js.substring 1 n _)).
      rewrite string_app_length. simpl. lia.
Qed.

(** *** Trimming a line that starts with a field *)

Lemma startsWith_char (c : ascii) (s : string) :
  Js.startsWith (String c EmptyString) s = true <-> exists rest, s = String c rest.
Proof.
  destruct s as [| x s]; cbn [Js.startsWith].
  - split; [discriminate | intros [rest H]; discriminate].
  - rewrite andb_true_r, Ascii.eqb_eq. split.
    + intros ->. now exists s.
    + intros [rest H]. congruence.
Qed.

Lemma startsWith_char_other (c x : ascii) (s : string) :
  c <> x -> Js.startsWith (String c EmptyString) (String x s) = false.
Proof.
  intros Hne. cbn [Js.startsWith]. rewrite andb_true_r. now apply Ascii.eqb_neq.
Qed.

Lemma string_app_nil_r (s : string) : s +:+ EmptyString = s.
Proof. induction s as [| c s IH]; simpl; [reflexivity | now rewrite IH]. Qed.

Lemma trimStart_app (field tail : string) :
  field <> EmptyString -> startsWithSpace field = false ->
  Js.trimStart (field +:+ tail) = field +:+ tail.
Proof.
  destruct field as [| c field]; [contradiction |]. simpl. now intros _ ->.
Qed.

Lemma trimEnd_app (field tail : string) :
  Js.trimEnd tail <> EmptyString ->
  Js.trimEnd (field +:+ tail) = field +:+ Js.trimEnd tail.
Proof.
  intros Htail. induction field as [| c field IH]; [reflexivity |].
  simpl. rewrite IH. destruct (field +:+ Js.trimEnd tail) eqn:E; [| reflexivity].
  destruct field; simpl in E; [contradiction | discriminate].
Qed.

Lemma trimEnd_id (field : string) :
  endsWithSpace field = false -> Js.trimEnd field = field.
Proof.
  induction field as [| c field IH]; [reflexivity |]. intros Hend.
  destruct field as [| c' field].
  - simpl in *. now rewrite Hend.
  - change (endsWithSpace (String c (String c' field)))
      with (endsWithSpace (String c' field)) in Hend.
    change (Js.trimEnd (String c (String c' field)))
      with (match Js.trimEnd (String c' field) with
            | EmptyString => if Js.isWhiteSpace c then EmptyString else String c EmptyString
            | t => String c t
            end).
    now rewrite (IH Hend).
Qed.

Lemma endsWithSpace_snoc (s : string) (c : ascii) :
  endsWithSpace (s +:+ String c EmptyString) = Js.isWhiteSpace c.
Proof.
  induction s as [| x s IH]; [reflexivity |].
  destruct s as [| y s]; [reflexivity |]. exact IH.
Qed.

Lemma trimEnd_comma (rest : string) :
  exists rest', Js.trimEnd (String Js.COMMA rest) = String Js.COMMA rest'
                /\ charsWithin rest' rest.
Proof.
  pose proof (trimEnd_within rest) as Hw. simpl.
  destruct (Js.trimEnd rest) as [| c t].
  - exists EmptyString. split; [reflexivity | intros x []].
  - exists (String c t). split; [reflexivity | exact Hw].
Qed.

(** A line that starts with a field without white space at its ends keeps
    the field when trimmed, and what follows still is nothing or a comma
    and more. *)
Lemma trim_field_tail (field tail : string) :
  field <> EmptyString ->
  startsWithSpace field = false -> endsWithSpace field = false ->
  tail = EmptyString \/ Js.startsWith "," tail = true ->
  exists tail',
    Js.trim (field +:+ tail) = field +:+ tail'
    /\ (tail' = EmptyString \/ Js.startsWith "," tail' = true).
Proof.
  intros Hne Hstart Hend [-> | Htail]; unfold Js.trim;
    rewrite trimStart_app by assumption.
  - exists EmptyString. split; [| now left].
    rewrite string_app_nil_r. now apply trimEnd_id.
  - apply startsWith_char in Htail as [rest ->].
    destruct (trimEnd_comma rest) as (rest' & Hrest & _).
    exists (String Js.COMMA rest'). split.
    + change ","%char with Js.COMMA. rewrite trimEnd_app, Hrest; [reflexivity |].
      rewrite Hrest. discriminate.
    + right. apply startsWith_char. now exists rest'.
Qed.

(** *** Reading back what [escapeCsv] writes *)

Lemma quotedPassword_reads_field (field rest : string) :
  field <> EmptyString ->
  Js.startsWith (String Js.DQUOTE EmptyString) rest = false ->
  quotedPassword (String Js.DQUOTE (Js.doubleQuotes field +:+ String Js.DQUOTE rest))
  = field.
Proof.
  intros Hne Hrest. unfold quotedPassword.
  pose proof (closingQuoteLoop_closes field rest Hrest
                (String.length
                   (String Js.DQUOTE (Js.doubleQuotes field +:+ String Js.DQUOTE rest)))
                (String Js.DQUOTE EmptyString) EmptyString) as Hloop.
  cbn [String.append] in Hloop.
  change (String.length (String Js.DQUOTE EmptyString)) with 1%nat in Hloop.
  rewrite Hloop; [| intros [] | simpl; lia].
  pose proof (substring_between (String Js.DQUOTE EmptyString) (Js.doubleQuotes field)
                (String Js.DQUOTE rest)) as Hsub.
  cbn [String.append String.length] in Hsub.
  replace (1 + String.length EmptyString + String.length (Js.doubleQuotes field))%nat
    with (1 + String.length (Js.doubleQuotes field))%nat by (simpl; lia).
  rewrite Hsub, undoubleQuotes_doubleQuotes.
  apply truthy_nonempty in Hne. now rewrite Hne.
Qed.

Lemma needsQuoting_false_free (field : string) (c : ascii) :
  Js.needsQuoting field = false -> isCsvSpecial c ->
  ~ In c (list_ascii_of_string field).
Proof.
  intros Hfield Hc Hin.
  assert (H : Js.needsQuoting field = true) by (apply needsQuoting_iff; now exists c).
  congruence.
Qed.

Lemma escapeCsv_str (field : string) :
  escapeCsv (Js.Str field)
  = if Js.needsQuoting field
    then String Js.DQUOTE (Js.doubleQuotes field +:+ String Js.DQUOTE EmptyString)
    else field.
Proof. reflexivity. Qed.

(** The password read from a CSV line whose first column is a field as
    [escapeCsv] writes it. *)
Lemma passwordOfLine_reads_escaped (field tail : string) :
  readableField field ->
  tail = EmptyString \/ Js.startsWith "," tail = true ->
  Js.trim (escapeCsv (Js.Str field) +:+ tail) <> EmptyString
  /\ passwordOfLine true (Js.trim (escapeCsv (Js.Str field) +:+ tail)) = field.
Proof.
  intros (Hne & _ & Hshape) Htail. rewrite escapeCsv_str.
  destruct (Js.needsQuoting field) eqn:Hquote.
  - (* written between quotes *)
    destruct (trim_field_tail
                (String Js.DQUOTE (Js.doubleQuotes field +:+ String Js.DQUOTE EmptyString))
                tail) as (tail' & -> & Htail'); try assumption; try discriminate.
    { reflexivity. }
    { change (String Js.DQUOTE (Js.doubleQuotes field +:+ String Js.DQUOTE EmptyString))
        with ((String Js.DQUOTE (Js.doubleQuotes field)) +:+ String Js.DQUOTE EmptyString).
      apply endsWithSpace_snoc. }
    split; [discriminate |].
    cbn [String.append]. rewrite string_app_assoc. cbn [String.append].
    unfold passwordOfLine. cbn [Js.startsWith]. rewrite Ascii.eqb_refl. cbn [andb].
    apply quotedPassword_reads_field; [exact Hne |].
    destruct Htail' as [-> | Hcomma]; [reflexivity |].
    apply startsWith_char in Hcomma as [rest ->].
    apply startsWith_char_other. discriminate.
  - (* written as it is *)
    destruct Hshape as [Hq | [Hstart Hend]]; [discriminate |].
    destruct (trim_field_tail field tail) as (tail' & -> & Htail'); try assumption.
    split; [destruct field; [contradiction | discriminate] |].
    assert (Hnoquote : ~ In Js.DQUOTE (list_ascii_of_string field)).
    { apply needsQuoting_false_free; [exact Hquote | unfold isCsvSpecial; tauto]. }
    assert (Hnocomma : ~ In Js.COMMA (list_ascii_of_string field)).
    { apply needsQuoting_false_free; [exact Hquote | unfold isCsvSpecial; tauto]. }
    unfold passwordOfLine.
    assert (Hstarts : Js.startsWith (String Js.DQUOTE EmptyString) (field +:+ tail') = false).
    { destruct field as [| c field]; [contradiction |].
      apply startsWith_char_other. intros <-. apply Hnoquote. now left. }
    rewrite Hstarts.
    destruct Htail' as [-> | Hcomma].
    + rewrite string_app_nil_r, split_on_free by exact Hnocomma. reflexivity.
    + apply startsWith_char in Hcomma as [rest ->].
      change ","%char with Js.COMMA.
      rewrite split_on_cons by exact Hnocomma. reflexivity.
Qed.

Lemma split_on_join (sep : ascii) (pieces : list string) :
  pieces <> [] ->
  Forall (fun piece => ~ In sep (list_ascii_of_string piece)) pieces ->
  Js.split_on sep (Js.join (String sep EmptyString) pieces) = pieces.
Proof.
  intros Hne Hfree. induction Hfree as [| piece pieces Hpiece Hpieces IH]; [contradiction |].
  destruct pieces as [| piece' pieces].
  - now apply split_on_free.
  - change (Js.join (String sep EmptyString) (piece :: piece' :: pieces))
      with (piece +:+ String sep (Js.join (String sep EmptyString) (piece' :: pieces))).
    rewrite split_on_cons by exact Hpiece. f_equal. now apply IH.
Qed.

Lemma in_string_app (c : ascii) (a b : string) :
  In c (list_ascii_of_string (a +:+ b))
  <-> In c (list_ascii_of_string a) \/ In c (list_ascii_of_string b).
Proof.
  induction a as [| x a IH]; simpl; [tauto |]. rewrite IH. tauto.
Qed.

Lemma doubleQuotes_within (s : string) : charsWithin (Js.doubleQuotes s) s.
Proof.
  induction s as [| c s IH]; [apply charsWithin_refl |]. simpl.
  destruct (Ascii.eqb_spec c Js.DQUOTE) as [-> |].
  - intros x [<- | [<- | Hx]]; [now left | now left | right; now apply IH].
  - now apply charsWithin_cons.
Qed.

(** An escaped field has no line feed unless the field has one. *)
Lemma escapeCsv_no_line_feed (field : string) :
  ~ In Js.LF (list_ascii_of_string field) ->
  ~ In Js.LF (list_ascii_of_string (escapeCsv (Js.Str field))).
Proof.
  intros Hfree. rewrite escapeCsv_str.
  destruct (Js.needsQuoting field); [| exact Hfree].
  intros [Hq | Hin]; [discriminate |].
  apply in_string_app in Hin as [Hin | [Hq | []]]; [| discriminate].
  now apply doubleQuotes_within in Hin.
Qed.

Lemma forEachLine_reads_rows (index : nat) (rows : list (string * string)) :
  Forall (fun row => readableField row.1 /\ columnsAfter row.2) rows ->
  forEachLine true index (map (fun row => escapeCsv (Js.Str row.1) +:+ row.2) rows)
  = imap (fun i row => PasswordEntry.make row.1 (Z.of_nat (index + i) + 1)) rows.
Proof.
  intros Hrows. revert index.
  induction Hrows as [| [field tail] rows [Hfield [_ Htail]] _ IH]; intros index;
    [reflexivity |].
  cbn [fst snd] in Hfield, Htail.
  cbn [map forEachLine fst snd]. rewrite imap_cons.
  destruct (passwordOfLine_reads_escaped field tail Hfield Htail) as [Hline Hpw].
  apply truthy_nonempty in Hline. rewrite Hline, Hpw.
  destruct Hfield as [Hne _]. apply truthy_nonempty in Hne. rewrite Hne.
  cbn [app fst]. rewrite Nat.add_0_r. f_equal.
  rewrite IH. apply imap_ext. intros i row _. simpl. do 2 f_equal. lia.
Qed.

(** X3. Round trip with [escapeCsv]. For a file named .csv whose every line
    is a first column as [escapeCsv] writes it, followed by nothing or by a
    comma and further columns, [parseInputFile] returns the first columns
    as they were before escaping, each with the number of its line. The
    columns are those that [escapeCsv] quotes, and the unquoted ones that
    are not empty and have no white space at either end; none holds a line
    feed. *)
Theorem csv_first_column_round_trip (filePath : string) (rows : list (string * string)) :
  isCsvPath filePath = true ->
  Forall (fun row => readableField row.1 /\ columnsAfter row.2) rows ->
  parseInputFile filePath
    (Js.join (String Js.LF EmptyString)
       (map (fun row => escapeCsv (Js.Str row.1) +:+ row.2) rows))
  = imap (fun i row => PasswordEntry.make row.1 (Z.of_nat i + 1)) rows.
Proof.
  intros Hcsv Hrows. unfold parseInputFile. rewrite Hcsv.
  destruct rows as [| row rows]; [reflexivity |].
  rewrite split_on_join.
  - now rewrite forEachLine_reads_rows.
  - discriminate.
  - apply Forall_forall. intros line Hin.
    apply list_elem_of_In, in_map_iff in Hin as ([field tail] & <- & Hin).
    rewrite Forall_forall in Hrows. apply list_elem_of_In, Hrows in Hin.
    destruct Hin as [(_ & Hfield & _) [Htail _]]. simpl in *.
    intros Hlf. apply in_string_app in Hlf as [Hlf | Hlf]; [| contradiction].
    now apply escapeCsv_no_line_feed in Hlf.
Qed.

(** *** Lines with a quote that is not closed, with an empty quoted field *)

(** X4. A CSV line that opens with a double quote and holds no second one
    is read as everything after that quote, commas and further columns
    included, by both scripts. *)
Theorem unterminated_quote_takes_rest (rest : string) :
  ~ In Js.DQUOTE (list_ascii_of_string rest) ->
  passwordOfLine true (String Js.DQUOTE rest) = rest
  /\ CheckPwnedPasswordsInput.fieldOfLine (String Js.DQUOTE rest) = rest.
Proof.
  intros Hfree.
  assert (Hloop : closingQuoteLoop (String.length (String Js.DQUOTE rest))
                    (String Js.DQUOTE rest) 1
                  = match rest with
                    | EmptyString => Left None
                    | _ => Left (Some rest)
                    end).
  { destruct rest as [| c rest]; [reflexivity |].
    cbn [String.length]. rewrite closingQuoteLoop_step. cbn [String.length Nat.ltb Nat.leb].
    change (Js.indexOf Js.DQUOTE (String Js.DQUOTE (String c rest)) 1)
      with (option_map S (Js.indexOf Js.DQUOTE (String c rest) 0)).
    rewrite (indexOf_none _ _ 0 Hfree). reflexivity. }
  unfold passwordOfLine, CheckPwnedPasswordsInput.fieldOfLine, quotedPassword.
  cbn [Js.startsWith]. rewrite Ascii.eqb_refl. cbn [andb]. rewrite Hloop.
  destruct rest; split; reflexivity.
Qed.

Lemma unterminated_quote_takes_rest_witness :
  passwordOfLine true (String Js.DQUOTE "open sesame, 42") = "open sesame, 42"
  /\ CheckPwnedPasswordsInput.fieldOfLine (String Js.DQUOTE "open sesame, 42")
     = "open sesame, 42".
Proof.
  apply (unterminated_quote_takes_rest "open sesame, 42").
  vm_compute. intros H. repeat (destruct H as [H | H]; [discriminate |]). exact H.
Defined.

(** X5. The two scripts part on a CSV line that starts with an empty
    quoted field: two double quotes that no third one follows.
    [src/pwncheck.js] takes the empty field for no field, falls back to the
    line without its first character, and so reads a password that starts
    with a double quote and runs to the end of the line;
    [src/check-pwned-passwords.js] reads the empty field. *)
Theorem empty_quoted_field_differs (rest : string) :
  Js.startsWith (String Js.DQUOTE EmptyString) rest = false ->
  passwordOfLine true (String Js.DQUOTE (String Js.DQUOTE rest)) = String Js.DQUOTE rest
  /\ CheckPwnedPasswordsInput.fieldOfLine (String Js.DQUOTE (String Js.DQUOTE rest))
     = EmptyString.
Proof.
  intros Hrest.
  assert (Hloop : closingQuoteLoop
                    (String.length (String Js.DQUOTE (String Js.DQUOTE rest)))
                    (String Js.DQUOTE (String Js.DQUOTE rest)) 1
                  = Left (Some EmptyString)).
  { cbn [String.length]. rewrite closingQuoteLoop_step.
    cbn [String.length Nat.ltb Nat.leb Js.indexOf option_map].
    rewrite Ascii.eqb_refl. cbn [option_map Nat.add Js.charAt].
    destruct rest as [| c rest]; [reflexivity |].
    destruct (Ascii.eqb_spec c Js.DQUOTE) as [-> |]; [| reflexivity].
    cbn [Js.startsWith] in Hrest. rewrite Ascii.eqb_refl in Hrest. discriminate. }
  unfold passwordOfLine, CheckPwnedPasswordsInput.fieldOfLine, quotedPassword.
  cbn [Js.startsWith]. rewrite Ascii.eqb_refl. cbn [andb]. rewrite Hloop.
  split; reflexivity.
Qed.

Lemma empty_quoted_field_differs_witness :
  passwordOfLine true (String Js.DQUOTE (String Js.DQUOTE ",alice"))
  = String Js.DQUOTE ",alice"
  /\ CheckPwnedPasswordsInput.fieldOfLine (String Js.DQUOTE (String Js.DQUOTE ",alice"))
     = EmptyString.
Proof.
  apply (empty_quoted_field_differs ",alice"). reflexivity.
Defined.

(** *** The two scripts read the same passwords *)

Lemma undoubleQuotes_empty (s : string) :
  Js.undoubleQuotes s = EmptyString -> s = EmptyString.
Proof.
  destruct s as [| c [| c' s]]; [reflexivity | discriminate |].
  rewrite undoubleQuotes_step. destruct (_ && _); discriminate.
Qed.

Lemma substring_length (a b : nat) (s : string) :
  (a <= b <= String.length s)%nat ->
  String.length (Js.substring a b s) = (b - a)%nat.
Proof.
  intros Hab. unfold Js.substring.
  rewrite Nat.min_l, Nat.max_r, substring_to_length, substring_from_length by lia. lia.
Qed.

(** The loop leaves with an empty text only at its first step, on a
    quote at index 1 that no quote follows. *)
Lemma closingQuoteLoop_empty (fuel : nat) (line : string) (e : nat) :
  (1 <= e)%nat ->
  closingQuoteLoop fuel line e = Left (Some EmptyString) ->
  e = 1%nat
  /\ Js.charAt 1 line = Some Js.DQUOTE
  /\ Js.charAt 2 line <> Some Js.DQUOTE.
Proof.
  revert e. induction fuel as [| fuel IH]; intros e He H; [discriminate |].
  rewrite closingQuoteLoop_step in H.
  destruct (Nat.ltb_spec e (String.length line)) as [Hlt |]; [| discriminate].
  destruct (Js.indexOf Js.DQUOTE line e) as [found |] eqn:Hfound.
  - apply indexOf_bounds in Hfound as [Hbounds Hchar].
    assert (Hclose : Js.undoubleQuotes (Js.substring 1 found line) = EmptyString ->
                     found = 1%nat).
    { intros Hempty%undoubleQuotes_empty. apply (f_equal String.length) in Hempty.
      rewrite substring_length in Hempty by lia. simpl in Hempty. lia. }
    destruct (Js.charAt (found + 1) line) as [c |] eqn:Hnext.
    + destruct (Ascii.eqb_spec c Js.DQUOTE) as [-> | Hne].
      * apply IH in H; [lia | lia].
      * injection H as H. apply Hclose in H. subst found.
        assert (e = 1%nat) as -> by lia. change (1 + 1)%nat with 2%nat in Hnext.
        split; [reflexivity |]. split; [exact Hchar |]. rewrite Hnext. congruence.
    + injection H as H. apply Hclose in H. subst found.
      assert (e = 1%nat) as -> by lia. change (1 + 1)%nat with 2%nat in Hnext.
      split; [reflexivity |]. split; [exact Hchar |]. rewrite Hnext. discriminate.
  - injection H as H. apply (f_equal String.length) in H.
    rewrite substring_from_length in H. simpl in H. lia.
Qed.

(** On a line that does not start with an empty quoted field the two
    callbacks take the same text. *)
Lemma passwordOfLine_fieldOfLine (line : string) :
  startsWithEmptyQuotes line = false ->
  passwordOfLine true line = CheckPwnedPasswordsInput.fieldOfLine line.
Proof.
  intros Hshape. unfold passwordOfLine, CheckPwnedPasswordsInput.fieldOfLine, quotedPassword.
  destruct (Js.startsWith (String Js.DQUOTE EmptyString) line) eqn:Hquote; [| reflexivity].
  destruct (closingQuoteLoop _ line 1) as [| [[| c field] |]] eqn:Hloop; try reflexivity.
  exfalso. apply closingQuoteLoop_empty in Hloop as (_ & Hone & Htwo); [| lia].
  apply startsWith_char in Hquote as [rest ->].
  destruct rest as [| b rest]; [discriminate |].
  simpl in Hone. injection Hone as ->.
  cbn [startsWithEmptyQuotes] in Hshape. rewrite !Ascii.eqb_refl in Hshape.
  cbn [andb] in Hshape. apply negb_false_iff, startsWith_char in Hshape as [rest' ->].
  now apply Htwo.
Qed.

Lemma forEachLine_passwords_csv (index : nat) (lines : list string) :
  Forall (fun line => startsWithEmptyQuotes (Js.trim line) = false) lines ->
  map PasswordEntry.password (forEachLine true index lines)
  = List.filter Js.truthy
      (map CheckPwnedPasswordsInput.fieldOfLine
         (List.filter Js.truthy (map Js.trim lines))).
Proof.
  intros Hlines. revert index.
  induction Hlines as [| line lines Hline _ IH]; intros index; [reflexivity |].
  cbn [forEachLine map List.filter]. rewrite map_app, IH.
  rewrite (passwordOfLine_fieldOfLine _ Hline).
  destruct (Js.truthy (Js.trim line)); [| reflexivity].
  cbn [map List.filter].
  now destruct (Js.truthy (CheckPwnedPasswordsInput.fieldOfLine (Js.trim line))).
Qed.

Lemma forEachLine_passwords_plain (index : nat) (lines : list string) :
  map PasswordEntry.password (forEachLine false index lines)
  = List.filter Js.truthy (map Js.trim lines).
Proof.
  revert index. induction lines as [| line lines IH]; intros index; [reflexivity |].
  cbn [forEachLine map List.filter]. rewrite map_app, IH, passwordOfLine_plain.
  now destruct (Js.truthy (Js.trim line)).
Qed.

(** X6. Apart from such lines the two scripts read the same passwords in
    the same order: always for a file that is not CSV, and for a CSV file
    when no trimmed line starts with an empty quoted field. *)
Theorem scripts_read_same_passwords (filePath content : string) :
  (isCsvPath filePath = true ->
   Forall (fun line => startsWithEmptyQuotes (Js.trim line) = false)
     (Js.split_on Js.LF content)) ->
  CheckPwnedPasswordsInput.parseInputFile filePath content
  = map PasswordEntry.password (parseInputFile filePath content).
Proof.
  intros Hshape. unfold CheckPwnedPasswordsInput.parseInputFile, parseInputFile.
  destruct (isCsvPath filePath).
  - symmetry. now apply forEachLine_passwords_csv, Hshape.
  - symmetry. apply forEachLine_passwords_plain.
Qed.

(** ** The arguments of [main] *)

Lemma startsWith_app (p s : string) : Js.startsWith p (p +:+ s) = true.
Proof.
  induction p as [| c p IH]; [reflexivity |]. simpl. now rewrite Ascii.eqb_refl, IH.
Qed.

Lemma startsWith_longer (name : string) (c : ascii) :
  Js.startsWith (name +:+ String c EmptyString) name = false.
Proof.
  induction name as [| x name IH]; [reflexivity |]. simpl.
  now rewrite IH, andb_false_r.
Qed.

Lemma find_skip {A : Type} (test : A -> bool) (before after : list A) :
  Forall (fun x => test x = false) before ->
  List.find test (before ++ after) = List.find test after.
Proof.
  intros Hbefore. induction Hbefore as [| x before Hx _ IH]; [reflexivity |].
  simpl. now rewrite Hx.
Qed.

Lemma indexOfArray_skip (before after : list string) (x : string) :
  Forall (fun y => y <> x) before ->
  Js.indexOfArray (before ++ x :: after) x = Some (length before).
Proof.
  intros Hbefore. induction Hbefore as [| y before Hy _ IH]; simpl.
  - now rewrite String.eqb_refl.
  - apply String.eqb_neq in Hy. now rewrite Hy, IH.
Qed.

Lemma notFlag_test (name arg : string) :
  notFlag name arg ->
  String.eqb arg name || Js.startsWith (name +:+ "=") arg = false.
Proof. intros [Hname ->]. apply String.eqb_neq in Hname. now rewrite Hname. Qed.

Lemma getFlagValue_scan (name : string) (before : list string) :
  Forall (notFlag name) before ->
  getFlagValue before name = None
  /\ (forall value after,
        getFlagValue (before ++ (name +:+ "=" +:+ value) :: after) name = Some value)
  /\ (name <> EmptyString ->
      forall after,
        getFlagValue (before ++ name :: after) name
        = match after with
          | next :: _ =>
              if Js.truthy next && negb (Js.startsWith "--" next)
              then Some next else None
          | [] => None
          end).
Proof.
  intros Hbefore.
  assert (Htests : Forall (fun a => String.eqb a name
                                    || Js.startsWith (name +:+ "=") a = false) before).
  { eapply Forall_impl; [exact Hbefore |]. apply notFlag_test. }
  split; [| split].
  - unfold getFlagValue. rewrite <- (app_nil_r before), find_skip by exact Htests.
    reflexivity.
  - intros value after. unfold getFlagValue. rewrite find_skip by exact Htests.
    cbn [List.find]. rewrite <- string_app_assoc, startsWith_app, orb_true_r.
    assert (Htruthy : Js.truthy ((name +:+ "=") +:+ value) = true).
    { destruct name; reflexivity. }
    cbv beta iota zeta. rewrite Htruthy. cbn [negb]. cbv iota.
    now rewrite startsWith_app, substring_from_app.
  - intros Hname after. unfold getFlagValue. rewrite find_skip by exact Htests.
    cbn [List.find]. rewrite String.eqb_refl. cbn [orb]. cbv beta iota zeta.
    apply truthy_nonempty in Hname. rewrite Hname. cbn [negb]. cbv iota.
    rewrite startsWith_longer, indexOfArray_skip.
    + rewrite lookup_app_r by lia.
      replace (length before + 1 - length before)%nat with 1%nat by lia.
      now destruct after.
    + eapply Forall_impl; [exact Hbefore |]. now intros a [Ha _].
Qed.

(** X7. [getFlagValue] stops at the first argument that is the flag or
    starts with the flag and an equals sign; arguments before it that are
    neither are skipped, and without such an argument the result is [null].
    When the first match has the equals form the result is the text after
    the equals sign, whatever follows. When it is the bare flag the result
    is the next argument if there is one that is not empty and does not
    start with two dashes, and [null] otherwise. *)
Theorem getFlagValue_first_match (name : string) (before : list string) :
  Forall (notFlag name) before ->
  getFlagValue before name = None
  /\ (forall value after,
        getFlagValue (before ++ (name +:+ "=" +:+ value) :: after) name = Some value)
  /\ (name <> EmptyString ->
      forall after,
        getFlagValue (before ++ name :: after) name
        = match after with
          | next :: _ =>
              if Js.truthy next && negb (Js.startsWith "--" next)
              then Some next else None
          | [] => None
          end).
Proof. apply getFlagValue_scan. Qed.

Lemma getFlagValue_first_match_witness :
  getFlagValue ["in.txt"; "--export-csv"] "--export-file" = None
  /\ (forall value after,
        getFlagValue (["in.txt"; "--export-csv"]
                      ++ ("--export-file" +:+ "=" +:+ value) :: after) "--export-file"
        = Some value)
  /\ ("--export-file" <> EmptyString ->
      forall after,
        getFlagValue (["in.txt"; "--export-csv"] ++ "--export-file" :: after)
          "--export-file"
        = match after with
          | next :: _ =>
              if Js.truthy next && negb (Js.startsWith "--" next)
              then Some next else None
          | [] => None
          end).
Proof.
  apply (getFlagValue_first_match "--export-file" ["in.txt"; "--export-csv"]).
  repeat constructor; vm_compute; congruence.
Defined.

Lemma hasFlag_app (before after : list string) (name : string) :
  hasFlag (before ++ after) name = hasFlag before name || hasFlag after name.
Proof. unfold hasFlag. apply existsb_app. Qed.

(** X8. The value of --export-file given as an argument of its own is also
    a non-flag argument: when only flags come before it, [main] settles on
    it both as the input file and, with --export-csv, as the file the
    export is written to. *)
Theorem export_file_value_read_as_input (flags rest : list string) (value : string) :
  Forall (fun flag => Js.startsWith "--" flag = true /\ notFlag "--export-file" flag) flags ->
  value <> EmptyString -> Js.startsWith "--" value = false ->
  hasFlag (flags ++ rest) "--export-csv" = true ->
  exists options,
    startup (flags ++ "--export-file" :: value :: rest) = Ready options
    /\ fileArg options = value
    /\ exportTarget options = ExportFile value.
Proof.
  intros Hflags Hvalue Hplain Hcsv.
  assert (Hnon : nonFlagArgs (flags ++ "--export-file" :: value :: rest)
                 = value :: nonFlagArgs rest).
  { unfold nonFlagArgs. rewrite List.filter_app.
    assert (Hnone : List.filter (fun arg => negb (Js.startsWith "--" arg)) flags = []).
    { clear - Hflags. induction Hflags as [| f flags [Hf _] _ IH]; [reflexivity |].
      cbn [List.filter]. now rewrite Hf. }
    rewrite Hnone. cbn [app List.filter]. rewrite Hplain.
    reflexivity. }
  assert (Hget : getFlagValue (flags ++ "--export-file" :: value :: rest) "--export-file"
                 = Some value).
  { destruct (getFlagValue_scan "--export-file" flags) as (_ & _ & Hspace).
    - eapply Forall_impl; [exact Hflags |]. now intros f [_ Hf].
    - rewrite Hspace by discriminate. apply truthy_nonempty in Hvalue.
      now rewrite Hvalue, Hplain. }
  assert (Hexport : hasFlag (flags ++ "--export-file" :: value :: rest) "--export-csv"
                    = true).
  { rewrite hasFlag_app in *. apply orb_true_iff in Hcsv as [-> | Hrest]; [reflexivity |].
    apply orb_true_iff. right. unfold hasFlag in *. cbn [existsb].
    now rewrite Hrest, !orb_true_r. }
  unfold startup. rewrite Hnon, Hget, Hexport.
  apply truthy_nonempty in Hvalue. rewrite Hvalue.
  destruct (flags ++ "--export-file" :: value :: rest) eqn:E.
  - destruct flags; discriminate.
  - eexists. split; [reflexivity |]. split; reflexivity.
Qed.

Lemma export_file_value_read_as_input_witness :
  exists options,
    startup (["--export-csv"] ++ "--export-file" :: "passwords.csv" :: ["--include-passwords"])
    = Ready options
    /\ fileArg options = "passwords.csv"
    /\ exportTarget options = ExportFile "passwords.csv".
Proof.
  apply (export_file_value_read_as_input ["--export-csv"] ["--include-passwords"]
           "passwords.csv").
  - repeat constructor; vm_compute; congruence.
  - discriminate.
  - reflexivity.
  - reflexivity.
Defined.

(** ** Counters, summary and cache of a run *)

#[local] Arguments Js.substring_to : simpl never.
#[local] Arguments Js.substring_from : simpl never.

Section Accounts.

Context (sha1 : string -> string) (remote : nat -> RequestOptions -> Response).

Abbreviation prefixOf := (prefixOf sha1).
Abbreviation suffixOf := (suffixOf sha1).
Abbreviation processEntry := (processEntry sha1 remote).
Abbreviation processEntries := (processEntries sha1 remote).
Abbreviation main := (main sha1 remote).

Ltac iteration r entry :=
  let Hcache := fresh "Hcache" in
  let Hremote := fresh "Hremote" in
  destruct (hashCache (world r) !! prefixOf (PasswordEntry.password entry))
    as [?cachedData |] eqn:Hcache;
  [ rewrite (processEntry_hit sha1 remote _ _ _ Hcache) in *
  | destruct (remote (length (requests (events (world r))))
                (requestFor (prefixOf (PasswordEntry.password entry))))
      as [?message | ?data] eqn:Hremote;
    [ rewrite (processEntry_failed sha1 remote _ _ _ Hcache Hremote) in *
    | rewrite (processEntry_fetched sha1 remote _ _ _ Hcache Hremote) in * ] ].

(** An invariant of the iteration holds after the loop. *)
Lemma loop_invariant (I : Run -> Prop) :
  (forall r entry, I r -> I (processEntry r entry)) ->
  forall r entries, I r -> I (processEntries r entries).
Proof.
  intros Hstep r entries. revert r.
  induction entries as [| entry entries IH]; intros r Hr; [exact Hr |].
  rewrite processEntries_cons. apply IH, Hstep, Hr.
Qed.

Lemma filter_snoc_length {A : Type} (test : A -> bool) (xs : list A) (x : A) :
  length (List.filter test (xs ++ [x]))
  = (length (List.filter test xs) + if test x then 1 else 0)%nat.
Proof. rewrite List.filter_app, length_app. simpl. now destruct (test x). Qed.

Lemma counters_step (r : Run) (entry : PasswordEntry.t) :
  (checkedCount r + cachedCount r + length (List.filter isRejected (results r))
   = length (results r))%nat
  /\ length (requests (events (world r)))
     = (checkedCount r + length (List.filter isRejected (results r)))%nat ->
  (checkedCount (processEntry r entry) + cachedCount (processEntry r entry)
   + length (List.filter isRejected (results (processEntry r entry)))
   = length (results (processEntry r entry)))%nat
  /\ length (requests (events (world (processEntry r entry))))
     = (checkedCount (processEntry r entry)
        + length (List.filter isRejected (results (processEntry r entry))))%nat.
Proof.
  intros [Hsum Hrequests].
  iteration r entry; cbn [checkedCount cachedCount results world events];
    rewrite filter_snoc_length, length_app, ?requests_app, ?length_app;
    unfold isRejected at 2; cbn [Result.status length requests omap];
    try (destruct (Js.isZero _)); simpl; lia.
Qed.

Lemma counters_invariant (entries : list PasswordEntry.t) :
  (checkedCount (main entries) + cachedCount (main entries)
   + length (List.filter isRejected (results (main entries)))
   = length (results (main entries)))%nat
  /\ length (requests (events (world (main entries))))
     = (checkedCount (main entries)
        + length (List.filter isRejected (results (main entries))))%nat.
Proof.
  rewrite main_eq.
  apply (loop_invariant
           (fun r => (checkedCount r + cachedCount r
                      + length (List.filter isRejected (results r))
                      = length (results r))%nat
                     /\ length (requests (events (world r)))
                        = (checkedCount r
                           + length (List.filter isRejected (results r)))%nat)).
  - apply counters_step.
  - split; reflexivity.
Qed.

(** X9. After the loop of [main] every entry is accounted for once: the
    API calls counted, the cache hits counted and the rejected lookups
    add up to the number of entries. The requests sent are the API calls
    counted and the rejected lookups together: a request that fails is
    sent but not counted. *)
Theorem counters_account_for_every_entry (entries : list PasswordEntry.t) :
  let run := main entries in
  let rejected := length (List.filter isRejected (results run)) in
  (checkedCount run + cachedCount run + rejected = length entries)%nat
  /\ length (requests (events (world run))) = (checkedCount run + rejected)%nat.
Proof.
  intros run rejected.
  assert (Hlen : length (results run) = length entries).
  { pose proof (processEntries_results sha1 remote start entries) as H.
    apply (f_equal length) in H. simpl in H. now rewrite !length_map in H. }
  pose proof (counters_invariant entries) as Hinv. fold run in Hinv.
  subst rejected. destruct Hinv as [Hsum Hrequests]. split; [lia | exact Hrequests].
Qed.

Lemma summary_step (r : Run) (entry : PasswordEntry.t) :
  pwnedCount r = pwnedPasswords (results r)
  /\ (length (List.filter isRejected (results r)) <= errors (results r))%nat
  /\ (safePasswords (results r) + pwnedPasswords (results r) + errors (results r)
      <= length (results r))%nat ->
  pwnedCount (processEntry r entry) = pwnedPasswords (results (processEntry r entry))
  /\ (length (List.filter isRejected (results (processEntry r entry)))
      <= errors (results (processEntry r entry)))%nat
  /\ (safePasswords (results (processEntry r entry))
      + pwnedPasswords (results (processEntry r entry))
      + errors (results (processEntry r entry))
      <= length (results (processEntry r entry)))%nat.
Proof.
  intros (Hpwned & Hrejected & Hsum).
  unfold pwnedPasswords, safePasswords, errors in *.
  iteration r entry; cbn [pwnedCount results];
    rewrite !filter_snoc_length, length_app; cbn [Result.count length];
    unfold isRejected at 2; cbn [Result.status].
  - set (count := matchCount cachedData _).
    destruct count as [z |]; cbn [Js.isZero Js.isPositive Js.isMinusOne].
    + destruct (Z.eqb_spec z 0), (Z.ltb_spec 0 z), (Z.eqb_spec z (-1)); lia.
    + lia.
  - cbn [Js.isZero Js.isPositive Js.isMinusOne]. simpl. lia.
  - set (count := matchCount (parseResponse data) _).
    destruct count as [z |]; cbn [Js.isZero Js.isPositive Js.isMinusOne].
    + destruct (Z.eqb_spec z 0), (Z.ltb_spec 0 z), (Z.eqb_spec z (-1)); lia.
    + lia.
Qed.

(** X10. The summary agrees with the loop: the pwned passwords that the
    filter over the results counts are the [pwnedCount] kept for the
    progress bar; every rejected lookup is among the errors; and the
    safe, the pwned and the error counts together do not exceed the
    number of entries. *)
Theorem summary_matches_counters (entries : list PasswordEntry.t) :
  let run := main entries in
  pwnedPasswords (results run) = pwnedCount run
  /\ (length (List.filter isRejected (results run)) <= errors (results run))%nat
  /\ (safePasswords (results run) + pwnedPasswords (results run) + errors (results run)
      <= length entries)%nat.
Proof.
  intros run.
  assert (Hlen : length (results run) = length entries).
  { pose proof (processEntries_results sha1 remote start entries) as H.
    apply (f_equal length) in H. simpl in H. now rewrite !length_map in H. }
  assert (Hinv : pwnedCount run = pwnedPasswords (results run)
                 /\ (length (List.filter isRejected (results run))
                     <= errors (results run))%nat
                 /\ (safePasswords (results run) + pwnedPasswords (results run)
                     + errors (results run) <= length (results run))%nat).
  { subst run. rewrite main_eq.
    apply (loop_invariant
             (fun r => pwnedCount r = pwnedPasswords (results r)
                       /\ (length (List.filter isRejected (results r))
                           <= errors (results r))%nat
                       /\ (safePasswords (results r) + pwnedPasswords (results r)
                           + errors (results r) <= length (results r))%nat)).
    - apply summary_step.
    - unfold pwnedPasswords, safePasswords, errors. simpl. lia. }
  destruct Hinv as (Hpwned & Hrejected & Hsum). repeat split; [congruence | lia | lia].
Qed.

(** *** What the cache holds, what the results report *)

Lemma results_cache_step (r : Run) (entry : PasswordEntry.t) :
  (forall result, In result (results r) -> isRejected result = false ->
     exists set,
       hashCache (world r) !! prefixOf (Result.password result) = Some set
       /\ Result.count result = matchCount set (suffixOf (Result.password result))) ->
  forall result, In result (results (processEntry r entry)) ->
    isRejected result = false ->
    exists set,
      hashCache (world (processEntry r entry)) !! prefixOf (Result.password result)
      = Some set
      /\ Result.count result = matchCount set (suffixOf (Result.password result)).
Proof.
  intros Hinv result Hin Hresolved.
  assert (Hold : In result (results r) ->
                 exists set,
                   hashCache (world (processEntry r entry))
                     !! prefixOf (Result.password result) = Some set
                   /\ Result.count result
                      = matchCount set (suffixOf (Result.password result))).
  { intros Hr. destruct (Hinv result Hr Hresolved) as (set & Hset & Hcount).
    exists set. split; [| exact Hcount].
    now apply (processEntry_cache_kept sha1 remote). }
  iteration r entry; cbn [results] in Hin; apply in_app_or in Hin;
    destruct Hin as [Hin | [<- | []]]; try (now apply Hold).
  - exists cachedData. split; [exact Hcache | reflexivity].
  - exists (parseResponse data). split; [| reflexivity].
    cbn [world hashCache Result.password]. apply lookup_insert_eq.
Qed.

(** X11. Every result of [main] whose lookup was not rejected carries the
    count that the range cached for its prefix at the end of the run
    gives for its suffix. So two such results for the same password
    carry the same count. *)
Theorem results_agree_with_cache (entries : list PasswordEntry.t) :
  let run := main entries in
  (forall result, In result (results run) -> isRejected result = false ->
     exists set,
       hashCache (world run) !! prefixOf (Result.password result) = Some set
       /\ Result.count result = matchCount set (suffixOf (Result.password result)))
  /\ (forall first second,
        In first (results run) -> In second (results run) ->
        isRejected first = false -> isRejected second = false ->
        Result.password first = Result.password second ->
        Result.count first = Result.count second).
Proof.
  intros run.
  assert (Hinv : forall result, In result (results run) -> isRejected result = false ->
            exists set,
              hashCache (world run) !! prefixOf (Result.password result) = Some set
              /\ Result.count result
                 = matchCount set (suffixOf (Result.password result))).
  { subst run. rewrite main_eq.
    apply (loop_invariant
             (fun r => forall result, In result (results r) ->
                isRejected result = false ->
                exists set,
                  hashCache (world r) !! prefixOf (Result.password result) = Some set
                  /\ Result.count result
                     = matchCount set (suffixOf (Result.password result)))).
    - apply results_cache_step.
    - intros result []. }
  split; [exact Hinv |].
  intros first second Hfirst Hsecond Hr1 Hr2 Hsame.
  destruct (Hinv first Hfirst Hr1) as (set1 & Hset1 & ->).
  destruct (Hinv second Hsecond Hr2) as (set2 & Hset2 & ->).
  rewrite Hsame in *. congruence.
Qed.

Lemma cache_source_step (r : Run) (entry : PasswordEntry.t) :
  (forall p set, hashCache (world r) !! p = Some set ->
     exists n data,
       requests (events (world r)) !! n = Some (requestFor p)
       /\ remote n (requestFor p) = OnEnd data
       /\ set = parseResponse data) ->
  forall p set, hashCache (world (processEntry r entry)) !! p = Some set ->
    exists n data,
      requests (events (world (processEntry r entry))) !! n = Some (requestFor p)
      /\ remote n (requestFor p) = OnEnd data
      /\ set = parseResponse data.
Proof.
  intros Hinv p set Hset.
  assert (Hold : forall new,
             hashCache (world r) !! p = Some set ->
             exists n data,
               requests (events (world r) ++ new) !! n = Some (requestFor p)
               /\ remote n (requestFor p) = OnEnd data
               /\ set = parseResponse data).
  { intros new Hp. destruct (Hinv p set Hp) as (n & data & Hn & Hdata & Heq).
    exists n, data. split; [| now split].
    rewrite requests_app. now apply lookup_app_l_Some. }
  iteration r entry; cbn [world hashCache events] in *.
  - now apply Hinv.
  - now apply Hold.
  - destruct (decide (prefixOf (PasswordEntry.password entry) = p)) as [<- | Hne].
    + rewrite lookup_insert_eq in Hset. injection Hset as <-.
      exists (length (requests (events (world r)))), data.
      split; [| now split].
      rewrite requests_app. cbn [requests omap].
      rewrite lookup_app_r by lia. now rewrite Nat.sub_diag.
    + rewrite lookup_insert_ne in Hset by exact Hne. now apply Hold.
Qed.

(** X12. The cache holds nothing but parsed answers of the service: a
    range cached under a prefix at the end of [main] is [parseResponse]
    of the data with which one of the requests of the run for that
    prefix ended. *)
Theorem cache_holds_answers_of_the_service (entries : list PasswordEntry.t)
        (p : string) (set : list CacheEntry.t) :
  hashCache (world (main entries)) !! p = Some set ->
  exists n data,
    requests (events (world (main entries))) !! n = Some (requestFor p)
    /\ remote n (requestFor p) = OnEnd data
    /\ set = parseResponse data.
Proof.
  rewrite main_eq. revert p set.
  apply (loop_invariant
           (fun r => forall p set, hashCache (world r) !! p = Some set ->
              exists n data,
                requests (events (world r)) !! n = Some (requestFor p)
                /\ remote n (requestFor p) = OnEnd data
                /\ set = parseResponse data)).
  - apply cache_source_step.
  - intros p set H. simpl in H. now rewrite lookup_empty in H.
Qed.

Lemma requests_of_entries (r : Run) (entries : list PasswordEntry.t)
      (o : RequestOptions) :
  In o (requests (events (world (processEntries r entries)))) ->
  In o (requests (events (world r)))
  \/ exists entry, In entry entries
                   /\ o = requestFor (prefixOf (PasswordEntry.password entry)).
Proof.
  revert r. induction entries as [| entry entries IH]; intros r Hin; [now left |].
  rewrite processEntries_cons in Hin. apply IH in Hin as [Hin | (e & He & ->)].
  - rewrite (processEntry_events sha1 remote), requests_app in Hin.
    apply in_app_or in Hin as [Hin | Hin]; [now left |].
    right. exists entry. split; [now left |].
    destruct (hashCache (world r) !! _); [destruct Hin |].
    destruct (remote _ _); simpl in Hin; destruct Hin as [<- | []]; reflexivity.
  - right. exists e. split; [now right | reflexivity].
Qed.

(** X13. Every request of a run is a GET to api.pwnedpasswords.com for
    /range/ followed by the prefix of the digest of one of the entries,
    and a run sends no more requests than it has entries. *)
Theorem requests_carry_entry_prefixes_only (entries : list PasswordEntry.t) :
  (forall o, In o (requests (events (world (main entries)))) ->
     exists entry,
       In entry entries
       /\ o = requestFor (prefixOf (PasswordEntry.password entry))
       /\ hostname o = "api.pwnedpasswords.com"
       /\ path o = "/range/" +:+ prefixOf (PasswordEntry.password entry)
       /\ method o = "GET")
  /\ (length (requests (events (world (main entries)))) <= length entries)%nat.
Proof.
  split.
  - intros o Hin. rewrite main_eq in Hin.
    apply requests_of_entries in Hin as [[] | (entry & Hentry & ->)].
    exists entry. repeat split. exact Hentry.
  - pose proof (processEntries_results sha1 remote start entries) as Hlen.
    apply (f_equal length) in Hlen. simpl in Hlen. rewrite !length_map in Hlen.
    destruct (counters_invariant entries) as [Hsum Hrequests].
    rewrite main_eq in *. lia.
Qed.

End Accounts.

(** ** The export *)

Lemma csvRow_of_exposed (includePasswords : bool) (result : Result.t) :
  csvRow includePasswords result
  = [Js.Number (Js.Num (Result.originalLineNumber result));
     if Js.isNonNegative (Result.count result)
     then Js.Number (Result.count result) else Js.Str EmptyString]
    ++ (if includePasswords
        then [Js.Str
                (let exposed :=
                   if includePasswords && Js.isPositive (Result.count result)
                   then Result.password result else EmptyString in
                 if Js.isPositive (Result.count result)
                 then (if Js.truthy exposed then exposed else EmptyString)
                 else EmptyString)]
        else []).
Proof.
  unfold csvRow. destruct includePasswords; [| reflexivity].
  cbn [andb]. now destruct (Js.isPositive (Result.count result)).
Qed.

(** X15. The export shows of a result its line number, its count and, with
    --include-passwords and a count above zero, its password, and nothing
    else: two lists of results that agree on these are exported as the
    same text. Without --include-passwords no password reaches the export;
    with it the passwords of safe and of failed rows do not; the status
    messages never do. *)
Theorem export_shows_exposed_fields_only (includePasswords : bool)
        (rs1 rs2 : list Result.t) :
  map (fun r => (Result.originalLineNumber r, Result.count r,
                 if includePasswords && Js.isPositive (Result.count r)
                 then Result.password r else EmptyString)) rs1
  = map (fun r => (Result.originalLineNumber r, Result.count r,
                   if includePasswords && Js.isPositive (Result.count r)
                   then Result.password r else EmptyString)) rs2 ->
  csvExport includePasswords rs1 = csvExport includePasswords rs2.
Proof.
  intros Hsame. unfold csvExport, csvLines. do 2 f_equal.
  revert rs2 Hsame. induction rs1 as [| r1 rs1 IH]; intros [| r2 rs2] Hsame;
    try discriminate; [reflexivity |].
  cbn [map] in *. injection Hsame as Hline Hcount Hexposed Hrest.
  f_equal; [| now apply IH].
  rewrite !csvRow_of_exposed. cbv zeta. rewrite Hexposed, Hline, Hcount. reflexivity.
Qed.

Lemma export_shows_exposed_fields_only_witness :
  csvExport true [Result.make "hunter2" (Js.Num 0) 1 Safe;
                  Result.make "password" (Js.Num 3730471) 2 (Pwned (Js.Num 3730471));
                  Result.make "letmein" (Js.Num (-1)) 3 (Error "socket hang up")]
  = csvExport true [Result.make "another one" (Js.Num 0) 1 Safe;
                    Result.make "password" (Js.Num 3730471) 2 (Pwned (Js.Num 3730471));
                    Result.make "a third" (Js.Num (-1)) 3 (Error "timeout")].
Proof.
  apply export_shows_exposed_fields_only. reflexivity.
Defined.

Lemma join_free (c : ascii) (sep : string) (pieces : list string) :
  ~ In c (list_ascii_of_string sep) ->
  Forall (fun piece => ~ In c (list_ascii_of_string piece)) pieces ->
  ~ In c (list_ascii_of_string (Js.join sep pieces)).
Proof.
  intros Hsep Hpieces. induction Hpieces as [| piece pieces Hpiece _ IH]; [intros [] |].
  destruct pieces as [| piece' pieces]; [exact Hpiece |].
  change (Js.join sep (piece :: piece' :: pieces))
    with (piece +:+ sep +:+ Js.join sep (piece' :: pieces)).
  rewrite !in_string_app. tauto.
Qed.

Lemma escapeCsv_value_no_line_feed (v : Js.value) :
  (forall s, v = Js.Str s -> ~ In Js.LF (list_ascii_of_string s)) ->
  ~ In Js.LF (list_ascii_of_string (escapeCsv v)).
Proof.
  intros Hstr. destruct v as [| | n | s].
  - intros [].
  - intros [].
  - rewrite escapeCsv_number. apply needsQuoting_false_free.
    + apply numberToString_no_special.
    + unfold isCsvSpecial. tauto.
  - apply escapeCsv_no_line_feed. now apply Hstr.
Qed.

Lemma csvLines_no_line_feed (includePasswords : bool) (rs : list Result.t) :
  Forall (fun r => ~ In Js.LF (list_ascii_of_string (Result.password r))) rs ->
  Forall (fun line => ~ In Js.LF (list_ascii_of_string line)) (csvLines includePasswords rs).
Proof.
  intros Hrs. unfold csvLines. constructor.
  - destruct includePasswords; vm_compute;
      intros H; repeat (destruct H as [H | H]; [discriminate |]); exact H.
  - apply Forall_forall. intros line Hin.
    apply list_elem_of_In, in_map_iff in Hin as (r & <- & Hr).
    rewrite Forall_forall in Hrs. apply list_elem_of_In, Hrs in Hr.
    apply join_free.
    + vm_compute. intros [H | []]. discriminate.
    + apply Forall_forall. intros field Hfield.
      apply list_elem_of_In, in_map_iff in Hfield as (v & <- & Hv).
      apply escapeCsv_value_no_line_feed. intros s ->.
      unfold csvRow in Hv. apply in_app_or in Hv as [[Hv | [Hv | []]] | Hv].
      * discriminate.
      * destruct (Js.isNonNegative _); [discriminate |]. injection Hv as <-. intros [].
      * destruct includePasswords; [| destruct Hv].
        destruct Hv as [Hv | []]. injection Hv as <-.
        destruct (Js.isPositive _); [| intros []].
        destruct (Js.truthy _); [exact Hr | intros []].
Qed.

(** X16. From the input file to the export: the text that [main] exports
    for the entries read from any input file splits at its line feeds into
    the header and one row per entry, in the order of the entries; no
    field breaks a row. *)
Theorem export_has_one_line_per_entry
        (sha1 : string -> string) (remote : nat -> RequestOptions -> Response)
        (filePath content : string) (includePasswords : bool) :
  let entries := parseInputFile filePath content in
  let rs := results (main sha1 remote entries) in
  Js.split_on Js.LF (csvExport includePasswords rs) = csvLines includePasswords rs
  /\ length (csvLines includePasswords rs) = S (length entries).
Proof.
  intros entries rs.
  pose proof (processEntries_results sha1 remote start entries) as Hresults.
  cbn [results start map app] in Hresults. fold (main sha1 remote entries) in Hresults.
  fold rs in Hresults.
  split.
  - unfold csvExport. apply split_on_join; [discriminate |].
    apply csvLines_no_line_feed. apply Forall_forall. intros r Hr.
    apply list_elem_of_In in Hr.
    apply (in_map (fun x => (Result.originalLineNumber x, Result.password x))) in Hr.
    rewrite Hresults in Hr. apply in_map_iff in Hr as (entry & Heq & Hentry).
    injection Heq as _ Hpw. rewrite <- Hpw.
    now apply parseInputFile_entry_facts in Hentry.
  - unfold csvLines. cbn [length]. rewrite length_map. f_equal.
    apply (f_equal length) in Hresults. now rewrite !length_map in Hresults.
Qed.

Lemma string_snoc_inj (a b : string) (c : ascii) :
  a +:+ String c EmptyString = b +:+ String c EmptyString -> a = b.
Proof.
  revert b. induction a as [| x a IH]; intros [| y b] H; simpl in H.
  - reflexivity.
  - injection H as _ H. destruct b; discriminate.
  - injection H as _ H. destruct a; discriminate.
  - injection H as -> H. f_equal. now apply IH.
Qed.

(** X17. [escapeCsv] loses nothing: two strings with the same escaped form
    are equal. *)
Theorem escapeCsv_injective (a b : string) :
  escapeCsv (Js.Str a) = escapeCsv (Js.Str b) -> a = b.
Proof.
  rewrite !escapeCsv_str.
  destruct (Js.needsQuoting a) eqn:Ha, (Js.needsQuoting b) eqn:Hb; intros H.
  - injection H as H. apply string_snoc_inj in H.
    apply (f_equal Js.undoubleQuotes) in H. now rewrite !undoubleQuotes_doubleQuotes in H.
  - exfalso. subst b. cbn [Js.needsQuoting] in Hb.
    rewrite Ascii.eqb_refl in Hb. discriminate.
  - exfalso. subst a. cbn [Js.needsQuoting] in Ha.
    rewrite Ascii.eqb_refl in Ha. discriminate.
  - exact H.
Qed.

Lemma escapeCsv_injective_witness :
  escapeCsv (Js.Str Examples.quotedField) = escapeCsv (Js.Str Examples.quotedField)
  /\ Examples.quotedField = Examples.quotedField.
Proof.
  split; [reflexivity |]. apply escapeCsv_injective. reflexivity.
Defined.

(** ** The extension of the input file *)

Lemma toLowerCase_app (a b : string) :
  Js.toLowerCase (a +:+ b) = Js.toLowerCase a +:+ Js.toLowerCase b.
Proof. induction a as [| c a IH]; [reflexivity |]. simpl. now rewrite IH. Qed.

Lemma toLowerCase_length (s : string) :
  String.length (Js.toLowerCase s) = String.length s.
Proof. induction s as [| c s IH]; [reflexivity |]. simpl. now rewrite IH. Qed.

Lemma toLowerCase_substring_from (n : nat) (s : string) :
  Js.toLowerCase (Js.substring_from n s) = Js.substring_from n (Js.toLowerCase s).
Proof.
  revert s. induction n as [| n IH]; intros [| c s]; try reflexivity.
  cbn [Js.substring_from Js.toLowerCase]. apply IH.
Qed.

(** X18. A file is read as CSV exactly when its name ends in .csv, in any
    mix of upper and lower case. *)
Theorem csv_detected_by_extension (filePath : string) :
  isCsvPath filePath = true
  <-> exists stem extension,
      filePath = stem +:+ extension /\ Js.toLowerCase extension = ".csv".
Proof.
  unfold isCsvPath, Js.endsWith. rewrite andb_true_iff, String.eqb_eq. split.
  - intros [_ Hext]. rewrite toLowerCase_length in Hext.
    exists (Js.substring_to (String.length filePath - String.length ".csv") filePath),
           (Js.substring_from (String.length filePath - String.length ".csv") filePath).
    split; [symmetry; apply substring_to_from |]. now rewrite toLowerCase_substring_from.
  - intros (stem & extension & -> & Hext).
    rewrite toLowerCase_app, Hext, string_app_length. split.
    + apply Nat.leb_le. lia.
    + replace (String.length (Js.toLowerCase stem) + String.length ".csv"
               - String.length ".csv")%nat
        with (String.length (Js.toLowerCase stem)) by lia.
      apply substring_from_app.
Qed.

(** ** The theorems at work *)

Lemma csv_first_column_round_trip_witness :
  let rows := [("pass,word", ",alice"); (Examples.quotedField, EmptyString);
               ("plain", ",bob,2019")] in
  parseInputFile "export.CSV"
    (Js.join (String Js.LF EmptyString)
       (map (fun row => escapeCsv (Js.Str row.1) +:+ row.2) rows))
  = [PasswordEntry.make "pass,word" 1; PasswordEntry.make Examples.quotedField 2;
     PasswordEntry.make "plain" 3].
Proof.
  intros rows.
  rewrite (csv_first_column_round_trip "export.CSV" rows); [reflexivity | reflexivity |].
  assert (Hfree : forall s : string,
             forallb (fun c => negb (Ascii.eqb c Js.LF)) (list_ascii_of_string s) = true ->
             ~ In Js.LF (list_ascii_of_string s)).
  { intros s Hs Hin. rewrite forallb_forall in Hs. apply Hs in Hin.
    now rewrite Ascii.eqb_refl in Hin. }
  subst rows. constructor; [| constructor; [| constructor; [| constructor]]]; cbn [fst snd].
  - split; [split; [discriminate | split; [now apply Hfree | now left]] |].
    split; [now apply Hfree | now right].
  - split; [split; [discriminate | split; [now apply Hfree | now left]] |].
    split; [now apply Hfree | now left].
  - split; [split; [discriminate | split; [now apply Hfree | now right]] |].
    split; [now apply Hfree | now right].
Defined.

Lemma scripts_read_same_passwords_witness :
  let content :=
    String Js.DQUOTE ("pass,word" +:+ String Js.DQUOTE (",alice" +:+ String Js.LF
      ("  " +:+ String Js.LF ("plain,bob" +:+ String Js.LF
         (String Js.DQUOTE "open sesame"))))) in
  CheckPwnedPasswordsInput.parseInputFile "list.csv" content
  = map PasswordEntry.password (parseInputFile "list.csv" content).
Proof.
  intros content. apply (scripts_read_same_passwords "list.csv" content).
  intros _. vm_compute. repeat constructor.
Defined.

Lemma cache_holds_answers_of_the_service_witness :
  let remote := Examples.answering Examples.rangeOfPassword in
  let run := main Sha1.sha1 remote [Examples.entry "password" 1; Examples.entry "hunter2" 2] in
  exists n data,
    requests (events (world run)) !! n = Some (requestFor "5BAA6")
    /\ remote n (requestFor "5BAA6") = OnEnd data
    /\ parseResponse Examples.rangeOfPassword = parseResponse data.
Proof.
  exact (cache_holds_answers_of_the_service Sha1.sha1
           (Examples.answering Examples.rangeOfPassword)
           [Examples.entry "password" 1; Examples.entry "hunter2" 2]
           "5BAA6" (parseResponse Examples.rangeOfPassword)
           ltac:(vm_compute; reflexivity)).
Defined.

